(** * AVM aggregation pipeline of real-estate-core

    A shallow embedding of [lib/avm-aggregator.ts] (class [AVMAggregator]) and
    of [lib/scraping-utils.ts] (class [ScrapingUtils]): the helpers the
    aggregator relies on ([isValidPrice], [saveAVMEstimate],
    [generatePropertyHash], [delay]) and the ones the scrapers are written
    with ([enforceRateLimit], [fetchWithRetry], [cleanText], [parsePrice],
    [parseSquareFootage]); the text of that file is the one quoted in
    V2_IMPLEMENTATION_SUMMARY.md.

    [analyzeProperty] is asynchronous: its scraping tasks are interleaved
    under a limiter.  It is embedded as a step relation on the state of a
    run, [AVMAggregator.step], followed by a function of the state at the
    join, [AVMAggregator.conclude]; [AVMAggregator.drive] is one executable
    schedule.  What lies outside the sources is a parameter (the scrapers,
    the MD5 digest, the default the schema gives [lastUpdated]) or is
    modelled from the spec and says so (the limiter).

    Conventions.
    - A JavaScript [number] is idealised as a real number of [R]: IEEE
      rounding, [NaN] and the infinities are outside the model.  A property
      that names an exact value is stated for inputs on which the doubles
      of the code are exact (whole numbers up to [2 ^ 53]).  Times and
      delays are integer milliseconds ([Z]).
    - An optional field ([confidence?: number]) is an [option]; [None] stands
      for [undefined] (and for [null], which the source maps to [undefined]
      with [??]).
    - A JavaScript object used as a dictionary ([Record<string, T>]) is a
      [gmap string T] of its own keys; the names inherited from
      [Object.prototype] are listed in [Js.Object_prototype], and a property
      that looks a provider up in such an object excludes them.
    - A JavaScript string is a [string]: its characters are the code units
      below 256.  A regular expression is embedded as the function that
      computes its leftmost match. *)

From Stdlib Require Import Reals Lra Lia ZArith Sorted Ascii.
From stdpp Require Import gmap strings list fin_maps relations pretty.

(** ** JavaScript numbers *)

Module Js.

Local Open Scope R_scope.

(** [x < y] on numbers, as a boolean. *)
Definition ltb (x y : R) : bool := if Rlt_dec x y then true else false.

(** Truthiness of a number: [0] is falsy, every other real is truthy. *)
Definition truthy (x : R) : bool := if Req_dec_T x 0 then false else true.

(** Truthiness of an optional number: [undefined] is falsy. *)
Definition truthy_opt (o : option R) : bool :=
  match o with
  | Some x => truthy x
  | None => false
  end.

(** [Math.round]: the nearest integer, ties towards [+Infinity]. *)
Definition Math_round (x : R) : R := IZR (Zfloor (x + / 2)).

(** [Math.max(a, b)]. *)
Definition Math_max (a b : R) : R := Rmax a b.

(** [Math.min(...values)] and [Math.max(...values)] on a spread array.  On
    the empty array JavaScript answers [Infinity] and [-Infinity], which [R]
    lacks; [0] stands for them there (the aggregator never spreads an empty
    array). *)
Definition Math_min_spread (values : list R) : R :=
  match values with
  | [] => 0
  | v :: vs => fold_left Rmin vs v
  end.

Definition Math_max_spread (values : list R) : R :=
  match values with
  | [] => 0
  | v :: vs => fold_left Rmax vs v
  end.

(** [values.reduce((sum, val) => sum + val, 0)]. *)
Definition sum (values : list R) : R := fold_left Rplus values 0.

(** The property names every object inherits from [Object.prototype]
    (ECMAScript, section 20.1.3 and annex B.2.2).  An object literal answers
    to them with a function or an object although it does not list them, and
    an assignment to [__proto__] creates no entry. *)
Definition Object_prototype : list string :=
  [ "constructor"; "hasOwnProperty"; "isPrototypeOf"; "propertyIsEnumerable";
    "toLocaleString"; "toString"; "valueOf"; "__proto__"; "__defineGetter__";
    "__defineSetter__"; "__lookupGetter__"; "__lookupSetter__" ]%string.

End Js.

(** ** Thrown values and settled promises *)

(** What a [catch (error: any)] block reads of the thrown value:
    [error?.message]. *)
Definition Thrown : Type := option string.

(** The settlement of an awaited promise. *)
Inductive Settled (A : Type) : Type :=
| Resolved (value : A)
| Rejected (error : Thrown).
Arguments Resolved {A} value.
Arguments Rejected {A} error.

(** ** The persistence layer ([prisma], from [lib/db]) *)

Module Prisma.

(** A row of [property]; the optional descriptive columns (latitude,
    bedrooms, ...) are never read by the aggregator and are left out. *)
Record PropertyRow := {
  id : string;
  address : string;
  city : string;
  state : string;
  zipCode : string
}.

(** A row of [aVMEstimate], without its key columns. *)
Record EstimateRow := {
  estimate : R;
  confidence : option R;
  lowRange : option R;
  highRange : option R;
  lastUpdated : Z
}.

(** The database.  [aVMEstimate] is keyed by the compound unique key
    [propertyId_provider].  While [fault] holds a message every query
    rejects with it (a lost connection, say). *)
Record Db := {
  property : gmap string PropertyRow;
  aVMEstimate : gmap (string * string) EstimateRow;
  fault : option string
}.

Definition with_aVMEstimate (db : Db) (t : gmap (string * string) EstimateRow) : Db :=
  {| property := property db; aVMEstimate := t; fault := fault db |}.

(** [orderBy: { lastUpdated: 'desc' }], by insertion. *)
Fixpoint insertDesc {A} (key : A -> Z) (x : A) (l : list A) : list A :=
  match l with
  | [] => [x]
  | y :: l' => if (key y <? key x)%Z then x :: y :: l' else y :: insertDesc key x l'
  end.

Definition orderByDesc {A} (key : A -> Z) (l : list A) : list A :=
  foldr (insertDesc key) [] l.

(** [prisma.aVMEstimate.findMany({ where: { propertyId },
    orderBy: { lastUpdated: 'desc' } })]: the rows with their provider. *)
Definition aVMEstimate_findMany (db : Db) (propertyId : string)
  : Settled (list (string * EstimateRow)) :=
  match fault db with
  | Some m => Rejected (Some m)
  | None =>
      Resolved
        (orderByDesc (fun pr => lastUpdated pr.2)
           (omap (fun kv => if decide (kv.1.1 = propertyId) then Some (kv.1.2, kv.2) else None)
              (map_to_list (aVMEstimate db))))
  end.

(** [prisma.property.findUnique({ where: { id }, include: { avmEstimates:
    { orderBy: { lastUpdated: 'desc' } } } })]. *)
Definition property_findUnique (db : Db) (id : string)
  : Settled (option (PropertyRow * list (string * EstimateRow))) :=
  match fault db with
  | Some m => Rejected (Some m)
  | None =>
      match property db !! id with
      | None => Resolved None
      | Some row =>
          match aVMEstimate_findMany db id with
          | Resolved rows => Resolved (Some (row, rows))
          | Rejected e => Rejected e
          end
      end
  end.

(** [prisma.aVMEstimate.upsert({ where: { propertyId_provider }, update,
    create })]. *)
Definition aVMEstimate_upsert (db : Db) (propertyId provider : string)
    (update : EstimateRow -> EstimateRow) (create : EstimateRow) : Settled Db :=
  match fault db with
  | Some m => Rejected (Some m)
  | None =>
      let key := (propertyId, provider) in
      match aVMEstimate db !! key with
      | Some row => Resolved (with_aVMEstimate db (<[key := update row]> (aVMEstimate db)))
      | None => Resolved (with_aVMEstimate db (<[key := create]> (aVMEstimate db)))
      end
  end.

End Prisma.

(** ** [ScrapingUtils] (from [lib/scraping-utils.ts]) *)

Module ScrapingUtils.

Local Open Scope R_scope.

(** [interface PropertyData], without the optional descriptive fields. *)
Record PropertyData := {
  address : string;
  city : string;
  state : string;
  zipCode : string
}.

(** [interface AVMData]. *)
Record AVMData := {
  provider : string;
  estimate : R;
  confidence : option R;
  lowRange : option R;
  highRange : option R
}.

(** The [data: any] of a result, as far as it is looked at: [data.property]
    ([None] when absent) and the valuation the scraper extracted. *)
Record Payload := {
  property : option PropertyData;
  avm : option AVMData
}.

(** [interface ScrapingResult]; [data] is [None] for [null]. *)
Record ScrapingResult := {
  success : bool;
  data : option Payload;
  error : option string;
  duration : option Z
}.

(** [isValidPrice(price: number | null)]:
    [price !== null && price > 0 && price < 50000000]. *)
Definition isValidPrice (price : option R) : bool :=
  match price with
  | None => false
  | Some p => Js.ltb 0 p && Js.ltb p 50000000
  end.

(** [String.prototype.toLowerCase] on the characters below 256: the capitals
    [A]-[Z] and the capitals of ISO 8859-1, code units 192 to 222 without the
    multiplication sign 215, move up by 32; every other character is kept. *)
Definition lowerChar (c : Ascii.ascii) : Ascii.ascii :=
  let n := Ascii.nat_of_ascii c in
  if (((65 <=? n) && (n <=? 90))
      || ((192 <=? n) && (n <=? 222) && negb (n =? 215)))%nat
  then Ascii.ascii_of_nat (n + 32) else c.

Fixpoint toLowerCase (s : string) : string :=
  match s with
  | EmptyString => EmptyString
  | String c s' => String (lowerChar c) (toLowerCase s')
  end.

(** [generatePropertyHash]: the MD5 digest (of [crypto-js], a parameter
    here) of the lowercased components joined by underscores, in hex. *)
Definition generatePropertyHash (MD5 : string -> string)
    (address city state zipCode : string) : string :=
  let propertyString :=
    (toLowerCase address +:+ "_" +:+ toLowerCase city +:+ "_"
     +:+ toLowerCase state +:+ "_" +:+ zipCode)%string in
  MD5 propertyString.

(** A column of [update]: Prisma leaves a column as it is when the value
    given for it is [undefined]. *)
Definition updated {A} (given stored : option A) : option A :=
  match given with
  | Some value => Some value
  | None => stored
  end.

(** [saveAVMEstimate(propertyId, avmData)] at time [now] ([new Date()]):
    the upsert; a rejection is logged and thrown again.  [update] sets the
    estimate and [lastUpdated: new Date()], and those of [confidence],
    [lowRange] and [highRange] that [avmData] has.  [create] passes no
    [lastUpdated]: a created row takes the default of the schema, which is
    not among the sources and is the parameter [defaultLastUpdated]. *)
Definition saveAVMEstimate (defaultLastUpdated : Z) (propertyId : string)
    (avmData : AVMData) (now : Z) (db : Prisma.Db) : Settled Prisma.Db :=
  Prisma.aVMEstimate_upsert db propertyId (provider avmData)
    (fun row =>
       {| Prisma.estimate := estimate avmData;
          Prisma.confidence := updated (confidence avmData) (Prisma.confidence row);
          Prisma.lowRange := updated (lowRange avmData) (Prisma.lowRange row);
          Prisma.highRange := updated (highRange avmData) (Prisma.highRange row);
          Prisma.lastUpdated := now |})
    {| Prisma.estimate := estimate avmData;
       Prisma.confidence := confidence avmData;
       Prisma.lowRange := lowRange avmData;
       Prisma.highRange := highRange avmData;
       Prisma.lastUpdated := defaultLastUpdated |}.

Local Close Scope R_scope.

(** *** Rate limiting

    [rateLimitMap] is a [gmap] from keys to counts; a call is given the time
    [Date.now()] returns, in integer milliseconds. *)

Definition RATE_LIMIT_WINDOW : Z := 60000.
Definition MAX_REQUESTS_PER_WINDOW : nat := 10.

(** [Math.floor(now / this.RATE_LIMIT_WINDOW) * this.RATE_LIMIT_WINDOW]. *)
Definition windowStart (now : Z) : Z := (now / RATE_LIMIT_WINDOW * RATE_LIMIT_WINDOW)%Z.

(** The key [`${provider}_${windowStart}`] of [rateLimitMap]. *)
Definition rateLimitKey (provider : string) (windowStart : Z) : string :=
  provider +:+ "_" +:+ pretty windowStart.

(** [enforceRateLimit(provider)] called at time [now] ([Date.now()]) on the
    map [rateLimitMap]: the time it waits, if it does, and the map it
    leaves. *)
Definition enforceRateLimit (provider : string) (now : Z) (rateLimitMap : gmap string nat)
  : option Z * gmap string nat :=
  let windowStart := windowStart now in
  let key := rateLimitKey provider windowStart in
  let requestCount := default 0 (rateLimitMap !! key) in
  let waited :=
    if (MAX_REQUESTS_PER_WINDOW <=? requestCount)
    then Some (windowStart + RATE_LIMIT_WINDOW - now)%Z
    else None in
  (waited, <[key := S requestCount]> rateLimitMap).

(** Calls of one provider that begin at the given times, in this order,
    within one window.  A call that does not wait runs to its end at once and
    writes its count.  A call that waits stops at its [await] with the key
    and the count it has read, and writes [requestCount + 1] when the window
    has ended, which is after every call of the window has begun.  The
    result: the waits, the writes still to come, and the map when the last
    call has begun. *)
Fixpoint enforceRateLimits (provider : string) (times : list Z)
    (rateLimitMap : gmap string nat)
  : list (option Z) * list (string * nat) * gmap string nat :=
  match times with
  | [] => ([], [], rateLimitMap)
  | now :: times' =>
      let windowStart := windowStart now in
      let key := rateLimitKey provider windowStart in
      let requestCount := default 0 (rateLimitMap !! key) in
      if (MAX_REQUESTS_PER_WINDOW <=? requestCount)
      then
        let '(waits, pending, m) := enforceRateLimits provider times' rateLimitMap in
        (Some (windowStart + RATE_LIMIT_WINDOW - now)%Z :: waits,
         (key, S requestCount) :: pending, m)
      else
        let '(waits, pending, m) :=
          enforceRateLimits provider times' (<[key := S requestCount]> rateLimitMap) in
        (None :: waits, pending, m)
  end.

(** The writes of the calls that waited, once they resume. *)
Definition resumeAll (pending : list (string * nat)) (rateLimitMap : gmap string nat)
  : gmap string nat :=
  foldl (fun m write => <[write.1 := write.2]> m) rateLimitMap pending.

(** The requests counted for a provider in the window of a time. *)
Definition requests (provider : string) (now : Z) (rateLimitMap : gmap string nat) : nat :=
  default 0 (rateLimitMap !! rateLimitKey provider (windowStart now)).

(** *** Fetching with retries *)

(** [Math.min(1000 * Math.pow(2, attempt), 10000)]. *)
Definition backoff (attempt : nat) : Z := Z.min (1000 * 2 ^ Z.of_nat attempt) 10000.

(** [!html || html.length < 100] on the body of a response. *)
Definition tooSmall (html : string) : bool :=
  match html with
  | EmptyString => true
  | _ => String.length html <? 100
  end.

(** [`${lastError?.message}`]. *)
Definition messageOf (lastError : option Thrown) : string :=
  match lastError with
  | Some (Some message) => message
  | _ => "undefined"
  end.

(** The [for] loop of [fetchWithRetry] from [attempt] on, with [remaining]
    iterations to go: [attempt <= maxRetries] holds exactly when [remaining]
    is not [0].  [get attempt] is the settlement of the request of that
    attempt, reduced to [response.data].  The result is the settlement of the
    promise and the delays awaited, in order. *)
Fixpoint fetchFrom (url : string) (get : nat -> Settled string) (maxRetries : nat)
    (remaining attempt : nat) (lastError : option Thrown) : Settled string * list Z :=
  match remaining with
  | 0 =>
      (Rejected (Some ("Failed to fetch " +:+ url +:+ " after " +:+ pretty maxRetries
                       +:+ " attempts: " +:+ messageOf lastError)), [])
  | S remaining' =>
      let catch (error : Thrown) :=
        let waited := if attempt <? maxRetries then [backoff attempt] else [] in
        let '(settled, delays) :=
          fetchFrom url get maxRetries remaining' (S attempt) (Some error) in
        (settled, waited ++ delays) in
      match get attempt with
      | Resolved html =>
          if tooSmall html
          then catch (Some "Received empty or suspiciously small response")
          else (Resolved html, [])
      | Rejected error => catch error
      end
  end.

(** [fetchWithRetry(url, options, maxRetries)]. *)
Definition fetchWithRetry (url : string) (get : nat -> Settled string) (maxRetries : nat)
  : Settled string * list Z :=
  fetchFrom url get maxRetries maxRetries 1 None.

(** What the [catch] block of [fetchWithRetry] receives from an attempt, if
    anything: the rejection of the request, or the error thrown for a body that
    is too small. *)
Definition caught (answer : Settled string) : option Thrown :=
  match answer with
  | Resolved html =>
      if tooSmall html then Some (Some "Received empty or suspiciously small response")
      else None
  | Rejected error => Some error
  end.

(** *** Text

    The regular expressions of [cleanText], [parsePrice] and
    [parseSquareFootage] have no alternative to backtrack into: each is
    embedded as the function that computes its leftmost, longest match. *)

(** The characters of a string. *)
Fixpoint chars (s : string) : list ascii :=
  match s with
  | EmptyString => []
  | String c s' => c :: chars s'
  end.

(** The class [\s] of a regular expression, which is also what [trim]
    removes, on the characters below 256: tab, line feed, vertical tab, form
    feed, carriage return, space and no-break space. *)
Definition isSpace (c : ascii) : bool :=
  let n := nat_of_ascii c in
  ((9 <=? n) && (n <=? 13)) || (n =? 32) || (n =? 160).

(** The class [[\x20-\x7E]]. *)
Definition isPrintable (c : ascii) : bool :=
  let n := nat_of_ascii c in (32 <=? n) && (n <=? 126).

(** The class [\d]. *)
Definition isDigit (c : ascii) : bool :=
  let n := nat_of_ascii c in (48 <=? n) && (n <=? 57).

(** [trim] at the start and at the end. *)
Fixpoint trimStart (s : string) : string :=
  match s with
  | EmptyString => EmptyString
  | String c s' => if isSpace c then trimStart s' else s
  end.

Fixpoint trimEnd (s : string) : string :=
  match s with
  | EmptyString => EmptyString
  | String c s' =>
      match trimEnd s' with
      | EmptyString => if isSpace c then EmptyString else String c EmptyString
      | t => String c t
      end
  end.

(** [String.prototype.trim]. *)
Definition trim (s : string) : string := trimEnd (trimStart s).

(** [replace(/\s+/g, ' ')]: every maximal run of white space becomes one
    space; [inRun] says that the character before was white space. *)
Fixpoint collapseFrom (inRun : bool) (s : string) : string :=
  match s with
  | EmptyString => EmptyString
  | String c s' =>
      if isSpace c
      then if inRun then collapseFrom true s' else String " " (collapseFrom true s')
      else String c (collapseFrom false s')
  end.

(** [replace(/[^\x20-\x7E]/g, '')]. *)
Fixpoint printableOnly (s : string) : string :=
  match s with
  | EmptyString => EmptyString
  | String c s' => if isPrintable c then String c (printableOnly s') else printableOnly s'
  end.

(** [cleanText(text)]:
    [text?.trim()?.replace(/\s+/g, ' ')?.replace(/[^\x20-\x7E]/g, '') || '']. *)
Definition cleanText (text : string) : string :=
  printableOnly (collapseFrom false (trim text)).

(** A text is tidy when it has printable ASCII characters only, no space at
    its start or at its end and no two spaces in a row; [previousSpace] says
    that a space may not come next. *)
Fixpoint tidyFrom (previousSpace : bool) (s : string) : bool :=
  match s with
  | EmptyString => negb previousSpace
  | String c s' =>
      isPrintable c &&
      (if Ascii.eqb c " " then negb previousSpace && tidyFrom true s' else tidyFrom false s')
  end.

(** The empty text is tidy. *)
Definition tidy (s : string) : bool :=
  match s with
  | EmptyString => true
  | _ => tidyFrom true s
  end.

(** Every character of [s] is in the class [P]. *)
Fixpoint allChars (P : ascii -> bool) (s : string) : bool :=
  match s with
  | EmptyString => true
  | String c s' => P c && allChars P s'
  end.

(** The last character of [s] is white space. *)
Fixpoint endsWithSpace (s : string) : bool :=
  match s with
  | EmptyString => false
  | String c EmptyString => isSpace c
  | String _ s' => endsWithSpace s'
  end.

(** Printable ASCII or white space. *)
Definition plain (c : ascii) : bool := isPrintable c || isSpace c.

(** *** Amounts *)

(** [replace(/[...]/g, '')] for a class of characters. *)
Fixpoint removeClass (class : ascii -> bool) (s : string) : string :=
  match s with
  | EmptyString => EmptyString
  | String c s' => if class c then removeClass class s' else String c (removeClass class s')
  end.

(** The classes [[,$\s]] and [[,\s]]. *)
Definition priceSeparator (c : ascii) : bool :=
  Ascii.eqb c "," || Ascii.eqb c "$" || isSpace c.

Definition sqftSeparator (c : ascii) : bool := Ascii.eqb c "," || isSpace c.

(** The longest prefix of digits, and what follows it. *)
Fixpoint digitsThen (s : string) : string * string :=
  match s with
  | EmptyString => (EmptyString, EmptyString)
  | String c s' =>
      if isDigit c
      then let '(digits, rest) := digitsThen s' in (String c digits, rest)
      else (EmptyString, s)
  end.

(** [s.match(/(\d+)/)]: the first run of digits, [None] for [null]. *)
Fixpoint matchDigits (s : string) : option string :=
  match s with
  | EmptyString => None
  | String c s' => if isDigit c then Some (digitsThen s).1 else matchDigits s'
  end.

(** [s.match(/(\d+(?:\.\d+)?)/)]: the first run of digits and, when a dot
    and a digit follow it, the digits after the dot. *)
Fixpoint matchDecimal (s : string) : option (string * string) :=
  match s with
  | EmptyString => None
  | String c s' =>
      if isDigit c
      then
        let '(whole, rest) := digitsThen s in
        match rest with
        | String "." rest' => Some (whole, (digitsThen rest').1)
        | _ => Some (whole, EmptyString)
        end
      else matchDecimal s'
  end.

(** The number a string of digits denotes in base ten, continuing from
    [value]. *)
Fixpoint parseIntFrom (value : N) (digits : string) : N :=
  match digits with
  | EmptyString => value
  | String c digits' => parseIntFrom (10 * value + (N_of_ascii c - 48))%N digits'
  end.

(** [parseInt] of a string of digits, as the whole number the digits spell:
    the number the code returns when that is at most [2 ^ 53]; above, the
    code rounds to a double, which the embedding does not follow. *)
Definition parseInt (digits : string) : N := parseIntFrom 0 digits.

(** [parseFloat] of digits, a dot and digits (no dot when [fraction] is
    empty), as the number the decimal numeral spells: the number the code
    returns for a whole number up to [2 ^ 53]; otherwise the code returns the
    nearest double. *)
Definition parseFloat (whole fraction : string) : R :=
  (IZR (Z.of_N (parseInt whole))
   + IZR (Z.of_N (parseInt fraction)) / 10 ^ String.length fraction)%R.

(** [s.includes(c)] for a single character. *)
Fixpoint includes (c : ascii) (s : string) : bool :=
  match s with
  | EmptyString => false
  | String d s' => Ascii.eqb d c || includes c s'
  end.

(** [parsePrice(priceString)]; [None] for [null]. *)
Definition parsePrice (priceString : string) : option R :=
  match priceString with
  | EmptyString => None
  | _ =>
      let cleaned := removeClass priceSeparator priceString in
      match matchDecimal cleaned with
      | Some (whole, fraction) =>
          let value := parseFloat whole fraction in
          if includes "k" (toLowerCase priceString) then Some (value * 1000)%R
          else if includes "m" (toLowerCase priceString) then Some (value * 1000000)%R
          else Some value
      | None => None
      end
  end.

(** [parseSquareFootage(sqftString)]; [None] for [null].  The result is a
    whole number. *)
Definition parseSquareFootage (sqftString : string) : option N :=
  match sqftString with
  | EmptyString => None
  | _ =>
      let cleaned := removeClass sqftSeparator sqftString in
      parseInt <$> matchDigits cleaned
  end.

(** [s] has no digit. *)
Fixpoint noDigit (s : string) : bool :=
  match s with
  | EmptyString => true
  | String c s' => negb (isDigit c) && noDigit s'
  end.

(** A text mentions a letter when it has it in lower or in upper case. *)
Definition mentions (lower upper : ascii) (s : string) : bool :=
  existsb (fun c => Ascii.eqb c lower || Ascii.eqb c upper) (chars s).
End ScrapingUtils.

(** ** [AVMAggregator] (from [lib/avm-aggregator.ts]) *)

Module AVMAggregator.

Import ScrapingUtils (ScrapingResult, success, data, error, duration).

Local Open Scope R_scope.

(** *** Reconciliation *)

(** An element of [avmEstimates]. *)
Record Estimate := {
  provider : string;
  estimate : R;
  confidence : option R;
  lowRange : option R;
  highRange : option R;
  lastUpdated : Z
}.

Record EstimateRange := { min : R; max : R }.

Record Confidence := { overall : R; byProvider : gmap string R }.

(** The object [calculateAnalysisMetrics] returns. *)
Module Analysis.
Record t := {
  averageEstimate : R;
  estimateRange : EstimateRange;
  confidence : Confidence
}.
End Analysis.

(** The table of [getDefaultConfidence]. *)
Definition defaultConfidences : gmap string R :=
  list_to_map [
    ("homes_com_corelogic"%string, 85);
    ("homes_com_collateral"%string, 80);
    ("homes_com_quantarium"%string, 75);
    ("homes_com_regeodata"%string, 70);
    ("homes_com_homesgenie"%string, 65);
    ("zillow"%string, 80);
    ("redfin"%string, 85);
    ("realtor_com"%string, 75);
    ("movoto"%string, 70)
  ].

(** [defaultConfidences[provider] || 65], for a [provider] that is not among
    [Js.Object_prototype]: for those names the object literal answers with an
    inherited function or object, which is no number, and the embedding does
    not follow the code. *)
Definition getDefaultConfidence (provider : string) : R :=
  match defaultConfidences !! provider with
  | Some c => if Js.truthy c then c else 65
  | None => 65
  end.

(** [calculateStandardDeviation]: the population standard deviation, [0]
    for fewer than two values. *)
Definition calculateStandardDeviation (values : list R) : R :=
  if (length values <=? 1)%nat then 0
  else
    let mean := Js.sum values / INR (length values) in
    let squaredDifferences := map (fun val => (val - mean) ^ 2) values in
    let variance := Js.sum squaredDifferences / INR (length values) in
    sqrt variance.

(** The state of the confidence loop:
    [confidenceByProvider], [totalConfidence], [confidenceCount]. *)
Record ConfidenceAcc := {
  confidenceByProvider : gmap string R;
  totalConfidence : R;
  confidenceCount : nat
}.

(** One iteration of [for (const est of validEstimates)]; the test is
    [if (est.confidence)]. *)
Definition confidenceStep (acc : ConfidenceAcc) (est : Estimate) : ConfidenceAcc :=
  if Js.truthy_opt (confidence est) then
    let c := default 0 (confidence est) in
    {| confidenceByProvider := <[provider est := c]> (confidenceByProvider acc);
       totalConfidence := totalConfidence acc + c;
       confidenceCount := S (confidenceCount acc) |}
  else
    let defaultConfidence := getDefaultConfidence (provider est) in
    {| confidenceByProvider := <[provider est := defaultConfidence]> (confidenceByProvider acc);
       totalConfidence := totalConfidence acc + defaultConfidence;
       confidenceCount := S (confidenceCount acc) |}.

Definition confidenceLoop (validEstimates : list Estimate) : ConfidenceAcc :=
  fold_left confidenceStep validEstimates
    {| confidenceByProvider := ∅; totalConfidence := 0; confidenceCount := 0 |}.

(** [estimates.filter(est => ScrapingUtils.isValidPrice(est.estimate))]. *)
Definition validOf (estimates : list Estimate) : list Estimate :=
  filter (fun est => ScrapingUtils.isValidPrice (Some (estimate est)) = true) estimates.

(** The local [averageEstimate] (before rounding) of the valid estimates. *)
Definition rawAverage (validEstimates : list Estimate) : R :=
  Js.sum (map estimate validEstimates) / INR (length validEstimates).

(** The local [overallConfidence] (before the adjustment). *)
Definition overallConfidence (validEstimates : list Estimate) : R :=
  let acc := confidenceLoop validEstimates in
  if (0 <? confidenceCount acc)%nat
  then totalConfidence acc / INR (confidenceCount acc)
  else 0.

(** The local [consistencyMultiplier]:
    [Math.max(0.5, 1 - standardDeviation / averageEstimate)]. *)
Definition consistencyMultiplier (validEstimates : list Estimate) : R :=
  let averageEstimate := rawAverage validEstimates in
  let estimateValues := map estimate validEstimates in
  let standardDeviation := calculateStandardDeviation estimateValues in
  let coefficientOfVariation := standardDeviation / averageEstimate in
  Js.Math_max (5 / 10) (1 - coefficientOfVariation).

(** The object returned on both early exits. *)
Definition degenerate : Analysis.t :=
  {| Analysis.averageEstimate := 0;
     Analysis.estimateRange := {| min := 0; max := 0 |};
     Analysis.confidence := {| overall := 0; byProvider := ∅ |} |}.

Definition calculateAnalysisMetrics (estimates : list Estimate) : Analysis.t :=
  if (length estimates =? 0)%nat then degenerate
  else
    let validEstimates := validOf estimates in
    if (length validEstimates =? 0)%nat then degenerate
    else
      let averageEstimate := rawAverage validEstimates in
      let estimateValues := map estimate validEstimates in
      let estimateRange :=
        {| min := Js.Math_min_spread estimateValues;
           max := Js.Math_max_spread estimateValues |} in
      let adjustedConfidence :=
        overallConfidence validEstimates * consistencyMultiplier validEstimates in
      {| Analysis.averageEstimate := Js.Math_round averageEstimate;
         Analysis.estimateRange := estimateRange;
         Analysis.confidence :=
           {| overall := Js.Math_round adjustedConfidence;
              byProvider := confidenceByProvider (confidenceLoop validEstimates) |} |}.

(** *** The analysis result and the two reads of stored estimates *)

Module PropertyAnalysisResult.
Record t := {
  propertyId : string;
  address : string;
  city : string;
  state : string;
  zipCode : string;
  avmEstimates : list Estimate;
  averageEstimate : R;
  estimateRange : EstimateRange;
  confidence : Confidence;
  scrapingResults : gmap string ScrapingResult;
  analysisTimestamp : Z
}.
End PropertyAnalysisResult.

(** The [estimates.map(est => ({ ... }))] of both readers. *)
Definition toEstimate (est : string * Prisma.EstimateRow) : Estimate :=
  {| provider := est.1;
     estimate := Prisma.estimate est.2;
     confidence := Prisma.confidence est.2;
     lowRange := Prisma.lowRange est.2;
     highRange := Prisma.highRange est.2;
     lastUpdated := Prisma.lastUpdated est.2 |}.

(** [fetchAVMEstimates]: a rejected query is logged and answered by [[]]. *)
Definition fetchAVMEstimates (db : Prisma.Db) (propertyId : string) : list Estimate :=
  match Prisma.aVMEstimate_findMany db propertyId with
  | Resolved estimates => map toEstimate estimates
  | Rejected _ => []
  end.

(** [getPropertyAnalysis(propertyId)], read at time [now]. *)
Definition getPropertyAnalysis (db : Prisma.Db) (now : Z) (propertyId : string)
  : option PropertyAnalysisResult.t :=
  match Prisma.property_findUnique db propertyId with
  | Resolved None => None
  | Resolved (Some (property, rows)) =>
      let avmEstimates := map toEstimate rows in
      let analysis := calculateAnalysisMetrics avmEstimates in
      Some
        {| PropertyAnalysisResult.propertyId := Prisma.id property;
           PropertyAnalysisResult.address := Prisma.address property;
           PropertyAnalysisResult.city := Prisma.city property;
           PropertyAnalysisResult.state := Prisma.state property;
           PropertyAnalysisResult.zipCode := Prisma.zipCode property;
           PropertyAnalysisResult.avmEstimates := avmEstimates;
           PropertyAnalysisResult.averageEstimate := Analysis.averageEstimate analysis;
           PropertyAnalysisResult.estimateRange := Analysis.estimateRange analysis;
           PropertyAnalysisResult.confidence := Analysis.confidence analysis;
           PropertyAnalysisResult.scrapingResults := ∅;
           PropertyAnalysisResult.analysisTimestamp := now |}
  | Rejected _ => None
  end.

(** *** Fan-out: the scraping tasks of [analyzeProperty] *)

Definition CONCURRENT_SCRAPERS : nat := 2.
Definition RETRY_ATTEMPTS : nat := 2.

(** The names of [SCRAPERS], in the order of the array. *)
Definition SCRAPER_NAMES : list string :=
  ["homes_com"; "zillow"; "movoto"; "redfin"; "realtor_com"]%string.

(** A provider scraper, external to the aggregator: what the [n]-th call of
    [scraper.scrapeAVM(address, city, state, zipCode)] of a run settles to
    on a given database, and the database it leaves.  Every call settles. *)
Definition Scraper : Type := nat -> Prisma.Db -> Settled ScrapingResult * Prisma.Db.

(** What a run does, in the order it happens. *)
Inductive Event : Type :=
| Starting (name : string)
    (* the limiter runs the task: "Starting ${name} scraper..." *)
| Calling (name : string) (attempt : nat)
    (* scraper.scrapeAVM(...) is called with attempts = attempt *)
| Settling (name : string) (attempt : nat) (outcome : Settled ScrapingResult)
    (* the awaited call settles *)
| Delaying (name : string) (ms : Z)
    (* ScrapingUtils.delay(ms) *)
| Recording (name : string)
    (* scrapingResults[name] = result; the task returns *)
| Fetching (propertyId : string)
    (* this.fetchAVMEstimates(propertyId) *)
| Reconciling (estimates : nat)
    (* this.calculateAnalysisMetrics(avmEstimates), on that many estimates *).

(** Where a started task is suspended: at [await scraper.scrapeAVM(...)], or
    at [await ScrapingUtils.delay(...)] with [result] assigned. *)
Inductive Await : Type :=
| AwaitScrape
| AwaitDelay (result : ScrapingResult).

(** The locals of a started task. *)
Record Task := {
  name : string;
  scraper : Scraper;
  attempts : nat;
  await : Await
}.

(** What a task does when it is resumed: run on to its next [await], or
    leave the loop with [result]. *)
Inductive Next : Type :=
| Continue (task : Task) (events : list Event)
| Finish (result : ScrapingResult).

(** [} while (attempts < this.RETRY_ATTEMPTS && !result!.success)], and on
    [true] the next [attempts++] and call. *)
Definition loopTest (task : Task) (result : ScrapingResult) : Next :=
  if (attempts task <? RETRY_ATTEMPTS)%nat && negb (success result)
  then Continue
         {| name := name task; scraper := scraper task;
            attempts := S (attempts task); await := AwaitScrape |}
         [Calling (name task) (S (attempts task))]
  else Finish result.

(** The body of the [try] after the call has settled, and the [catch]. *)
Definition settle (task : Task) (outcome : Settled ScrapingResult) : Next :=
  match outcome with
  | Resolved result =>
      if success result then Finish result
      else if (attempts task <? RETRY_ATTEMPTS)%nat
      then Continue
             {| name := name task; scraper := scraper task;
                attempts := attempts task; await := AwaitDelay result |}
             [Delaying (name task) (2000 * Z.of_nat (attempts task))]
      else loopTest task result
  | Rejected error =>
      loopTest task
        {| success := false; data := None; error := error; duration := Some 0%Z |}
  end.

(** The state of a run between two resumptions. *)
Record Run := {
  queue : list (string * Scraper);
  active : list Task;
  scrapingResults : gmap string ScrapingResult;
  db : Prisma.Db;
  log : list Event
}.

(** The run after the task between [before] and [after] was resumed. *)
Definition resumed (s : Run) (before : list Task) (task : Task) (after : list Task)
    (db' : Prisma.Db) (events : list Event) (next : Next) : Run :=
  match next with
  | Continue task' events' =>
      {| queue := queue s;
         active := before ++ task' :: after;
         scrapingResults := scrapingResults s;
         db := db';
         log := log s ++ events ++ events' |}
  | Finish result =>
      {| queue := queue s;
         active := before ++ after;
         scrapingResults := <[name task := result]> (scrapingResults s);
         db := db';
         log := log s ++ events ++ [Recording (name task)] |}
  end.

(** The limiter starts the oldest queued task on a free slot. *)
Definition started (s : Run) (name : string) (scraper : Scraper)
    (queue' : list (string * Scraper)) : Run :=
  {| queue := queue';
     active := active s ++
       [{| name := name; scraper := scraper; attempts := 1; await := AwaitScrape |}];
     scrapingResults := scrapingResults s;
     db := db s;
     log := log s ++ [Starting name; Calling name 1] |}.

(** Modelled from the spec: [pLimit] (the package p-limit) is not among the
    sources.  Section 4.1: the limiter "accepts a fixed maximum number of
    simultaneously in-flight operations"; an operation "submitted beyond the
    limit queues and is admitted strictly in submission order as slots free
    up".  [step_start] is that limiter with [concurrency] slots; the other
    two steps resume one started task, whichever settles first. *)
Inductive step (concurrency : nat) : Run -> Run -> Prop :=
| step_start s name scraper queue' :
    queue s = (name, scraper) :: queue' ->
    (length (active s) < concurrency)%nat ->
    step concurrency s (started s name scraper queue')
| step_settle s before task after :
    active s = before ++ task :: after ->
    await task = AwaitScrape ->
    let called := scraper task (attempts task) (db s) in
    step concurrency s
      (resumed s before task after called.2
         [Settling (name task) (attempts task) called.1]
         (settle task called.1))
| step_wake s before task after result :
    active s = before ++ task :: after ->
    await task = AwaitDelay result ->
    step concurrency s
      (resumed s before task after (db s) [] (loopTest task result)).

(** The run when [this.SCRAPERS.map(...)] has submitted every task. *)
Definition submitted (SCRAPERS : list (string * Scraper)) (db : Prisma.Db) : Run :=
  {| queue := SCRAPERS; active := []; scrapingResults := ∅; db := db; log := [] |}.

(** [await Promise.allSettled(scrapingTasks)] is over. *)
Definition allSettled (s : Run) : Prop := queue s = [] /\ active s = [].

(** One schedule among those of [step]: start a task whenever a slot is
    free, otherwise resume the oldest started task. *)
Definition resumeOldest (s : Run) : option Run :=
  match active s with
  | [] => None
  | task :: after =>
      match await task with
      | AwaitScrape =>
          let called := scraper task (attempts task) (db s) in
          Some (resumed s [] task after called.2
                  [Settling (name task) (attempts task) called.1]
                  (settle task called.1))
      | AwaitDelay result =>
          Some (resumed s [] task after (db s) [] (loopTest task result))
      end
  end.

Definition next (concurrency : nat) (s : Run) : option Run :=
  match queue s with
  | (name, scraper) :: queue' =>
      if (length (active s) <? concurrency)%nat
      then Some (started s name scraper queue')
      else resumeOldest s
  | [] => resumeOldest s
  end.

Fixpoint drive (concurrency fuel : nat) (s : Run) : Run :=
  match fuel with
  | O => s
  | S fuel' =>
      match next concurrency s with
      | Some s' => drive concurrency fuel' s'
      | None => s
      end
  end.

(** *** After the join: identification, fetch, reconciliation *)

Inductive Completion (A : Type) : Type :=
| Returned (value : A)
| Threw (message : string).
Arguments Returned {A} value.
Arguments Threw {A} message.

(** [result.success && result.data?.property]. *)
Definition identifies (result : ScrapingResult) : bool :=
  success result &&
  match data result with
  | Some d => match ScrapingUtils.property d with Some _ => true | None => false end
  | None => false
  end.

(** The loop over [Object.values(scrapingResults)] with its [break]. *)
Fixpoint firstIdentified (propertyHash : string) (values : list ScrapingResult)
  : option string :=
  match values with
  | [] => None
  | result :: rest =>
      if identifies result then Some propertyHash
      else firstIdentified propertyHash rest
  end.

Definition NoSourceMessage : string :=
  "Failed to identify property from any scraping source".

(** [analyzeProperty] from the join on, returning at time [now]. *)
Definition conclude (MD5 : string -> string) (address city state zipCode : string)
    (now : Z) (s : Run) : Completion PropertyAnalysisResult.t * list Event :=
  let propertyId :=
    firstIdentified
      (ScrapingUtils.generatePropertyHash MD5 address city state zipCode)
      (map snd (map_to_list (scrapingResults s))) in
  match propertyId with
  | None | Some EmptyString => (Threw NoSourceMessage, log s)
  | Some propertyId =>
      let avmEstimates := fetchAVMEstimates (db s) propertyId in
      let analysis := calculateAnalysisMetrics avmEstimates in
      (Returned
         {| PropertyAnalysisResult.propertyId := propertyId;
            PropertyAnalysisResult.address := address;
            PropertyAnalysisResult.city := city;
            PropertyAnalysisResult.state := state;
            PropertyAnalysisResult.zipCode := zipCode;
            PropertyAnalysisResult.avmEstimates := avmEstimates;
            PropertyAnalysisResult.averageEstimate := Analysis.averageEstimate analysis;
            PropertyAnalysisResult.estimateRange := Analysis.estimateRange analysis;
            PropertyAnalysisResult.confidence := Analysis.confidence analysis;
            PropertyAnalysisResult.scrapingResults := scrapingResults s;
            PropertyAnalysisResult.analysisTimestamp := now |},
       log s ++ [Fetching propertyId; Reconciling (length avmEstimates)])
  end.

(** [analyzeProperty(address, city, state, zipCode)] over the scrapers
    [SCRAPERS], on the database [db0]: the state at the join of some
    schedule, and what the call completes with and has done. *)
Definition analyzeProperty (MD5 : string -> string) (SCRAPERS : list (string * Scraper))
    (address city state zipCode : string) (now : Z) (db0 : Prisma.Db)
    (joined : Run) (outcome : Completion PropertyAnalysisResult.t * list Event) : Prop :=
  rtc (step CONCURRENT_SCRAPERS) (submitted SCRAPERS db0) joined /\
  allSettled joined /\
  outcome = conclude MD5 address city state zipCode now joined.

(** *** Scrapers

    The provider scrapers ([lib/avm-scrapers/*]) are not among the sources:
    a scraper is any function of type [Scraper]. *)

(** The result of a call that extracted nothing. *)
Definition failure (error : option string) : ScrapingResult :=
  {| success := false; data := None; error := error; duration := None |}.

(** *** Observations on a log *)

(** The tasks the limiter started, in order. *)
Definition startsOf (log : list Event) : list string :=
  omap (fun e => match e with Starting n => Some n | _ => None end) log.

(** The attempt numbers of the calls of the scraper [n], in order. *)
Definition callsOf (n : string) (log : list Event) : list nat :=
  omap (fun e =>
          match e with
          | Calling m attempt => if decide (m = n) then Some attempt else None
          | _ => None
          end) log.

(** The delays the task [n] waited, in order. *)
Definition delaysOf (n : string) (log : list Event) : list Z :=
  omap (fun e =>
          match e with
          | Delaying m ms => if decide (m = n) then Some ms else None
          | _ => None
          end) log.

(** The attempts of the task [n] that resolved to [success: false] while
    attempts remained, in order. *)
Definition failedEarly (n : string) (log : list Event) : list nat :=
  omap (fun e =>
          match e with
          | Settling m attempt (Resolved result) =>
              if decide (m = n) then
                if negb (success result) && (attempt <? RETRY_ATTEMPTS)%nat
                then Some attempt else None
              else None
          | _ => None
          end) log.

(** Whether the log shows a fetch of stored estimates or a reconciliation. *)
Definition reconciles (log : list Event) : bool :=
  existsb (fun e =>
             match e with
             | Fetching _ | Reconciling _ => true
             | _ => false
             end) log.

(** The provider calls in flight: the started tasks awaiting their scraper. *)
Definition calling (task : Task) : bool :=
  match await task with
  | AwaitScrape => true
  | AwaitDelay _ => false
  end.

Definition inFlight (s : Run) : list Task :=
  List.filter calling (active s).

(** What is left to do: an upper bound on the resumptions to come. *)
Definition taskFuel (task : Task) : nat :=
  match await task with
  | AwaitScrape => 2 * (RETRY_ATTEMPTS - attempts task) + 2
  | AwaitDelay _ => 2 * (RETRY_ATTEMPTS - attempts task) + 1
  end.

Definition fuelOf (s : Run) : nat :=
  length (queue s) * (2 * RETRY_ATTEMPTS + 3) + sum_list_with taskFuel (active s).

(** *** Predicates used to state and prove the properties *)

(** The confidence the loop takes for an estimate. *)
Definition contributed (est : Estimate) : R :=
  match confidence est with
  | Some c => if Js.truthy c then c else getDefaultConfidence (provider est)
  | None => getDefaultConfidence (provider est)
  end.

(** The events of a settlement: none, or one [Settling]. *)
Definition settlement (task : Task) (events : list Event) : Prop :=
  events = [] \/ exists out, events = [Settling (name task) (attempts task) out].

(** How the names, the calls and the recorded results of a run hang
    together. *)
Record Coherent (names : list string) (s : Run) : Prop := {
  coh_nodup : NoDup (map fst (queue s) ++ map name (active s));
  coh_fresh n :
    n ∈ map fst (queue s) ++ map name (active s) -> scrapingResults s !! n = None;
  coh_names n :
    n ∈ names <->
    n ∈ map fst (queue s) ++ map name (active s) \/ is_Some (scrapingResults s !! n);
  coh_queue n : n ∈ map fst (queue s) -> callsOf n (log s) = [];
  coh_active task :
    task ∈ active s ->
    callsOf (name task) (log s) = seq 1 (attempts task) /\
    (1 <= attempts task)%nat /\
    match await task with
    | AwaitScrape => (attempts task <= RETRY_ATTEMPTS)%nat
    | AwaitDelay r => (attempts task < RETRY_ATTEMPTS)%nat /\ success r = false
    end;
  coh_done n r :
    scrapingResults s !! n = Some r ->
    exists k, callsOf n (log s) = seq 1 k /\ (1 <= k <= RETRY_ATTEMPTS)%nat /\
              (success r = false -> k = RETRY_ATTEMPTS)
}.

(** The valuation an outcome carries, if any. *)
Definition valuationOf (r : ScrapingResult) : option ScrapingUtils.AVMData :=
  match data r with
  | Some payload => ScrapingUtils.avm payload
  | None => None
  end.

(** The valuation of the outcome [r], when it carries one, is the one stored
    under [(propertyId, n)]: the row has its estimate and every optional
    field it gives. *)
Definition stored (propertyId n : string) (r : ScrapingResult) (db : Prisma.Db) : Prop :=
  forall avmData,
    valuationOf r = Some avmData ->
    exists row,
      Prisma.aVMEstimate db !! (propertyId, n) = Some row /\
      Prisma.estimate row = ScrapingUtils.estimate avmData /\
      (forall c, ScrapingUtils.confidence avmData = Some c -> Prisma.confidence row = Some c) /\
      (forall l, ScrapingUtils.lowRange avmData = Some l -> Prisma.lowRange row = Some l) /\
      (forall h, ScrapingUtils.highRange avmData = Some h -> Prisma.highRange row = Some h).



(** Every task of the run is one of [SCRAPERS]. *)
Record Listed (SCRAPERS : list (string * Scraper)) (s : Run) : Prop := {
  listed_queue n sc : (n, sc) ∈ queue s -> (n, sc) ∈ SCRAPERS;
  listed_active task : task ∈ active s -> (name task, scraper task) ∈ SCRAPERS
}.


(** *** The statistics of the reconciliation in the words of the spec

    Section 4.4, steps 2 and 6: the arithmetic mean and the population
    standard deviation, to compare the code with. *)

Definition total (values : list R) : R := foldr Rplus 0 values.

Definition arithmeticMean (values : list R) : R := total values / INR (length values).

Definition populationStdDev (values : list R) : R :=
  sqrt (arithmeticMean (map (fun x => (x - arithmeticMean values) ^ 2) values)).

Local Close Scope R_scope.

(** *** Observations on the stored estimates *)

(** Newest first. *)
Definition newestFirst {A} (key : A -> Z) : list A -> Prop :=
  Sorted (fun a b => (key b <= key a)%Z).

(** The rows a working database holds for a property. *)
Definition rowsOf (db : Prisma.Db) (propertyId : string) : list (string * Prisma.EstimateRow) :=
  omap (fun kv : string * string * Prisma.EstimateRow =>
          if decide (kv.1.1 = propertyId) then Some (kv.1.2, kv.2) else None)
       (map_to_list (Prisma.aVMEstimate db)).

(** The estimate that is read back after [saveAVMEstimate] of [avmData] at
    [now], over the row [previous] that was stored for the provider, if
    any. *)
Definition savedEstimate (defaultLastUpdated : Z) (avmData : ScrapingUtils.AVMData)
    (now : Z) (previous : option Prisma.EstimateRow) : Estimate :=
  match previous with
  | Some row =>
      {| provider := ScrapingUtils.provider avmData;
         estimate := ScrapingUtils.estimate avmData;
         confidence :=
           ScrapingUtils.updated (ScrapingUtils.confidence avmData) (Prisma.confidence row);
         lowRange :=
           ScrapingUtils.updated (ScrapingUtils.lowRange avmData) (Prisma.lowRange row);
         highRange :=
           ScrapingUtils.updated (ScrapingUtils.highRange avmData) (Prisma.highRange row);
         lastUpdated := now |}
  | None =>
      {| provider := ScrapingUtils.provider avmData;
         estimate := ScrapingUtils.estimate avmData;
         confidence := ScrapingUtils.confidence avmData;
         lowRange := ScrapingUtils.lowRange avmData;
         highRange := ScrapingUtils.highRange avmData;
         lastUpdated := defaultLastUpdated |}
  end.

(** *** The retry loop read in sequence *)

(** The [do ... while] loop of a task read in sequence, for a scraper whose
    [n]-th call settles to [answers n]: the value of [result] when the loop is
    left.  [attempt] is the value of [attempts] in the iteration and
    [remaining] the number of iterations the test still allows. *)
Fixpoint retryFrom (answers : nat -> Settled ScrapingResult) (attempt remaining : nat)
  : ScrapingResult :=
  let result :=
    match answers attempt with
    | Resolved result => result
    | Rejected error =>
        {| success := false; data := None; error := error; duration := Some 0%Z |}
    end in
  if success result then result
  else
    match remaining with
    | O => result
    | S remaining' => retryFrom answers (S attempt) remaining'
    end.

Definition retryLoop (answers : nat -> Settled ScrapingResult) : ScrapingResult :=
  retryFrom answers 1 (RETRY_ATTEMPTS - 1).

(** A scraper whose answers do not depend on the database; what it does to
    the database may. *)
Definition answering (answers : nat -> Settled ScrapingResult)
    (effect : nat -> Prisma.Db -> Prisma.Db) : Scraper :=
  fun attempt db => (answers attempt, effect attempt db).

(** What a started task will record. *)
Definition predicted (answers : string -> nat -> Settled ScrapingResult) (task : Task)
  : ScrapingResult :=
  match await task with
  | AwaitScrape =>
      retryFrom (answers (name task)) (attempts task) (RETRY_ATTEMPTS - attempts task)
  | AwaitDelay _ =>
      retryFrom (answers (name task)) (S (attempts task)) (RETRY_ATTEMPTS - S (attempts task))
  end.

Record Predictable (answers : string -> nat -> Settled ScrapingResult)
    (effect : string -> nat -> Prisma.Db -> Prisma.Db) (s : Run) : Prop := {
  pre_queue n sc :
    (n, sc) ∈ queue s -> sc = answering (answers n) (effect n);
  pre_active task :
    task ∈ active s ->
    scraper task = answering (answers (name task)) (effect (name task)) /\
    predicted answers task = retryLoop (answers (name task)) /\
    match await task with
    | AwaitScrape => True
    | AwaitDelay r => attempts task < RETRY_ATTEMPTS /\ success r = false
    end;
  pre_done n r :
    scrapingResults s !! n = Some r -> r = retryLoop (answers n)
}.
End AVMAggregator.

(** ** Runs used as examples *)

Module Examples.

Import ScrapingUtils (ScrapingResult, success, data, error, duration).
Import AVMAggregator.

Definition emptyDb : Prisma.Db :=
  {| Prisma.property := ∅; Prisma.aVMEstimate := ∅; Prisma.fault := None |}.

(** A stand-in for the MD5 of [crypto-js]. *)
Definition digestStub (s : string) : string := "0f343b0931126a20f133d67c2b018a3b".

Definition alwaysThrows (message : string) : Scraper :=
  fun _ db => (Rejected (Some message), db).

Definition alwaysFails (message : string) : Scraper :=
  fun _ db =>
    (Resolved {| success := false; data := None; error := Some message; duration := Some 1500%Z |},
     db).

Definition succeedsWithoutProperty : Scraper :=
  fun _ db =>
    (Resolved {| success := true;
                 data := Some {| ScrapingUtils.property := None; ScrapingUtils.avm := None |};
                 error := None; duration := Some 1200%Z |},
     db).

Definition exampleScrapers : list (string * Scraper) :=
  [ ("homes_com", alwaysFails "blocked");
    ("zillow", succeedsWithoutProperty);
    ("movoto", alwaysThrows "timeout");
    ("redfin", alwaysFails "not found");
    ("realtor_com", alwaysThrows "timeout") ]%string.

(** The run of [exampleScrapers] at its join, and after two steps. *)
Definition exampleJoin : Run :=
  drive CONCURRENT_SCRAPERS 40 (submitted exampleScrapers emptyDb).

Definition exampleMidRun : Run :=
  drive CONCURRENT_SCRAPERS 2 (submitted exampleScrapers emptyDb).

(** What a call of an example scraper finds. *)
Inductive Finding : Type :=
| Extracted (property : option ScrapingUtils.PropertyData)
    (estimate : R) (confidence lowRange highRange : option R) (now : Z)
| NotFound (error : option string)
| Crashed (error : Thrown).

(** An example of a scraper, for the provider [name] and the property
    [propertyId]: a call that extracts an estimate saves it with
    [saveAVMEstimate], on a database whose default for [lastUpdated] is the
    time of the call, and then resolves to a successful result that carries
    it; when the save rejects, the call resolves to a failure.  The other
    calls leave the database as it is. *)
Definition storingScraper (propertyId name : string) (finds : nat -> Finding) : Scraper :=
  fun attempt db =>
    match finds attempt with
    | Extracted property estimate confidence lowRange highRange now =>
        let avmData :=
          {| ScrapingUtils.provider := name;
             ScrapingUtils.estimate := estimate;
             ScrapingUtils.confidence := confidence;
             ScrapingUtils.lowRange := lowRange;
             ScrapingUtils.highRange := highRange |} in
        match ScrapingUtils.saveAVMEstimate now propertyId avmData now db with
        | Resolved db' =>
            (Resolved
               {| success := true;
                  data := Some {| ScrapingUtils.property := property;
                                  ScrapingUtils.avm := Some avmData |};
                  error := None;
                  duration := None |},
             db')
        | Rejected error => (Resolved (failure error), db)
        end
    | NotFound error => (Resolved (failure error), db)
    | Crashed error => (Rejected error, db)
    end.



(** What the scrapers of [exampleSpecRun] find: Zillow extracts an estimate at
    its first call, Redfin at its second, the others nothing. *)
Definition exampleFinds (n : string) (attempt : nat) : Finding :=
  if decide (n = "zillow"%string) then
    Extracted
      (Some {| ScrapingUtils.address := "1 Main St"; ScrapingUtils.city := "Austin";
               ScrapingUtils.state := "TX"; ScrapingUtils.zipCode := "78701" |})
      300000%R (Some 80%R) None None 1000
  else if decide (n = "redfin"%string) then
    match attempt with
    | 1 => NotFound (Some "blocked")
    | _ => Extracted None 310000%R None (Some 290000%R) (Some 330000%R) 5000
    end
  else if decide (n = "movoto"%string) then Crashed (Some "timeout")
  else NotFound (Some "not found").

Definition exampleSpecRun : Run :=
  let propertyId :=
    ScrapingUtils.generatePropertyHash digestStub "1 Main St" "Austin" "TX" "78701" in
  drive CONCURRENT_SCRAPERS 40
    (submitted (map (fun n => (n, storingScraper propertyId n (exampleFinds n))) SCRAPER_NAMES)
       emptyDb).


(** Three estimates of one property, newest first; Movoto's is no valid
    price. *)
Definition exampleEstimates : list Estimate :=
  [ {| provider := "zillow"; estimate := 300000%R; confidence := Some 80%R;
       lowRange := None; highRange := None; lastUpdated := 3000 |};
    {| provider := "redfin"; estimate := 310000%R; confidence := None;
       lowRange := Some 290000%R; highRange := Some 330000%R; lastUpdated := 2000 |};
    {| provider := "movoto"; estimate := 0%R; confidence := Some 90%R;
       lowRange := None; highRange := None; lastUpdated := 1000 |} ].

(** Three estimates that agree on a whole amount; Redfin's has no recorded
    confidence. *)
Definition exampleAgreeing : list Estimate :=
  [ {| provider := "zillow"; estimate := 450000%R; confidence := Some 80%R;
       lowRange := None; highRange := None; lastUpdated := 3000 |};
    {| provider := "redfin"; estimate := 450000%R; confidence := None;
       lowRange := None; highRange := None; lastUpdated := 2000 |};
    {| provider := "movoto"; estimate := 450000%R; confidence := Some 81%R;
       lowRange := None; highRange := None; lastUpdated := 1000 |} ].

(** Two valuations of Redfin as a scraper hands them to [saveAVMEstimate]. *)
Definition exampleAvm : ScrapingUtils.AVMData :=
  {| ScrapingUtils.provider := "redfin"; ScrapingUtils.estimate := 310000%R;
     ScrapingUtils.confidence := None; ScrapingUtils.lowRange := Some 290000%R;
     ScrapingUtils.highRange := Some 330000%R |}.


(** A database whose queries reject. *)
Definition brokenDb : Prisma.Db :=
  {| Prisma.property := ∅; Prisma.aVMEstimate := ∅;
     Prisma.fault := Some "connection lost"%string |}.

Definition succeedsWithProperty : Scraper :=
  fun _ db =>
    (Resolved {| success := true;
                 data := Some {| ScrapingUtils.property :=
                                   Some {| ScrapingUtils.address := "1 Main St";
                                           ScrapingUtils.city := "Austin";
                                           ScrapingUtils.state := "TX";
                                           ScrapingUtils.zipCode := "78701" |};
                                 ScrapingUtils.avm := None |};
                 error := None; duration := Some 900%Z |},
     db).

(** Zillow identifies the property while the database is down: the run at
    its join. *)
Definition exampleBrokenJoin : Run :=
  drive CONCURRENT_SCRAPERS 10
    (submitted [("zillow"%string, succeedsWithProperty)] brokenDb).

(** A database that holds the property of the examples, and the run of
    [exampleFinds] on it at its join. *)
Definition exampleKnownDb : Prisma.Db :=
  let propertyId :=
    ScrapingUtils.generatePropertyHash digestStub "1 Main St" "Austin" "TX" "78701" in
  {| Prisma.property :=
       {[ propertyId := {| Prisma.id := propertyId; Prisma.address := "1 Main St";
                           Prisma.city := "Austin"; Prisma.state := "TX";
                           Prisma.zipCode := "78701" |} ]};
     Prisma.aVMEstimate := ∅;
     Prisma.fault := None |}.

Definition exampleKnownRun : Run :=
  let propertyId :=
    ScrapingUtils.generatePropertyHash digestStub "1 Main St" "Austin" "TX" "78701" in
  drive CONCURRENT_SCRAPERS 40
    (submitted (map (fun n => (n, storingScraper propertyId n (exampleFinds n))) SCRAPER_NAMES)
       exampleKnownDb).

(** Answers that do not depend on the database: Zillow succeeds, Movoto
    throws, Redfin succeeds at its second call, the others fail. *)
Definition exampleAnswers (n : string) (attempt : nat) : Settled ScrapingResult :=
  let found :=
    {| success := true;
       data := Some {| ScrapingUtils.property := None; ScrapingUtils.avm := None |};
       error := None; duration := Some 1200%Z |} in
  if decide (n = "zillow"%string) then Resolved found
  else if decide (n = "movoto"%string) then Rejected (Some "timeout"%string)
  else if decide (n = "redfin"%string) then
    match attempt with
    | 1 => Resolved (failure (Some "blocked"%string))
    | _ => Resolved found
    end
  else Resolved (failure (Some "not found"%string)).

Definition exampleAnsweringRun : Run :=
  drive CONCURRENT_SCRAPERS 40
    (submitted (map (fun n => (n, answering (exampleAnswers n) (fun _ db => db))) SCRAPER_NAMES)
       emptyDb).

(** Twelve calls of one provider within one window of the rate limiter. *)
Definition exampleTimes : list Z :=
  map (fun i => (1700000040000 + 1000 * Z.of_nat i)%Z) (seq 0 12).
End Examples.

(** * Properties *)

Import ScrapingUtils (ScrapingResult, success, data, error, duration).
Import AVMAggregator.
Import Examples.

(** ** Reconciliation *)

Section Reconciliation.

Local Open Scope R_scope.

(** *** Numbers *)

Lemma ltb_true x y : Js.ltb x y = true <-> x < y.
Proof. unfold Js.ltb. destruct (Rlt_dec x y); split; auto; discriminate. Qed.

Lemma truthy_true x : Js.truthy x = true <-> x <> 0.
Proof. unfold Js.truthy. destruct (Req_dec_T x 0); split; try done. Qed.

Lemma truthy_false x : Js.truthy x = false <-> x = 0.
Proof. unfold Js.truthy. destruct (Req_dec_T x 0); split; try done. Qed.

Lemma isValidPrice_spec p : ScrapingUtils.isValidPrice (Some p) = true <-> 0 < p < 50000000.
Proof. simpl. rewrite andb_true_iff, !ltb_true. tauto. Qed.

(** [Math.round] answers the integer within a half. *)
Lemma Math_round_near (z : Z) x : IZR z - /2 <= x < IZR z + /2 -> Js.Math_round x = IZR z.
Proof. intros H. unfold Js.Math_round. f_equal. apply Zfloor_eq. lra. Qed.

(** The [reduce] that sums, unfolded from the left. *)
Lemma sum_from a l : fold_left Rplus l a = a + Js.sum l.
Proof.
  unfold Js.sum. revert a. induction l as [|x l IH]; intros a; simpl.
  - lra.
  - rewrite (IH (a + x)), (IH (0 + x)). lra.
Qed.

Lemma sum_cons x l : Js.sum (x :: l) = x + Js.sum l.
Proof. unfold Js.sum at 1. simpl. rewrite sum_from. lra. Qed.

Lemma sum_nil : Js.sum [] = 0.
Proof. reflexivity. Qed.

Create Rewrite HintDb sums.
#[local] Hint Rewrite sum_cons sum_nil : sums.

Lemma sum_nonneg l : Forall (fun x => 0 <= x) l -> 0 <= Js.sum l.
Proof.
  induction 1 as [|x l Hx _ IH]; [rewrite sum_nil; lra|rewrite sum_cons; lra].
Qed.

Lemma sum_pos l : l <> [] -> Forall (fun x => 0 < x) l -> 0 < Js.sum l.
Proof.
  intros Hne H. destruct H as [|x l Hx Hl]; [done|].
  rewrite sum_cons. assert (0 <= Js.sum l); [|lra].
  apply sum_nonneg. eapply Forall_impl; [exact Hl|]. simpl; intros; lra.
Qed.

(** *** Valid estimates, their mean and their deviation *)

Lemma calculateStandardDeviation_nonneg values : 0 <= calculateStandardDeviation values.
Proof.
  unfold calculateStandardDeviation. destruct (length values <=? 1)%nat; [lra|].
  apply sqrt_pos.
Qed.

Lemma validOf_elem est estimates :
  est ∈ validOf estimates <-> est ∈ estimates /\ 0 < estimate est < 50000000.
Proof. unfold validOf. rewrite list_elem_of_filter, isValidPrice_spec. tauto. Qed.

Lemma validOf_idemp estimates : validOf (validOf estimates) = validOf estimates.
Proof. unfold validOf. apply list_filter_filter_l. auto. Qed.

Lemma validOf_all estimates :
  Forall (fun est => 0 < estimate est < 50000000) estimates -> validOf estimates = estimates.
Proof.
  intros H. unfold validOf. induction H as [|e l He _ IH]; [done|].
  rewrite filter_cons_True; [by rewrite IH|]. by apply isValidPrice_spec.
Qed.

Lemma validOf_none estimates :
  Forall (fun est => ~ (0 < estimate est < 50000000)) estimates -> validOf estimates = [].
Proof.
  intros H. unfold validOf. induction H as [|e l He _ IH]; [done|].
  rewrite filter_cons_False; [done|]. by rewrite isValidPrice_spec.
Qed.

Lemma rawAverage_pos validEstimates :
  validEstimates <> [] ->
  Forall (fun est => 0 < estimate est < 50000000) validEstimates ->
  0 < rawAverage validEstimates.
Proof.
  intros Hne H. unfold rawAverage. apply Rdiv_lt_0_compat.
  - apply sum_pos; [by destruct validEstimates|].
    apply Forall_fmap. eapply Forall_impl; [exact H|]. simpl; intros; lra.
  - apply lt_0_INR. destruct validEstimates; [done|simpl; lia].
Qed.

(** *** The confidence loop *)

Lemma confidenceStep_contributed acc est :
  confidenceStep acc est =
  {| confidenceByProvider := <[provider est := contributed est]> (confidenceByProvider acc);
     totalConfidence := totalConfidence acc + contributed est;
     confidenceCount := S (confidenceCount acc) |}.
Proof.
  unfold confidenceStep, contributed. destruct (confidence est) as [c|]; simpl; [|done].
  by destruct (Js.truthy c).
Qed.

Lemma confidenceLoop_from acc l :
  let acc' := fold_left confidenceStep l acc in
  totalConfidence acc' = totalConfidence acc + Js.sum (map contributed l) /\
  confidenceCount acc' = (confidenceCount acc + length l)%nat /\
  confidenceByProvider acc' =
    fold_left (fun m est => <[provider est := contributed est]> m) l (confidenceByProvider acc).
Proof.
  revert acc. induction l as [|e l IH]; intros acc; simpl.
  - rewrite sum_nil. repeat split; [lra|lia].
  - destruct (IH (confidenceStep acc e)) as (Ht & Hc & Hm).
    rewrite Ht, Hc, Hm, confidenceStep_contributed; simpl. rewrite sum_cons.
    repeat split; [lra|lia].
Qed.

Lemma getDefaultConfidence_unlisted provider :
  defaultConfidences !! provider = None -> getDefaultConfidence provider = 65.
Proof. unfold getDefaultConfidence. by intros ->. Qed.

(** C5.  Reconciliation computes its statistics over the valid estimates
    only, those with [0 < estimate < 50000000]: the estimates it keeps are
    exactly these, and the result on a list is the result on its valid
    estimates.  On a list without a valid estimate, the empty list included,
    the result is exactly the degenerate one: average [0], range [{0, 0}],
    confidence [{overall: 0, byProvider: {}}]. *)
Theorem calculateAnalysisMetrics_valid_only (estimates : list Estimate) :
  (forall est, est ∈ validOf estimates <-> est ∈ estimates /\ 0 < estimate est < 50000000) /\
  calculateAnalysisMetrics estimates = calculateAnalysisMetrics (validOf estimates) /\
  (Forall (fun est => ~ (0 < estimate est < 50000000)) estimates ->
   calculateAnalysisMetrics estimates =
     {| Analysis.averageEstimate := 0;
        Analysis.estimateRange := {| min := 0; max := 0 |};
        Analysis.confidence := {| overall := 0; byProvider := ∅ |} |}).
Proof.
  split; [intros est; apply validOf_elem|]. split.
  - unfold calculateAnalysisMetrics. rewrite validOf_idemp.
    destruct estimates as [|e l]; [done|].
    change (length (e :: l) =? 0)%nat with false; cbv iota.
    by destruct (length (validOf (e :: l)) =? 0)%nat.
  - intros H. unfold calculateAnalysisMetrics. rewrite (validOf_none _ H).
    by destruct (length estimates =? 0)%nat.
Qed.

Lemma calculateAnalysisMetrics_valid_only_witness :
  let estimates :=
    [ {| provider := "zillow"; estimate := 0; confidence := Some 80;
         lowRange := None; highRange := None; lastUpdated := 0 |};
      {| provider := "redfin"; estimate := 60000000; confidence := None;
         lowRange := None; highRange := None; lastUpdated := 0 |} ] in
  Forall (fun est => ~ (0 < estimate est < 50000000)) estimates /\
  calculateAnalysisMetrics estimates = degenerate.
Proof.
  intros estimates.
  assert (H : Forall (fun est => ~ (0 < estimate est < 50000000)) estimates).
  { repeat constructor; simpl; lra. }
  split; [exact H|].
  exact (proj2 (proj2 (calculateAnalysisMetrics_valid_only estimates)) H).
Defined.

(** A square root lies between two bounds when its argument lies between
    their squares. *)
Lemma sqrt_between lo hi x : 0 <= lo -> 0 <= hi -> lo * lo < x < hi * hi -> lo < sqrt x < hi.
Proof.
  intros Hlo Hhi [H1 H2].
  assert (Hl := sqrt_square lo Hlo). assert (Hh := sqrt_square hi Hhi).
  assert (0 <= lo * lo) by nra.
  assert (sqrt (lo * lo) < sqrt x) by (apply sqrt_lt_1_alt; lra).
  assert (sqrt x < sqrt (hi * hi)) by (apply sqrt_lt_1_alt; lra).
  lra.
Qed.

Lemma truthy_nonzero x : x <> 0 -> Js.truthy x = true.
Proof. by intros; apply truthy_true. Qed.

(** C2.  On the valid estimates [300000, 310000, 290000] with the recorded
    confidences [80, 85, 70], whatever their providers, ranges and dates,
    [calculateAnalysisMetrics] returns the average [300000], the range
    [{min: 290000, max: 310000}] and the overall confidence [76], which is
    the rounding of the mean confidence [(80 + 85 + 70) / 3] times
    [max(0.5, 1 - populationStdDev / 300000)], where the population standard
    deviation lies between 8164.96 and 8164.97. *)
Theorem calculateAnalysisMetrics_example (p1 p2 p3 : string) (l1 l2 l3 h1 h2 h3 : option R) (t1 t2 t3 : Z) :
  let estimates :=
    [ {| provider := p1; estimate := 300000; confidence := Some 80;
         lowRange := l1; highRange := h1; lastUpdated := t1 |};
      {| provider := p2; estimate := 310000; confidence := Some 85;
         lowRange := l2; highRange := h2; lastUpdated := t2 |};
      {| provider := p3; estimate := 290000; confidence := Some 70;
         lowRange := l3; highRange := h3; lastUpdated := t3 |} ] in
  let analysis := calculateAnalysisMetrics estimates in
  let populationStdDev := calculateStandardDeviation [300000; 310000; 290000] in
  validOf estimates = estimates /\
  Analysis.averageEstimate analysis = 300000 /\
  Analysis.estimateRange analysis = {| min := 290000; max := 310000 |} /\
  overall (Analysis.confidence analysis) = 76 /\
  overall (Analysis.confidence analysis) =
    Js.Math_round ((80 + 85 + 70) / 3 * Rmax (5 / 10) (1 - populationStdDev / 300000)) /\
  816496 / 100 < populationStdDev < 816497 / 100.
Proof.
  intros estimates analysis sd.
  assert (Hv : validOf estimates = estimates).
  { apply validOf_all. repeat constructor; simpl; lra. }
  assert (Hsd : 816496 / 100 < sd < 816497 / 100).
  { unfold sd, calculateStandardDeviation. cbn [length Nat.leb map].
    autorewrite with sums. cbn [INR]. apply sqrt_between; lra. }
  assert (Havg : rawAverage estimates = 300000).
  { unfold rawAverage, estimates. cbn [map length estimate]. autorewrite with sums.
    cbn [INR]. lra. }
  assert (Hov : overallConfidence estimates = (80 + 85 + 70) / 3).
  { unfold overallConfidence, confidenceLoop.
    destruct (confidenceLoop_from {| confidenceByProvider := ∅; totalConfidence := 0; confidenceCount := 0 |} estimates) as (Ht & Hc & _).
    rewrite Ht, Hc. cbn [confidenceCount totalConfidence length estimates Nat.add Nat.ltb Nat.leb map].
    unfold contributed; cbn [confidence].
    rewrite !truthy_nonzero by lra. autorewrite with sums. cbn [INR]. lra. }
  assert (Hcm : consistencyMultiplier estimates = Rmax (5 / 10) (1 - sd / 300000)).
  { unfold consistencyMultiplier. rewrite Havg. reflexivity. }
  assert (Hoverall : overall (Analysis.confidence analysis)
                     = Js.Math_round ((80 + 85 + 70) / 3 * Rmax (5 / 10) (1 - sd / 300000))).
  { unfold analysis, calculateAnalysisMetrics. rewrite Hv.
    cbn [length Nat.eqb estimates Analysis.confidence overall].
    fold estimates. by rewrite Hov, Hcm. }
  split; [exact Hv|]. split.
  { unfold analysis, calculateAnalysisMetrics. rewrite Hv.
    cbn [length Nat.eqb estimates Analysis.averageEstimate]. fold estimates. rewrite Havg.
    apply (Math_round_near 300000). lra. }
  split.
  { unfold analysis, calculateAnalysisMetrics. rewrite Hv.
    cbn [length Nat.eqb estimates Analysis.estimateRange map estimate
         Js.Math_min_spread Js.Math_max_spread fold_left].
    f_equal.
    - unfold Rmin. repeat (destruct (Rle_dec _ _); try lra).
    - unfold Rmax. repeat (destruct (Rle_dec _ _); try lra). }
  split; [|split; [exact Hoverall|exact Hsd]].
  rewrite Hoverall. apply (Math_round_near 76).
  rewrite Rmax_right by lra. lra.
Qed.

(** The code's sum, mean and deviation are those of the spec. *)
Lemma sum_total values : Js.sum values = total values.
Proof.
  induction values as [|x l IH]; [reflexivity|]. rewrite sum_cons, IH. reflexivity.
Qed.

Lemma rawAverage_mean validEstimates :
  rawAverage validEstimates = arithmeticMean (map estimate validEstimates).
Proof. unfold rawAverage, arithmeticMean. by rewrite sum_total, length_map. Qed.

Lemma total_nonneg values : Forall (fun x => 0 <= x) values -> 0 <= total values.
Proof. induction 1 as [|x l Hx _ IH]; simpl; lra. Qed.

(** The squared distances to [a] sum to [sum x^2 - 2 a sum x + n a^2]. *)
Lemma total_squares a values :
  total (map (fun x => (x - a) ^ 2) values) =
  total (map (fun x => x ^ 2) values) - 2 * a * total values + INR (length values) * a ^ 2.
Proof.
  induction values as [|x l IH]; [simpl; lra|].
  cbn [map total foldr]. fold (total (map (fun x => (x - a) ^ 2) l)).
  fold (total (map (fun x => x ^ 2) l)). fold (total l).
  rewrite IH. change (length (x :: l)) with (S (length l)). rewrite S_INR. ring.
Qed.

Lemma variance_nonneg values :
  0 <= arithmeticMean (map (fun x => (x - arithmeticMean values) ^ 2) values).
Proof.
  unfold arithmeticMean at 1. unfold Rdiv. apply Rmult_le_pos.
  - apply total_nonneg, Forall_fmap, Forall_forall. intros x _. simpl. apply pow2_ge_0.
  - destruct (map _ values) as [|y l]; [simpl; rewrite Rinv_0; lra|].
    left. apply Rinv_0_lt_compat, lt_0_INR. simpl. lia.
Qed.

(** The population variance is the mean of the squares less the square of
    the mean. *)
Lemma populationStdDev_square values :
  values <> [] ->
  populationStdDev values ^ 2 =
  arithmeticMean (map (fun x => x ^ 2) values) - arithmeticMean values ^ 2.
Proof.
  intros Hne. unfold populationStdDev.
  rewrite <- Rsqr_pow2, Rsqr_sqrt by apply variance_nonneg.
  unfold arithmeticMean at 1. rewrite total_squares, !length_map.
  assert (Hn : 0 < INR (length values)).
  { apply lt_0_INR. destruct values; [done|simpl; lia]. }
  unfold arithmeticMean. rewrite length_map. field. lra.
Qed.

Lemma calculateStandardDeviation_population values :
  values <> [] -> calculateStandardDeviation values = populationStdDev values.
Proof.
  intros Hne. unfold calculateStandardDeviation.
  destruct values as [|x [|y l]]; [done| |].
  - cbn [length Nat.leb]. unfold populationStdDev, arithmeticMean.
    transitivity (sqrt 0); [by rewrite sqrt_0|]. f_equal. simpl. field.
  - cbn [length Nat.leb]. cbv zeta. unfold populationStdDev, arithmeticMean.
    by rewrite !sum_total, length_map.
Qed.

(** C8.  Whenever at least one estimate is valid, the consistency multiplier
    is [max(0.5, 1 - stdDev / mean)], where [mean] is the arithmetic mean of
    the valid estimates and [stdDev] their population standard deviation, as
    the spec defines them: the code's average and deviation are these, the
    mean is positive and the square of the deviation is the mean of the
    squares less the square of the mean.  The multiplier lies in the closed
    interval from [0.5] to [1], and when the valid estimates are [100000]
    and [900000] it is exactly [0.5]. *)
Theorem consistencyMultiplier_bounds (estimates : list Estimate) :
  validOf estimates <> [] ->
  let validEstimates := validOf estimates in
  let values := map estimate validEstimates in
  let mean := arithmeticMean values in
  let stdDev := populationStdDev values in
  (rawAverage validEstimates = mean /\ calculateStandardDeviation values = stdDev) /\
  (0 < mean /\ 0 <= stdDev /\
   stdDev ^ 2 = arithmeticMean (map (fun x => x ^ 2) values) - mean ^ 2) /\
  consistencyMultiplier validEstimates = Rmax (1 / 2) (1 - stdDev / mean) /\
  1 / 2 <= consistencyMultiplier validEstimates <= 1 /\
  (values = [100000; 900000] -> consistencyMultiplier validEstimates = 1 / 2).
Proof.
  intros Hne validEstimates values mean stdDev.
  assert (Hvalid : Forall (fun est => 0 < estimate est < 50000000) validEstimates).
  { apply Forall_forall. intros est Hin. by apply validOf_elem in Hin as [_ ?]. }
  change (validEstimates <> []) in Hne.
  assert (Hvalues : values <> []) by (unfold values; by destruct validEstimates).
  assert (Hmean : rawAverage validEstimates = mean) by apply rawAverage_mean.
  assert (Hdev : calculateStandardDeviation values = stdDev)
    by by apply calculateStandardDeviation_population.
  assert (Hpos : 0 < mean) by (rewrite <- Hmean; by apply rawAverage_pos).
  assert (Hnonneg : 0 <= stdDev) by apply sqrt_pos.
  assert (Hformula : consistencyMultiplier validEstimates = Rmax (1 / 2) (1 - stdDev / mean)).
  { unfold consistencyMultiplier, Js.Math_max. fold values. rewrite Hmean, Hdev.
    f_equal. lra. }
  assert (Hratio : 0 <= stdDev / mean).
  { unfold Rdiv. apply Rmult_le_pos; [lra|]. left. by apply Rinv_0_lt_compat. }
  split; [done|]. split; [split; [done|split; [done|by apply populationStdDev_square]]|].
  split; [done|]. split.
  - rewrite Hformula. split; [apply Rmax_l|]. apply Rmax_lub; lra.
  - intros Hpair. rewrite Hformula. unfold stdDev, mean. rewrite Hpair.
    assert (Hm : arithmeticMean [100000; 900000] = 500000)
      by (unfold arithmeticMean; simpl; lra).
    assert (Hs : populationStdDev [100000; 900000] = 400000).
    { unfold populationStdDev. rewrite Hm. unfold arithmeticMean. simpl.
      match goal with |- sqrt ?v = _ => replace v with (400000 * 400000) by lra end.
      apply sqrt_square. lra. }
    rewrite Hm, Hs. apply Rmax_left. lra.
Qed.

Lemma consistencyMultiplier_bounds_witness :
  let estimates :=
    [ {| provider := "zillow"; estimate := 100000; confidence := None;
         lowRange := None; highRange := None; lastUpdated := 0 |};
      {| provider := "redfin"; estimate := 900000; confidence := None;
         lowRange := None; highRange := None; lastUpdated := 0 |} ] in
  validOf estimates <> [] /\
  1 / 2 <= consistencyMultiplier (validOf estimates) <= 1 /\
  consistencyMultiplier (validOf estimates) = 1 / 2.
Proof.
  intros estimates.
  assert (Hv : validOf estimates = estimates).
  { apply validOf_all. repeat constructor; simpl; lra. }
  assert (Hne : validOf estimates <> []) by (rewrite Hv; discriminate).
  destruct (consistencyMultiplier_bounds estimates Hne) as (_ & _ & _ & Hb & Hp).
  split; [exact Hne|]. split; [exact Hb|]. apply Hp. by rewrite Hv.
Defined.

(** What the confidence loop computes: every valid estimate contributes one
    value, its own recorded confidence when that is a non-zero number and
    the default of its provider otherwise. *)
Lemma confidenceLoop_contributions validEstimates :
  totalConfidence (confidenceLoop validEstimates) = Js.sum (map contributed validEstimates) /\
  confidenceCount (confidenceLoop validEstimates) = length validEstimates /\
  (forall est, confidence est = None -> defaultConfidences !! provider est = None ->
               contributed est = 65) /\
  (forall est c, confidence est = Some c -> c <> 0 -> contributed est = c) /\
  (forall est, confidence est = Some 0 -> contributed est = getDefaultConfidence (provider est)).
Proof.
  destruct (confidenceLoop_from
              {| confidenceByProvider := ∅; totalConfidence := 0; confidenceCount := 0 |}
              validEstimates) as (Ht & Hc & _).
  unfold confidenceLoop. rewrite Ht, Hc. simpl.
  split; [lra|]. split; [done|]. unfold contributed. split; [|split].
  - intros est -> Hp. by apply getDefaultConfidence_unlisted.
  - intros est c -> Hc0. by rewrite truthy_nonzero.
  - intros est ->. replace (Js.truthy 0) with false; [done|].
    symmetry. by apply truthy_false.
Qed.

(** C6, at the input where the code departs from it.  A valid Zillow estimate
    with the recorded confidence [0]: the value that enters [byProvider] and
    the overall confidence is not the recorded [0] but the default [80] of
    the provider, because the loop tests [if (est.confidence)]. *)
Theorem recorded_zero_confidence_is_replaced :
  let est := {| provider := "zillow"; estimate := 300000; confidence := Some 0;
                lowRange := None; highRange := None; lastUpdated := 0 |} in
  let analysis := calculateAnalysisMetrics [est] in
  validOf [est] = [est] /\
  byProvider (Analysis.confidence analysis) !! "zillow"%string = Some 80 /\
  overall (Analysis.confidence analysis) = 80.
Proof.
  intros est analysis.
  assert (Hv : validOf [est] = [est]).
  { apply validOf_all. repeat constructor; simpl; lra. }
  assert (Hd : getDefaultConfidence "zillow" = 80).
  { unfold getDefaultConfidence.
    replace (defaultConfidences !! "zillow"%string) with (Some 80) by reflexivity.
    by rewrite truthy_nonzero by lra. }
  assert (Hstep : confidenceLoop [est] =
                  {| confidenceByProvider := {[ "zillow"%string := 80 ]};
                     totalConfidence := 0 + 80; confidenceCount := 1 |}).
  { unfold confidenceLoop. cbn [fold_left]. rewrite confidenceStep_contributed.
    unfold contributed. cbn [confidence est provider].
    replace (Js.truthy 0) with false by (symmetry; by apply truthy_false).
    rewrite Hd. reflexivity. }
  unfold analysis, calculateAnalysisMetrics. rewrite Hv.
  cbn [length Nat.eqb Analysis.confidence overall byProvider].
  split; [done|]. rewrite Hstep. cbn [confidenceByProvider]. split.
  { apply lookup_singleton_eq. }
  unfold overallConfidence. rewrite Hstep. cbn [confidenceCount totalConfidence Nat.ltb Nat.leb INR].
  unfold consistencyMultiplier, calculateStandardDeviation, rawAverage, Js.Math_max.
  cbn [map length Nat.leb estimate est INR]. autorewrite with sums.
  apply (Math_round_near 80). rewrite Rmax_right by lra. lra.
Qed.

End Reconciliation.

(** ** The fan-out *)

(** The shapes of a resumption. *)
Lemma loopTest_cases task result :
  (loopTest task result = Finish result /\
   (RETRY_ATTEMPTS <= attempts task \/ success result = true)) \/
  (loopTest task result =
     Continue {| name := name task; scraper := scraper task;
                 attempts := S (attempts task); await := AwaitScrape |}
              [Calling (name task) (S (attempts task))] /\
   attempts task < RETRY_ATTEMPTS /\ success result = false).
Proof.
  unfold loopTest. destruct (Nat.ltb_spec (attempts task) RETRY_ATTEMPTS) as [Hlt|Hge];
    destruct (success result); simpl; eauto with lia.
Qed.

(** A step starts the head of the queue or resumes a started task. *)
Lemma step_inv concurrency s s' :
  step concurrency s s' ->
  (exists n sc queue',
      queue s = (n, sc) :: queue' /\ length (active s) < concurrency /\
      s' = started s n sc queue') \/
  (exists before task after db' events nx,
      active s = before ++ task :: after /\
      s' = resumed s before task after db' events nx /\
      ((await task = AwaitScrape /\
        db' = (scraper task (attempts task) (db s)).2 /\
        events = [Settling (name task) (attempts task) (scraper task (attempts task) (db s)).1] /\
        nx = settle task (scraper task (attempts task) (db s)).1) \/
       (exists result, await task = AwaitDelay result /\ db' = db s /\ events = [] /\
                       nx = loopTest task result))).
Proof.
  destruct 1 as [s n sc q' Hq Hlen | s before task after Hact Haw | s before task after result Hact Haw].
  - left. eauto 10.
  - right. exists before, task, after. do 3 eexists. split; [done|]. split; [reflexivity|].
    left. eauto.
  - right. exists before, task, after. do 3 eexists. split; [done|]. split; [reflexivity|].
    right. eauto.
Qed.

(** Case analysis on a step: the task it starts, or the task it resumes with
    what that task does next. *)
Ltac step_inversion Hstep :=
  destruct (step_inv _ _ _ Hstep)
    as [(n & sc & q' & Hq & Hlen & ->)
       |(before & task & after & db' & events & nx & Hact & -> & Hk)].

(** Invariants are proved along a run, from its last step. *)
Lemma run_invariant concurrency (P : Run -> Prop) s0 :
  P s0 ->
  (forall s s', P s -> step concurrency s s' -> P s') ->
  forall s, rtc (step concurrency) s0 s -> P s.
Proof.
  intros H0 Hstep s Hrun. revert s Hrun.
  apply (rtc_ind_r (fun s => P s)); eauto.
Qed.

(** *** Slots and the order of starts *)

Lemma resumed_active_length s before task after db' events nx :
  length (active (resumed s before task after db' events nx)) <= length (before ++ task :: after).
Proof. destruct nx; simpl; rewrite !length_app; simpl; lia. Qed.

Lemma active_bounded concurrency SCRAPERS db0 s :
  rtc (step concurrency) (submitted SCRAPERS db0) s ->
  length (active s) <= concurrency.
Proof.
  apply (run_invariant concurrency (fun s => length (active s) <= concurrency)); [simpl; lia|].
  clear s. intros s s' IH Hstep.
  step_inversion Hstep.
  - simpl. rewrite length_app. simpl. lia.
  - etrans; [apply resumed_active_length|]. by rewrite <- Hact.
Qed.

Lemma inFlight_le_active s : length (inFlight s) <= length (active s).
Proof. unfold inFlight. apply List.filter_length_le. Qed.

Lemma startsOf_app l l' : startsOf (l ++ l') = startsOf l ++ startsOf l'.
Proof. unfold startsOf. apply omap_app. Qed.

Lemma callsOf_app n l l' : callsOf n (l ++ l') = callsOf n l ++ callsOf n l'.
Proof. unfold callsOf. apply omap_app. Qed.

Lemma delaysOf_app n l l' : delaysOf n (l ++ l') = delaysOf n l ++ delaysOf n l'.
Proof. unfold delaysOf. apply omap_app. Qed.

Lemma resumed_starts s before task after db' events nx :
  startsOf events = [] ->
  (nx = settle task (scraper task (attempts task) (db s)).1 \/ exists r, nx = loopTest task r) ->
  startsOf (log (resumed s before task after db' events nx)) = startsOf (log s) /\
  queue (resumed s before task after db' events nx) = queue s.
Proof.
  intros Hev Hnx.
  assert (Hshape : match nx with Continue _ evs => startsOf evs = [] | Finish _ => True end).
  { destruct Hnx as [->|[r ->]].
    - unfold settle. destruct (_ .1) as [result|e].
      + destruct (success result); [done|]. destruct (_ <? _); [done|].
        unfold loopTest. by destruct (_ && _).
      + unfold loopTest. by destruct (_ && _).
    - unfold loopTest. by destruct (_ && _). }
  destruct nx; simpl; rewrite !startsOf_app, Hev; simpl.
  - by rewrite Hshape, app_nil_r.
  - by rewrite app_nil_r.
Qed.

Lemma starts_in_order concurrency SCRAPERS db0 s :
  rtc (step concurrency) (submitted SCRAPERS db0) s ->
  startsOf (log s) ++ map fst (queue s) = map fst SCRAPERS.
Proof.
  apply (run_invariant concurrency
           (fun s => startsOf (log s) ++ map fst (queue s) = map fst SCRAPERS)); [done|].
  clear s. intros s s' IH Hstep.
  step_inversion Hstep.
  - simpl. rewrite startsOf_app. simpl. rewrite Hq in IH. simpl in IH.
    by rewrite <- app_assoc.
  - destruct (resumed_starts s before task after db' events nx) as [-> ->]; [| |done].
    + by destruct Hk as [(_ & _ & -> & _)|(r & _ & _ & -> & _)].
    + destruct Hk as [(_ & _ & _ & ->)|(r & _ & _ & _ & ->)]; eauto.
Qed.

(** The five ways an attempt ends. *)
Lemma settle_cases task out :
  (exists r, out = Resolved r /\ success r = true /\ settle task out = Finish r) \/
  (exists r, out = Resolved r /\ success r = false /\ attempts task < RETRY_ATTEMPTS /\
     settle task out =
       Continue {| name := name task; scraper := scraper task;
                   attempts := attempts task; await := AwaitDelay r |}
                [Delaying (name task) (2000 * Z.of_nat (attempts task))]) \/
  (exists r, out = Resolved r /\ success r = false /\ RETRY_ATTEMPTS <= attempts task /\
     settle task out = Finish r) \/
  (exists e, out = Rejected e /\ attempts task < RETRY_ATTEMPTS /\
     settle task out =
       Continue {| name := name task; scraper := scraper task;
                   attempts := S (attempts task); await := AwaitScrape |}
                [Calling (name task) (S (attempts task))]) \/
  (exists e, out = Rejected e /\ RETRY_ATTEMPTS <= attempts task /\
     settle task out =
       Finish {| success := false; data := None; error := e; duration := Some 0%Z |}).
Proof.
  destruct out as [r|e]; simpl.
  - destruct (success r) eqn:Hs; [left; eauto|].
    destruct (Nat.ltb_spec (attempts task) RETRY_ATTEMPTS) as [Hlt|Hge].
    + right; left. eauto.
    + right; right; left. exists r. split; [done|]. split; [done|]. split; [done|].
      destruct (loopTest_cases task r) as [[-> _]|(_ & Hlt & _)]; [done|lia].
  - destruct (loopTest_cases task {| success := false; data := None; error := e; duration := Some 0%Z |})
      as [[-> [Hge|Hs]]|(-> & Hlt & _)]; [|done|].
    + do 4 right. eauto.
    + do 3 right; left. eauto.
Qed.

(** *** Every run is finite *)

Lemma taskFuel_middle before task after :
  sum_list_with taskFuel (before ++ task :: after) =
  sum_list_with taskFuel before + taskFuel task + sum_list_with taskFuel after.
Proof. rewrite sum_list_with_app. simpl. lia. Qed.

Lemma taskFuel_pos task : 0 < taskFuel task.
Proof. unfold taskFuel. destruct (await task); lia. Qed.

Lemma step_fuel concurrency s s' : step concurrency s s' -> fuelOf s' < fuelOf s.
Proof.
  intros Hstep.
  step_inversion Hstep.
  - unfold fuelOf. simpl. rewrite Hq, sum_list_with_app. simpl.
    unfold taskFuel, RETRY_ATTEMPTS. simpl. lia.
  - assert (Hpos := taskFuel_pos task).
    assert (Hnx : match nx with
                  | Continue task' _ => taskFuel task' < taskFuel task
                  | Finish _ => True
                  end).
    { destruct Hk as [(Haw & _ & _ & ->)|(r & Haw & _ & _ & ->)].
      - destruct (settle_cases task (scraper task (attempts task) (db s)).1)
          as [(r & _ & _ & ->)|[(r & _ & _ & Hlt & ->)|[(r & _ & _ & _ & ->)|[(e & _ & Hlt & ->)|(e & _ & _ & ->)]]]];
          try done; unfold taskFuel; rewrite Haw; cbn [await attempts]; unfold RETRY_ATTEMPTS in *; lia.
      - destruct (loopTest_cases task r) as [[-> _]|(-> & Hlt & _)]; [done|].
        unfold taskFuel. rewrite Haw. cbn [await attempts]. unfold RETRY_ATTEMPTS in *. lia. }
    unfold fuelOf. rewrite Hact, taskFuel_middle.
    destruct nx as [task' evs|r]; simpl.
    + rewrite taskFuel_middle. lia.
    + rewrite sum_list_with_app. lia.
Qed.

(** *** The schedule [drive] is a run and reaches the join *)

Lemma next_step concurrency s s' : next concurrency s = Some s' -> step concurrency s s'.
Proof.
  assert (Hres : resumeOldest s = Some s' -> step concurrency s s').
  { unfold resumeOldest. destruct (active s) as [|task after] eqn:Hact; [done|].
    destruct (await task) as [|r] eqn:Haw; intros [= <-].
    - by apply (step_settle concurrency s [] task after).
    - by apply (step_wake concurrency s [] task after r). }
  unfold next. destruct (queue s) as [|[n sc] q'] eqn:Hq; [done|].
  destruct (Nat.ltb_spec (length (active s)) concurrency); [|done].
  intros [= <-]. by apply step_start.
Qed.

Lemma next_None concurrency s :
  0 < concurrency -> next concurrency s = None -> allSettled s.
Proof.
  intros Hk. unfold next, resumeOldest, allSettled.
  destruct (active s) as [|task after] eqn:Hact.
  - destruct (queue s) as [|[n sc] q']; [done|]. simpl.
    destruct (Nat.ltb_spec 0 concurrency); [done|lia].
  - destruct (queue s) as [|[n sc] q']; [by destruct (await task)|].
    destruct (_ <? _); [done|]. by destruct (await task).
Qed.

Lemma drive_run concurrency fuel s : rtc (step concurrency) s (drive concurrency fuel s).
Proof.
  revert s. induction fuel as [|fuel IH]; intros s; simpl; [done|].
  destruct (next concurrency s) as [s'|] eqn:Hn; [|done].
  eapply rtc_l; [by apply next_step|apply IH].
Qed.

Lemma drive_allSettled concurrency fuel s :
  0 < concurrency -> fuelOf s < fuel -> allSettled (drive concurrency fuel s).
Proof.
  intros Hk. revert s. induction fuel as [|fuel IH]; intros s Hf; [lia|]. simpl.
  destruct (next concurrency s) as [s'|] eqn:Hn; [|by eapply next_None].
  apply IH. apply next_step in Hn. apply step_fuel in Hn. lia.
Qed.


Lemma run_joins concurrency s :
  0 < concurrency -> exists s', rtc (step concurrency) s s' /\ allSettled s'.
Proof.
  intros Hk. exists (drive concurrency (S (fuelOf s)) s).
  split; [apply drive_run|apply drive_allSettled; lia].
Qed.

(** The four things a step does. *)
Lemma step_shape concurrency s s' :
  step concurrency s s' ->
  (exists n sc queue',
      queue s = (n, sc) :: queue' /\ length (active s) < concurrency /\
      s' = started s n sc queue') \/
  (exists before task after db' events,
      active s = before ++ task :: after /\ settlement task events /\
      ((exists r, (success r = true \/ RETRY_ATTEMPTS <= attempts task) /\
          s' = {| queue := queue s; active := before ++ after;
                  scrapingResults := <[name task := r]> (scrapingResults s);
                  db := db'; log := log s ++ events ++ [Recording (name task)] |}) \/
       (attempts task < RETRY_ATTEMPTS /\
          s' = {| queue := queue s;
                  active := before ++
                    {| name := name task; scraper := scraper task;
                       attempts := S (attempts task); await := AwaitScrape |} :: after;
                  scrapingResults := scrapingResults s;
                  db := db'; log := log s ++ events ++ [Calling (name task) (S (attempts task))] |}) \/
       (exists r, await task = AwaitScrape /\ attempts task < RETRY_ATTEMPTS /\ success r = false /\
          s' = {| queue := queue s;
                  active := before ++
                    {| name := name task; scraper := scraper task;
                       attempts := attempts task; await := AwaitDelay r |} :: after;
                  scrapingResults := scrapingResults s;
                  db := db';
                  log := log s ++ events ++
                         [Delaying (name task) (2000 * Z.of_nat (attempts task))] |}))).
Proof.
  intros Hstep.
  destruct (step_inv _ _ _ Hstep) as [?|(before & task & after & db' & events & nx & Hact & -> & Hk)];
    [by left|right].
  exists before, task, after, db', events. split; [done|].
  destruct Hk as [(Haw & _ & -> & ->)|(r & Haw & _ & -> & ->)].
  - split; [right; eauto|].
    destruct (settle_cases task (scraper task (attempts task) (db s)).1)
      as [(r & _ & Hs & ->)|[(r & _ & Hs & Hlt & ->)|[(r & _ & _ & Hge & ->)|[(e & _ & Hlt & ->)|(e & _ & Hge & ->)]]]];
      simpl; eauto 10.
  - split; [by left|].
    destruct (loopTest_cases task r) as [[-> Hor]|(-> & Hlt & _)]; simpl.
    + left. exists r. split; [tauto|done].
    + right; left. eauto.
Qed.

(** Case analysis on a step by what it does: start, finish, call again,
    delay. *)
Ltac step_cases Hstep :=
  destruct (step_shape _ _ _ Hstep)
    as [(n & sc & q' & Hq & Hlen & ->)
       |(before & task & after & db' & events & Hact & Hev &
         [(r & Hr & ->)|[(Hlt & ->)|(r & Haw & Hlt & Hs & ->)]])].

(** *** Coherence of names, calls and results along a run *)

Lemma callsOf_settlement n task events : settlement task events -> callsOf n events = [].
Proof. by intros [->|[out ->]]. Qed.

Lemma callsOf_calling n m attempt :
  callsOf n [Calling m attempt] = if decide (m = n) then [attempt] else [].
Proof. unfold callsOf. simpl. by destruct (decide (m = n)). Qed.

Lemma submitted_coherent SCRAPERS db0 :
  NoDup (map fst SCRAPERS) -> Coherent (map fst SCRAPERS) (submitted SCRAPERS db0).
Proof.
  intros Hnd. split; simpl.
  - by rewrite app_nil_r.
  - done.
  - intros n. rewrite app_nil_r, lookup_empty. split; [auto|]. intros [?|[? [=]]]; done.
  - done.
  - intros task Hin. by apply elem_of_nil in Hin.
  - intros n r. by rewrite lookup_empty.
Qed.

Lemma NoDup_names_middle (before after : list Task) task :
  NoDup (map name (before ++ task :: after)) ->
  forall t, t ∈ before ++ after -> name t <> name task.
Proof.
  rewrite map_app. simpl. intros Hnd t Hin Heq.
  apply NoDup_app in Hnd as (Hb & Hba & Ha). apply NoDup_cons in Ha as [Hta Ha].
  apply elem_of_app in Hin as [Hin|Hin].
  - apply (Hba (name task)); [rewrite <- Heq; by apply list_elem_of_fmap_2|by left].
  - apply Hta. rewrite <- Heq. by apply list_elem_of_fmap_2.
Qed.

Lemma elem_of_middle (before after : list Task) task t :
  t ∈ before ++ task :: after <-> t = task \/ t ∈ before ++ after.
Proof. rewrite !elem_of_app, elem_of_cons. tauto. Qed.

Lemma names_middle (before after : list Task) task task' :
  name task' = name task ->
  map name (before ++ task' :: after) = map name (before ++ task :: after).
Proof. intros H. rewrite !map_app. simpl. by rewrite H. Qed.

Lemma coherent_start names s n0 sc queue' :
  queue s = (n0, sc) :: queue' ->
  Coherent names s -> Coherent names (started s n0 sc queue').
Proof.
  intros Hq [Hnd Hfresh Hnames Hqueue Hactive Hdone].
  rewrite Hq in *. simpl in *.
  assert (Hperm : map fst queue' ++ map name (active s ++
            [{| name := n0; scraper := sc; attempts := 1; await := AwaitScrape |}])
          ≡ₚ n0 :: map fst queue' ++ map name (active s)).
  { rewrite map_app. simpl. rewrite app_assoc, <- Permutation_cons_append. done. }
  assert (Hn0 : forall n, n ∈ map fst queue' ++ map name (active s) -> n <> n0).
  { intros n Hin ->. by apply NoDup_cons in Hnd as [? _]. }
  split; simpl.
  - by rewrite Hperm.
  - intros n. rewrite Hperm. apply Hfresh.
  - intros n. rewrite Hperm. apply Hnames.
  - intros n Hin. rewrite callsOf_app, Hqueue by (by right). simpl.
    rewrite decide_False; [done|]. intros <-.
    apply (Hn0 n0); [apply elem_of_app; by left|done].
  - intros task [Hin|Hin]%elem_of_app.
    + destruct (Hactive task Hin) as (Hc & H1 & Haw).
      rewrite callsOf_app, Hc. simpl. rewrite decide_False, app_nil_r; [done|].
      intros Heq. apply (Hn0 (name task)); [|done].
      apply elem_of_app; right. by apply list_elem_of_fmap_2.
    + apply list_elem_of_singleton in Hin as ->. simpl.
      rewrite callsOf_app, Hqueue by (by left). simpl.
      rewrite decide_True by done. unfold RETRY_ATTEMPTS. split; [done|lia].
  - intros n r Hr. destruct (Hdone n r Hr) as (k & Hc & Hk).
    exists k. split; [|done]. rewrite callsOf_app, Hc. simpl.
    rewrite decide_False, app_nil_r; [done|].
    intros <-. rewrite Hfresh in Hr by (by left). done.
Qed.

Lemma coherent_finish names s before task after db' events r :
  active s = before ++ task :: after ->
  settlement task events ->
  success r = true \/ RETRY_ATTEMPTS <= attempts task ->
  Coherent names s ->
  Coherent names
    {| queue := queue s; active := before ++ after;
       scrapingResults := <[name task := r]> (scrapingResults s);
       db := db'; log := log s ++ events ++ [Recording (name task)] |}.
Proof.
  intros Hact Hev Hr [Hnd Hfresh Hnames Hqueue Hactive Hdone].
  assert (Hperm : map fst (queue s) ++ map name (active s)
                  ≡ₚ name task :: map fst (queue s) ++ map name (before ++ after)).
  { rewrite Hact, !map_app. simpl. by rewrite <- !Permutation_middle. }
  assert (Hcalls : forall n, callsOf n (log s ++ events ++ [Recording (name task)]) = callsOf n (log s)).
  { intros n. rewrite !callsOf_app, (callsOf_settlement _ _ _ Hev). simpl. by rewrite app_nil_r. }
  rewrite Hperm in Hnd. apply NoDup_cons in Hnd as [Hnotin Hnd].
  split; simpl.
  - done.
  - intros n Hin. rewrite lookup_insert_ne by (intros <-; done).
    apply Hfresh. rewrite Hperm. by right.
  - intros n. rewrite Hnames, Hperm, elem_of_cons.
    destruct (decide (n = name task)) as [->|Hne].
    + rewrite lookup_insert_eq. split; [eauto|]. intros _. by left; left.
    + rewrite lookup_insert_ne by done. split; [intros [[?|?]|?]; tauto|tauto].
  - intros n Hin. rewrite Hcalls. by apply Hqueue.
  - intros t Hin. rewrite Hcalls. apply Hactive. rewrite Hact. apply elem_of_middle. by right.
  - intros n r'. rewrite Hcalls. destruct (decide (n = name task)) as [->|Hne].
    + rewrite lookup_insert_eq. intros [= <-].
      destruct (Hactive task) as (Hc & H1 & Haw); [rewrite Hact; apply elem_of_middle; by left|].
      exists (attempts task). split; [done|].
      assert (attempts task <= RETRY_ATTEMPTS) by (destruct (await task); lia).
      split; [lia|]. intros Hs. destruct Hr as [Hr|Hr]; [congruence|lia].
    + rewrite lookup_insert_ne by done. apply Hdone.
Qed.

Lemma coherent_continue names s before task after db' events task' events' :
  active s = before ++ task :: after ->
  settlement task events ->
  name task' = name task ->
  (attempts task' = S (attempts task) /\ await task' = AwaitScrape /\
   attempts task < RETRY_ATTEMPTS /\ events' = [Calling (name task) (S (attempts task))]) \/
  (exists r, attempts task' = attempts task /\ await task' = AwaitDelay r /\
   attempts task < RETRY_ATTEMPTS /\ success r = false /\
   events' = [Delaying (name task) (2000 * Z.of_nat (attempts task))]) ->
  Coherent names s ->
  Coherent names
    {| queue := queue s; active := before ++ task' :: after;
       scrapingResults := scrapingResults s;
       db := db'; log := log s ++ events ++ events' |}.
Proof.
  intros Hact Hev Hname Hkind [Hnd Hfresh Hnames Hqueue Hactive Hdone].
  assert (Hsame : map name (before ++ task' :: after) = map name (active s)).
  { rewrite Hact. by apply names_middle. }
  assert (Hother : forall n, n <> name task ->
            callsOf n (log s ++ events ++ events') = callsOf n (log s)).
  { intros n Hne. rewrite !callsOf_app, (callsOf_settlement _ _ _ Hev).
    destruct Hkind as [(_ & _ & _ & ->)|(r & _ & _ & _ & _ & ->)]; simpl;
      [rewrite decide_False by done|]; by rewrite app_nil_r. }
  assert (Hmid : forall t, t ∈ before ++ after -> name t <> name task).
  { apply NoDup_names_middle. apply NoDup_app in Hnd as (_ & _ & Hnd). by rewrite <- Hact. }
  assert (Htask : task ∈ active s) by (rewrite Hact; apply elem_of_middle; by left).
  split; simpl.
  - by rewrite Hsame.
  - intros n. rewrite Hsame. apply Hfresh.
  - intros n. rewrite Hsame. apply Hnames.
  - intros n Hin. rewrite Hother; [by apply Hqueue|].
    intros ->. apply NoDup_app in Hnd as (_ & Hd & _). apply (Hd _ Hin).
    by apply list_elem_of_fmap_2.
  - intros t [->|Hin]%elem_of_middle.
    + destruct (Hactive task Htask) as (Hc & H1 & Haw). rewrite Hname.
      rewrite !callsOf_app, (callsOf_settlement _ _ _ Hev), Hc.
      destruct Hkind as [(-> & -> & Hlt & ->)|(r & -> & -> & Hlt & Hs & ->)].
      * rewrite callsOf_calling, decide_True by done. rewrite seq_S. simpl. split; [done|lia].
      * simpl. rewrite app_nil_r. done.
    + rewrite Hother by (by apply Hmid). apply Hactive. rewrite Hact. apply elem_of_middle. by right.
  - intros n r Hr. rewrite Hother; [by apply Hdone|].
    intros ->. rewrite Hfresh in Hr; [done|]. apply elem_of_app. right.
    by apply list_elem_of_fmap_2.
Qed.

Lemma coherent_step concurrency names s s' :
  step concurrency s s' -> Coherent names s -> Coherent names s'.
Proof.
  intros Hstep Hcoh.
  step_cases Hstep.
  - by apply coherent_start.
  - by apply (coherent_finish names s before task after).
  - apply (coherent_continue names s before task after); try done. left. done.
  - apply (coherent_continue names s before task after); try done. right. exists r. done.
Qed.

Lemma run_coherent concurrency SCRAPERS db0 s :
  NoDup (map fst SCRAPERS) ->
  rtc (step concurrency) (submitted SCRAPERS db0) s ->
  Coherent (map fst SCRAPERS) s.
Proof.
  intros Hnd. apply run_invariant; [by apply submitted_coherent|].
  intros s1 s2 H1 H2. by eapply coherent_step.
Qed.

(** *** The limiter *)

(** A step starts the head of the queue on a free slot, or starts nothing. *)
Lemma step_starts concurrency s s' :
  step concurrency s s' ->
  startsOf (log s') = startsOf (log s) \/
  (length (active s) < concurrency /\
   exists n, head (map fst (queue s)) = Some n /\
             startsOf (log s') = startsOf (log s) ++ [n]).
Proof.
  intros Hstep.
  step_inversion Hstep.
  - right. split; [done|]. exists n. rewrite Hq. simpl. by rewrite startsOf_app.
  - left. destruct (resumed_starts s before task after db' events nx) as [-> _]; [| |done].
    + by destruct Hk as [(_ & _ & -> & _)|(r & _ & _ & -> & _)].
    + destruct Hk as [(_ & _ & _ & ->)|(r & _ & _ & _ & ->)]; eauto.
Qed.

(** C9.  With a limiter of [concurrency] slots and any number of submitted
    tasks, in every state of every run at most [concurrency] tasks hold a
    slot, so at most that many provider calls are in flight.  The tasks
    started so far followed by the tasks still queued are the tasks in the
    order they were submitted: tasks are started in that order.  A step
    starts a task only on a free slot, and then the oldest queued one; and
    whenever a slot is free the oldest queued task can start. *)
Theorem limiter_bound (concurrency : nat) (SCRAPERS : list (string * Scraper))
    (db0 : Prisma.Db) (s : Run) :
  rtc (step concurrency) (submitted SCRAPERS db0) s ->
  length (inFlight s) <= concurrency /\
  length (active s) <= concurrency /\
  startsOf (log s) ++ map fst (queue s) = map fst SCRAPERS /\
  (forall s', step concurrency s s' ->
     startsOf (log s') = startsOf (log s) \/
     (length (active s) < concurrency /\
      exists n, head (map fst (queue s)) = Some n /\
                startsOf (log s') = startsOf (log s) ++ [n])) /\
  (forall n sc queue',
     queue s = (n, sc) :: queue' -> length (active s) < concurrency ->
     step concurrency s (started s n sc queue')).
Proof.
  intros Hrun. assert (Hact := active_bounded _ _ _ _ Hrun).
  split; [etrans; [apply inFlight_le_active|done]|].
  split; [done|]. split; [by eapply starts_in_order|].
  split; [apply step_starts|]. intros n sc queue' Hq Hlen. by apply step_start.
Qed.

(** The run of the five example scrapers after two steps: two tasks started,
    three queued. *)
Lemma limiter_bound_witness :
  rtc (step CONCURRENT_SCRAPERS) (submitted exampleScrapers emptyDb) exampleMidRun /\
  length (queue exampleMidRun) = 3 /\
  length (inFlight exampleMidRun) <= CONCURRENT_SCRAPERS /\
  length (active exampleMidRun) <= CONCURRENT_SCRAPERS /\
  startsOf (log exampleMidRun) ++ map fst (queue exampleMidRun) = map fst exampleScrapers.
Proof.
  assert (H : rtc (step CONCURRENT_SCRAPERS) (submitted exampleScrapers emptyDb) exampleMidRun)
    by apply drive_run.
  split; [exact H|]. split; [reflexivity|].
  destruct (limiter_bound CONCURRENT_SCRAPERS exampleScrapers emptyDb exampleMidRun H)
    as (H1 & H2 & H3 & _).
  exact (conj H1 (conj H2 H3)).
Defined.

(** *** Completeness of the outcome map *)




Lemma exampleJoin_run :
  rtc (step CONCURRENT_SCRAPERS) (submitted exampleScrapers emptyDb) exampleJoin.
Proof. apply drive_run. Qed.

Lemma exampleJoin_settled : allSettled exampleJoin.
Proof. split; reflexivity. Qed.


(** The names of the example scrapers are those of [SCRAPERS]. *)
Lemma exampleScrapers_names : map fst exampleScrapers = SCRAPER_NAMES.
Proof. reflexivity. Qed.


(** *** The retry loop *)

(** What holds of the retry loop on every schedule: the calls of a provider
    are numbered from one, there are at most [RETRY_ATTEMPTS] of them, and
    exactly [RETRY_ATTEMPTS] when the recorded outcome is a failure. *)
Lemma attempts_bounded concurrency SCRAPERS db0 s n r :
  NoDup (map fst SCRAPERS) ->
  rtc (step concurrency) (submitted SCRAPERS db0) s ->
  scrapingResults s !! n = Some r ->
  exists k, callsOf n (log s) = seq 1 k /\ 1 <= k <= RETRY_ATTEMPTS /\
            (success r = false -> k = RETRY_ATTEMPTS).
Proof. intros Hnd Hrun. apply (coh_done (map fst SCRAPERS)). by eapply run_coherent. Qed.

Lemma failedEarly_app n l l' : failedEarly n (l ++ l') = failedEarly n l ++ failedEarly n l'.
Proof. unfold failedEarly. apply omap_app. Qed.

(** The delays of a task are those of its explicit failures, on every
    schedule: it waits [2000 * attempt] ms after each attempt that resolved to
    [success: false] while attempts remained, and at no other time; so never
    after an attempt that threw. *)
Lemma delays_follow_explicit_failures concurrency SCRAPERS db0 s :
  rtc (step concurrency) (submitted SCRAPERS db0) s ->
  forall p,
    delaysOf p (log s) = map (fun attempt => (2000 * Z.of_nat attempt)%Z) (failedEarly p (log s)).
Proof.
  apply (run_invariant concurrency
           (fun s => forall p,
              delaysOf p (log s) =
              map (fun attempt => (2000 * Z.of_nat attempt)%Z) (failedEarly p (log s))));
    [done|].
  clear s. intros s s' IH Hstep p.
  step_inversion Hstep.
  - simpl. rewrite delaysOf_app, failedEarly_app, map_app, IH. done.
  - assert (Hloop : forall r,
              match loopTest task r with
              | Continue _ evs => delaysOf p evs = [] /\ failedEarly p evs = []
              | Finish _ => True
              end).
    { intros r. by destruct (loopTest_cases task r) as [[-> _]|(-> & _)]. }
    destruct Hk as [(Haw & _ & -> & ->)|(r & Haw & _ & -> & ->)].
    + destruct (settle_cases task (scraper task (attempts task) (db s)).1)
        as [(r & -> & Hs & Hnx)|[(r & -> & Hs & Hlt & Hnx)|[(r & -> & Hs & Hge & Hnx)
           |[(e & -> & Hlt & Hnx)|(e & -> & Hge & Hnx)]]]];
        rewrite Hnx; simpl;
        rewrite !delaysOf_app, !failedEarly_app, !map_app, IH; simpl;
        rewrite ?Hs; simpl.
      * destruct (decide (name task = p)); by rewrite !app_nil_r.
      * apply Nat.ltb_lt in Hlt. rewrite Hlt.
        destruct (decide (name task = p)); by rewrite ?app_nil_r.
      * apply Nat.ltb_ge in Hge. rewrite Hge.
        destruct (decide (name task = p)); by rewrite !app_nil_r.
      * by rewrite !app_nil_r.
      * by rewrite !app_nil_r.
    + specialize (Hloop r). destruct (loopTest task r) as [task' evs|r']; simpl.
      * destruct Hloop as [Hd Hf].
        by rewrite !delaysOf_app, !failedEarly_app, !map_app, IH, Hd, Hf.
      * rewrite !delaysOf_app, !failedEarly_app, !map_app, IH. simpl. by rewrite !app_nil_r.
Qed.

(** C3, at the input where the code departs from it.  Movoto's scraper throws
    at every call and Redfin's answers [success: false] at every call.  Both
    are called exactly [RETRY_ATTEMPTS = 2] times; Redfin's task waits
    [2000 * 1] ms before its second call, but Movoto's task waits before
    none: the [catch] block has no delay, whatever the task and the error. *)
Theorem thrown_attempt_is_retried_without_delay :
  let SCRAPERS := [("movoto", alwaysThrows "timeout"); ("redfin", alwaysFails "not found")]%string in
  let joined := drive CONCURRENT_SCRAPERS 20 (submitted SCRAPERS emptyDb) in
  allSettled joined /\
  callsOf "movoto" (log joined) = [1; 2] /\
  delaysOf "movoto" (log joined) = [] /\
  callsOf "redfin" (log joined) = [1; 2] /\
  delaysOf "redfin" (log joined) = [2000%Z] /\
  (forall task e,
     match settle task (Rejected e) with
     | Continue _ events => delaysOf (name task) events = []
     | Finish _ => True
     end).
Proof.
  intros SCRAPERS joined. split; [split; reflexivity|].
  do 4 (split; [by vm_compute|]).
  intros task e.
  destruct (settle_cases task (Rejected e))
    as [(r & [=] & _)|[(r & [=] & _)|[(r & [=] & _)|[(e' & _ & _ & ->)|(e' & _ & _ & ->)]]]];
    done.
Qed.

(** *** The log of the fan-out holds no fetch and no reconciliation *)

Lemma reconciles_app l l' : reconciles (l ++ l') = reconciles l || reconciles l'.
Proof. unfold reconciles. apply existsb_app. Qed.

Lemma reconciles_settlement task events : settlement task events -> reconciles events = false.
Proof. by intros [->|[out ->]]. Qed.

Lemma run_reconciles_nothing concurrency SCRAPERS db0 s :
  rtc (step concurrency) (submitted SCRAPERS db0) s -> reconciles (log s) = false.
Proof.
  apply (run_invariant concurrency (fun s => reconciles (log s) = false)); [done|].
  clear s. intros s s' IH Hstep.
  step_cases Hstep;
    simpl; rewrite ?reconciles_app, IH, ?(reconciles_settlement _ _ Hev); done.
Qed.

(** *** Identification and the run-level failure *)

Lemma firstIdentified_None propertyHash values :
  firstIdentified propertyHash values = None <-> Forall (fun r => identifies r = false) values.
Proof.
  induction values as [|r values IH]; simpl; [by split; [constructor|]|].
  rewrite Forall_cons. destruct (identifies r); [|rewrite IH; tauto].
  split; [done|intros [[=] _]].
Qed.

Lemma firstIdentified_Some propertyHash values propertyId :
  firstIdentified propertyHash values = Some propertyId -> propertyId = propertyHash.
Proof.
  induction values as [|r values IH]; simpl; [done|].
  destruct (identifies r); [by intros [= <-]|done].
Qed.

Lemma values_Forall (P : ScrapingResult -> Prop) (m : gmap string ScrapingResult) :
  Forall P (map snd (map_to_list m)) <-> forall n r, m !! n = Some r -> P r.
Proof.
  rewrite Forall_forall. split.
  - intros H n r Hr. apply H. apply (list_elem_of_fmap_2 snd _ (n, r)).
    by apply elem_of_map_to_list.
  - intros H r Hin. apply list_elem_of_fmap in Hin as ([n r'] & -> & Hin).
    apply elem_of_map_to_list in Hin. by eapply H.
Qed.

Lemma firstIdentified_found propertyHash (m : gmap string ScrapingResult) propertyId :
  firstIdentified propertyHash (map snd (map_to_list m)) = Some propertyId ->
  exists n r, m !! n = Some r /\ identifies r = true.
Proof.
  intros Hid.
  assert (Hex : exists r, r ∈ map snd (map_to_list m) /\ identifies r = true).
  { induction (map snd (map_to_list m)) as [|r values IH]; simpl in Hid; [done|].
    destruct (identifies r) eqn:Hr.
    - exists r. split; [left|done].
    - destruct (IH Hid) as (r' & Hin & Hr'). exists r'. split; [by right|done]. }
  destruct Hex as (r & Hin & Hr).
  apply list_elem_of_fmap in Hin as ([n r'] & -> & Hin).
  apply elem_of_map_to_list in Hin. by exists n, r'.
Qed.

(** C1, amended.  Provided the digest is never the empty string, every call
    of [analyzeProperty] completes, and for each of its runs: it throws the
    no-source error exactly when no recorded outcome has both
    [success: true] and a [data.property]; when it throws, the error is that
    one and neither the stored estimates are fetched nor a reconciliation is
    performed; when it returns, some provider identified the property and
    the reconciliation was performed. *)
Theorem analyzeProperty_fails_iff_unidentified (MD5 : string -> string)
    (SCRAPERS : list (string * Scraper)) (address city state zipCode : string)
    (now : Z) (db0 : Prisma.Db) :
  (forall s, MD5 s <> ""%string) ->
  (exists joined outcome,
     analyzeProperty MD5 SCRAPERS address city state zipCode now db0 joined outcome) /\
  (forall joined outcome,
     analyzeProperty MD5 SCRAPERS address city state zipCode now db0 joined outcome ->
     (outcome.1 = Threw NoSourceMessage <->
        forall n r, scrapingResults joined !! n = Some r -> identifies r = false) /\
     (forall message, outcome.1 = Threw message ->
        message = NoSourceMessage /\ outcome.2 = log joined /\ reconciles outcome.2 = false) /\
     (forall result, outcome.1 = Returned result ->
        reconciles outcome.2 = true /\
        exists n r, scrapingResults joined !! n = Some r /\ identifies r = true)).
Proof.
  intros Hmd5. split.
  { destruct (run_joins CONCURRENT_SCRAPERS (submitted SCRAPERS db0)) as (joined & Hrun & Hjoin);
      [unfold CONCURRENT_SCRAPERS; lia|].
    exists joined. eexists. split; [done|]. split; [done|reflexivity]. }
  intros joined outcome (Hrun & Hjoin & ->).
  assert (Hlog := run_reconciles_nothing _ _ _ _ Hrun).
  unfold conclude.
  destruct (firstIdentified _ _) as [propertyId|] eqn:Hid.
  - assert (Hpid := firstIdentified_Some _ _ _ Hid).
    assert (Hsome : exists n r, scrapingResults joined !! n = Some r /\ identifies r = true).
    { by eapply firstIdentified_found. }
    destruct propertyId as [|c rest].
    { exfalso. by apply (Hmd5 _ (eq_sym Hpid)). }
    simpl. split; [|split].
    + split; [done|]. intros Hall. destruct Hsome as (n & r & Hr & Hi).
      by rewrite (Hall n r Hr) in Hi.
    + done.
    + intros result _. split; [|done].
      rewrite reconciles_app, Hlog. done.
  - simpl. split; [|split].
    + split; [|done]. intros _. apply values_Forall. by apply firstIdentified_None in Hid.
    + intros message [= <-]. done.
    + done.
Qed.

(** The hypothesis holds of the stand-in digest. *)
Lemma analyzeProperty_fails_iff_unidentified_witness :
  (forall s, digestStub s <> ""%string) /\
  exists joined outcome,
    analyzeProperty digestStub exampleScrapers "1 Main St" "Austin" "TX" "78701" 0
      emptyDb joined outcome.
Proof.
  assert (H : forall s, digestStub s <> ""%string) by (intros s; discriminate).
  split; [exact H|].
  exact (proj1 (analyzeProperty_fails_iff_unidentified digestStub exampleScrapers
                  "1 Main St" "Austin" "TX" "78701" 0 emptyDb H)).
Defined.

(** C1 as stated fails: in the run of the example scrapers Zillow's outcome
    has [success: true], without [data.property], and [analyzeProperty]
    throws the no-source error all the same. *)
Lemma analyzeProperty_fails_although_a_provider_succeeded :
  exists joined outcome,
    analyzeProperty digestStub exampleScrapers "1 Main St" "Austin" "TX" "78701" 0
      emptyDb joined outcome /\
    outcome.1 = Threw NoSourceMessage /\
    exists r, scrapingResults joined !! "zillow"%string = Some r /\ success r = true.
Proof.
  exists exampleJoin. eexists. split.
  { split; [apply exampleJoin_run|]. split; [apply exampleJoin_settled|reflexivity]. }
  split; [by vm_compute|].
  eexists. split; [by vm_compute|reflexivity].
Qed.

(** *** What is written, and by whom *)

Lemma listed_step concurrency SCRAPERS s s' :
  step concurrency s s' -> Listed SCRAPERS s -> Listed SCRAPERS s'.
Proof.
  intros Hstep [Hqueue Hactive].
  step_inversion Hstep.
  - split; simpl.
    + intros n' sc' Hin. apply Hqueue. rewrite Hq. by right.
    + intros t [Hin|Hin]%elem_of_app; [by apply Hactive|].
      apply list_elem_of_singleton in Hin as ->. simpl. apply Hqueue. rewrite Hq. by left.
  - assert (Htask : task ∈ active s) by (rewrite Hact; apply elem_of_middle; by left).
    assert (Hrest : forall t, t ∈ before ++ after -> (name t, scraper t) ∈ SCRAPERS).
    { intros t Hin. apply Hactive. rewrite Hact. apply elem_of_middle. by right. }
    assert (Hnx : match nx with
                  | Continue task' _ => name task' = name task /\ scraper task' = scraper task
                  | Finish _ => True
                  end).
    { destruct Hk as [(_ & _ & _ & ->)|(r & _ & _ & _ & ->)].
      - destruct (settle_cases task (scraper task (attempts task) (db s)).1)
          as [(r & _ & _ & ->)|[(r & _ & _ & _ & ->)|[(r & _ & _ & _ & ->)
             |[(e & _ & _ & ->)|(e & _ & _ & ->)]]]]; done.
      - destruct (loopTest_cases task r) as [[-> _]|(-> & _ & _)]; done. }
    destruct nx as [task' evs|r]; split; simpl; try done.
    intros t [->|Hin]%elem_of_middle; [|by apply Hrest].
    destruct Hnx as [-> ->]. by apply Hactive.
Qed.

Lemma run_listed concurrency SCRAPERS db0 s :
  rtc (step concurrency) (submitted SCRAPERS db0) s -> Listed SCRAPERS s.
Proof.
  apply run_invariant.
  - split; simpl; [done|]. intros task Hin. by apply elem_of_nil in Hin.
  - intros s1 s2 H1 H2. by eapply listed_step.
Qed.










Lemma exampleSpecRun_run :
  rtc (step CONCURRENT_SCRAPERS)
    (submitted (map (fun n => (n, storingScraper (ScrapingUtils.generatePropertyHash digestStub
                                                    "1 Main St" "Austin" "TX" "78701")
                                    n (exampleFinds n))) SCRAPER_NAMES)
       emptyDb)
    exampleSpecRun.
Proof. apply drive_run. Qed.

Lemma exampleSpecRun_settled : allSettled exampleSpecRun.
Proof. split; reflexivity. Qed.



(** *** Reading a stored analysis *)

(** C10.  [getPropertyAnalysis] answers [null] exactly when the lookup finds
    no property or rejects: whatever the message of a failed read, the
    result is [null], the same as for an unknown property, and never an
    analysis. *)
Theorem getPropertyAnalysis_null (db : Prisma.Db) (now : Z) (propertyId : string) :
  (getPropertyAnalysis db now propertyId = None <->
     Prisma.property_findUnique db propertyId = Resolved None \/
     exists e, Prisma.property_findUnique db propertyId = Rejected e) /\
  (forall message,
     Prisma.fault db = Some message ->
     Prisma.property_findUnique db propertyId = Rejected (Some message) /\
     getPropertyAnalysis db now propertyId = None) /\
  (Prisma.fault db = None ->
     Prisma.property db !! propertyId = None ->
     Prisma.property_findUnique db propertyId = Resolved None /\
     getPropertyAnalysis db now propertyId = None).
Proof.
  unfold getPropertyAnalysis, Prisma.property_findUnique, Prisma.aVMEstimate_findMany.
  split; [|split].
  - destruct (Prisma.fault db) as [m|]; [split; eauto|].
    destruct (Prisma.property db !! propertyId) as [row|]; [|split; eauto].
    split; [done|]. intros [[=]|[e [=]]].
  - by intros message ->.
  - by intros -> ->.
Qed.

(** A database that lost its connection and an empty one answer alike. *)
Lemma getPropertyAnalysis_null_witness :
  let broken := {| Prisma.property := ∅; Prisma.aVMEstimate := ∅;
                   Prisma.fault := Some "connection lost"%string |} in
  Prisma.fault broken = Some "connection lost"%string /\
  Prisma.fault emptyDb = None /\
  Prisma.property emptyDb !! "abc"%string = None /\
  getPropertyAnalysis broken 0 "abc" = None /\
  getPropertyAnalysis emptyDb 0 "abc" = None.
Proof.
  intros broken.
  assert (H1 : Prisma.fault broken = Some "connection lost"%string) by reflexivity.
  assert (H2 : Prisma.fault emptyDb = None) by reflexivity.
  assert (H3 : Prisma.property emptyDb !! "abc"%string = None) by reflexivity.
  split; [exact H1|]. split; [exact H2|]. split; [exact H3|]. split.
  - exact (proj2 (proj1 (proj2 (getPropertyAnalysis_null broken 0 "abc")) _ H1)).
  - exact (proj2 (proj2 (proj2 (getPropertyAnalysis_null emptyDb 0 "abc")) H2 H3)).
Defined.

(** ** More on reconciliation *)

Section MoreReconciliation.

Local Open Scope R_scope.

(** [Math.round] stays within half a unit. *)
Lemma Math_round_bounds x : x - / 2 < Js.Math_round x <= x + / 2.
Proof.
  unfold Js.Math_round. assert (H := Zfloor_bound (x + / 2)). lra.
Qed.

Lemma fold_Rmin_le vs v : fold_left Rmin vs v <= v.
Proof.
  revert v. induction vs as [|w vs IH]; intros v; simpl; [lra|].
  etrans; [apply IH|apply Rmin_l].
Qed.

Lemma fold_Rmin_lower vs v x : x ∈ vs -> fold_left Rmin vs v <= x.
Proof.
  revert v. induction vs as [|w vs IH]; intros v Hin; simpl.
  - by apply elem_of_nil in Hin.
  - apply elem_of_cons in Hin as [->|Hin]; [|by apply IH].
    etrans; [apply fold_Rmin_le|apply Rmin_r].
Qed.

Lemma fold_Rmin_attained vs v : fold_left Rmin vs v = v \/ fold_left Rmin vs v ∈ vs.
Proof.
  revert v. induction vs as [|w vs IH]; intros v; simpl; [by left|].
  destruct (IH (Rmin v w)) as [->|Hin]; [|right; by right].
  unfold Rmin. destruct (Rle_dec v w); [by left|right; by left].
Qed.

Lemma fold_Rmax_ge vs v : v <= fold_left Rmax vs v.
Proof.
  revert v. induction vs as [|w vs IH]; intros v; simpl; [lra|].
  etrans; [apply (Rmax_l v w)|apply IH].
Qed.

Lemma fold_Rmax_upper vs v x : x ∈ vs -> x <= fold_left Rmax vs v.
Proof.
  revert v. induction vs as [|w vs IH]; intros v Hin; simpl.
  - by apply elem_of_nil in Hin.
  - apply elem_of_cons in Hin as [->|Hin]; [|by apply IH].
    etrans; [apply (Rmax_r v w)|apply fold_Rmax_ge].
Qed.

Lemma fold_Rmax_attained vs v : fold_left Rmax vs v = v \/ fold_left Rmax vs v ∈ vs.
Proof.
  revert v. induction vs as [|w vs IH]; intros v; simpl; [by left|].
  destruct (IH (Rmax v w)) as [->|Hin]; [|right; by right].
  unfold Rmax. destruct (Rle_dec v w); [right; by left|by left].
Qed.

(** The spread minimum and maximum of a non-empty list bound its elements and
    are among them. *)
Lemma Math_min_spread_spec values :
  values <> [] ->
  Js.Math_min_spread values ∈ values /\ forall x, x ∈ values -> Js.Math_min_spread values <= x.
Proof.
  destruct values as [|v vs]; [done|]. intros _. simpl. split.
  - destruct (fold_Rmin_attained vs v) as [->|Hin]; [by left|by right].
  - intros x [->|Hin]%elem_of_cons; [apply fold_Rmin_le|by apply fold_Rmin_lower].
Qed.

Lemma Math_max_spread_spec values :
  values <> [] ->
  Js.Math_max_spread values ∈ values /\ forall x, x ∈ values -> x <= Js.Math_max_spread values.
Proof.
  destruct values as [|v vs]; [done|]. intros _. simpl. split.
  - destruct (fold_Rmax_attained vs v) as [->|Hin]; [by left|by right].
  - intros x [->|Hin]%elem_of_cons; [apply fold_Rmax_ge|by apply fold_Rmax_upper].
Qed.

(** A sum lies between the length times a lower and an upper bound. *)
Lemma sum_between lo hi values :
  (forall x, x ∈ values -> lo <= x <= hi) ->
  INR (length values) * lo <= Js.sum values <= INR (length values) * hi.
Proof.
  induction values as [|v vs IH]; intros H.
  - rewrite sum_nil. simpl. lra.
  - rewrite sum_cons. change (length (v :: vs)) with (S (length vs)). rewrite S_INR.
    destruct (H v) as [? ?]; [by left|].
    destruct IH as [? ?]; [intros x Hx; apply H; by right|]. lra.
Qed.

Lemma mean_between lo hi values :
  values <> [] ->
  (forall x, x ∈ values -> lo <= x <= hi) ->
  lo <= Js.sum values / INR (length values) <= hi.
Proof.
  intros Hne H. destruct (sum_between lo hi values H) as [Hl Hh].
  assert (Hn : 0 < INR (length values)).
  { apply lt_0_INR. destruct values; [done|simpl; lia]. }
  assert (Hq : Js.sum values = Js.sum values / INR (length values) * INR (length values)).
  { field. lra. }
  split; nra.
Qed.

Lemma calculateAnalysisMetrics_valid estimates :
  validOf estimates <> [] ->
  calculateAnalysisMetrics estimates =
  let validEstimates := validOf estimates in
  {| Analysis.averageEstimate := Js.Math_round (rawAverage validEstimates);
     Analysis.estimateRange :=
       {| min := Js.Math_min_spread (map estimate validEstimates);
          max := Js.Math_max_spread (map estimate validEstimates) |};
     Analysis.confidence :=
       {| overall := Js.Math_round (overallConfidence validEstimates *
                                    consistencyMultiplier validEstimates);
          byProvider := confidenceByProvider (confidenceLoop validEstimates) |} |}.
Proof.
  intros Hne. unfold calculateAnalysisMetrics.
  destruct estimates as [|e l]; [done|].
  change (length (e :: l) =? 0)%nat with false; cbv iota.
  destruct (validOf (e :: l)) as [|v vs]; [done|]. reflexivity.
Qed.

(** X1.  When some estimate is valid, [estimateRange] is the least and the
    greatest valid estimate: both are estimates of the list, every valid
    estimate lies between them, and they lie strictly between [0] and
    [50000000].  The rounded average is within half a unit of that range. *)
Theorem estimateRange_brackets (estimates : list Estimate) :
  validOf estimates <> [] ->
  let analysis := calculateAnalysisMetrics estimates in
  let lo := min (Analysis.estimateRange analysis) in
  let hi := max (Analysis.estimateRange analysis) in
  (forall est, est ∈ validOf estimates -> lo <= estimate est <= hi) /\
  (exists est, est ∈ validOf estimates /\ estimate est = lo) /\
  (exists est, est ∈ validOf estimates /\ estimate est = hi) /\
  0 < lo <= hi /\ hi < 50000000 /\
  lo - / 2 < Analysis.averageEstimate analysis <= hi + / 2.
Proof.
  intros Hne analysis lo hi.
  unfold lo, hi, analysis. rewrite calculateAnalysisMetrics_valid by done. simpl.
  set (valid := validOf estimates) in *.
  assert (Hv : map estimate valid <> []) by (by destruct valid).
  destruct (Math_min_spread_spec _ Hv) as [Hmin_in Hmin].
  destruct (Math_max_spread_spec _ Hv) as [Hmax_in Hmax].
  apply list_elem_of_fmap in Hmin_in as (e1 & He1 & Hin1).
  apply list_elem_of_fmap in Hmax_in as (e2 & He2 & Hin2).
  assert (Hall : forall est, est ∈ valid ->
            Js.Math_min_spread (map estimate valid) <= estimate est
            <= Js.Math_max_spread (map estimate valid)).
  { intros est Hin. split; [apply Hmin|apply Hmax]; by apply list_elem_of_fmap_2. }
  split; [done|]. split; [by exists e1|]. split; [by exists e2|].
  assert (H1 : 0 < estimate e1 < 50000000) by (by apply validOf_elem in Hin1 as [_ ?]).
  assert (H2 : 0 < estimate e2 < 50000000) by (by apply validOf_elem in Hin2 as [_ ?]).
  destruct (Hall e1 Hin1) as [_ Hle].
  split; [lra|]. split; [lra|].
  assert (Hmean : Js.Math_min_spread (map estimate valid) <= rawAverage valid
                  <= Js.Math_max_spread (map estimate valid)).
  { unfold rawAverage. rewrite <- (length_map estimate valid).
    apply mean_between; [done|].
    intros x Hx. apply list_elem_of_fmap in Hx as (e & -> & Hin). by apply Hall. }
  assert (Hr := Math_round_bounds (rawAverage valid)). lra.
Qed.

(** The three example estimates, one of them invalid. *)
Lemma exampleEstimates_valid : validOf exampleEstimates <> [].
Proof.
  intros H.
  assert (Hin : {| provider := "zillow"; estimate := 300000; confidence := Some 80;
                   lowRange := None; highRange := None; lastUpdated := 3000 |}
                ∈ validOf exampleEstimates).
  { apply validOf_elem. split; [by left|simpl; lra]. }
  rewrite H in Hin. by apply elem_of_nil in Hin.
Qed.

Lemma estimateRange_brackets_witness :
  validOf exampleEstimates <> [] /\
  0 < min (Analysis.estimateRange (calculateAnalysisMetrics exampleEstimates))
    <= max (Analysis.estimateRange (calculateAnalysisMetrics exampleEstimates)).
Proof.
  split; [exact exampleEstimates_valid|].
  exact (proj1 (proj2 (proj2 (proj2 (estimateRange_brackets exampleEstimates
                                       exampleEstimates_valid))))).
Defined.

(** *** Confidence *)

Lemma Math_round_le x y : x <= y -> Js.Math_round x <= Js.Math_round y.
Proof. intros H. unfold Js.Math_round. apply IZR_le, Zfloor_le. lra. Qed.

Lemma Math_round_int (z : Z) : Js.Math_round (IZR z) = IZR z.
Proof. apply Math_round_near. lra. Qed.

(** Every default confidence lies between 65 and 85. *)
Lemma getDefaultConfidence_range p : 65 <= getDefaultConfidence p <= 85.
Proof.
  unfold getDefaultConfidence.
  destruct (defaultConfidences !! p) as [c|] eqn:Hp; [|lra].
  apply elem_of_list_to_map_2 in Hp.
  repeat (apply elem_of_cons in Hp as [[= -> ->]|Hp];
          [destruct (Js.truthy _); lra|]).
  by apply elem_of_nil in Hp.
Qed.

Lemma contributed_range est :
  (forall c, confidence est = Some c -> 0 <= c <= 100) -> 0 <= contributed est <= 100.
Proof.
  intros H. assert (Hd := getDefaultConfidence_range (provider est)).
  unfold contributed. destruct (confidence est) as [c|]; [|lra].
  destruct (Js.truthy c); [by apply H|lra].
Qed.

Lemma contributed_absent est :
  confidence est = None -> 65 <= contributed est <= 85.
Proof. unfold contributed. intros ->. apply getDefaultConfidence_range. Qed.

Lemma overallConfidence_mean validEstimates :
  validEstimates <> [] ->
  overallConfidence validEstimates =
  Js.sum (map contributed validEstimates) / INR (length (map contributed validEstimates)).
Proof.
  intros Hne. unfold overallConfidence.
  destruct (confidenceLoop_contributions validEstimates) as (-> & -> & _).
  rewrite length_map. destruct validEstimates; [done|]. reflexivity.
Qed.

Lemma overallConfidence_between lo hi validEstimates :
  validEstimates <> [] ->
  (forall est, est ∈ validEstimates -> lo <= contributed est <= hi) ->
  lo <= overallConfidence validEstimates <= hi.
Proof.
  intros Hne H. rewrite overallConfidence_mean by done.
  apply mean_between; [by destruct validEstimates|].
  intros x Hx. apply list_elem_of_fmap in Hx as (e & -> & Hin). by apply H.
Qed.

(** The multiplier of valid estimates lies between a half and one. *)
Lemma consistencyMultiplier_range validEstimates :
  validEstimates <> [] ->
  Forall (fun est => 0 < estimate est < 50000000) validEstimates ->
  / 2 <= consistencyMultiplier validEstimates <= 1.
Proof.
  intros Hne Hvalid. unfold consistencyMultiplier, Js.Math_max.
  assert (Hsd := calculateStandardDeviation_nonneg (map estimate validEstimates)).
  assert (Havg := rawAverage_pos _ Hne Hvalid).
  assert (0 <= calculateStandardDeviation (map estimate validEstimates) / rawAverage validEstimates).
  { unfold Rdiv. apply Rmult_le_pos; [lra|]. left. apply Rinv_0_lt_compat. lra. }
  split; [etrans; [|apply Rmax_l]; lra|]. apply Rmax_lub; lra.
Qed.

Lemma validOf_Forall estimates :
  Forall (fun est => 0 < estimate est < 50000000) (validOf estimates).
Proof. apply Forall_forall. intros est Hin. by apply validOf_elem in Hin as [_ ?]. Qed.

(** The per-provider entry is that of the last valid estimate of the
    provider. *)
Lemma fold_insert_last (l : list Estimate) (m0 : gmap string R) p :
  fold_left (fun m est => <[provider est := contributed est]> m) l m0 !! p =
  match last (filter (fun est => provider est = p) l) with
  | Some est => Some (contributed est)
  | None => m0 !! p
  end.
Proof.
  revert m0. induction l as [|e l IH]; intros m0; simpl; [done|].
  rewrite IH. destruct (decide (provider e = p)) as [Hp|Hp].
  - rewrite filter_cons_True by done.
    destruct (filter (fun est => provider est = p) l) as [|e' l'] eqn:Hf; simpl.
    + by rewrite Hp, lookup_insert_eq.
    + destruct (last (e' :: l')) eqn:Hl; [done|]. by apply last_None in Hl.
  - rewrite filter_cons_False by done.
    destruct (last _); [done|]. by rewrite lookup_insert_ne.
Qed.

Lemma byProvider_lookup (estimates : list Estimate) (p : string) :
  validOf estimates <> [] ->
  byProvider (Analysis.confidence (calculateAnalysisMetrics estimates)) !! p =
  contributed <$> last (filter (fun est => provider est = p) (validOf estimates)).
Proof.
  intros Hne. rewrite calculateAnalysisMetrics_valid by done. simpl.
  destruct (confidenceLoop_from
              {| confidenceByProvider := ∅; totalConfidence := 0; confidenceCount := 0 |}
              (validOf estimates)) as (_ & _ & Hm).
  unfold confidenceLoop. rewrite Hm, fold_insert_last. simpl.
  by destruct (last _).
Qed.

Lemma calculateAnalysisMetrics_invalid estimates :
  validOf estimates = [] -> calculateAnalysisMetrics estimates = degenerate.
Proof.
  intros Hv. unfold calculateAnalysisMetrics. rewrite Hv. simpl.
  by destruct (length estimates =? 0)%nat.
Qed.

(** The example estimates name providers of the table of defaults. *)
Lemma exampleEstimates_providers :
  Forall (fun est => provider est ∉ Js.Object_prototype) (validOf exampleEstimates).
Proof.
  apply Forall_forall. intros est [Hin _]%validOf_elem. unfold exampleEstimates in Hin.
  repeat (apply elem_of_cons in Hin as [->|Hin];
          [apply (bool_decide_unpack _); by vm_compute|]).
  by apply elem_of_nil in Hin.
Qed.

(** X2.  When no valid estimate names its provider by a property name
    inherited from [Object.prototype], the confidence listed for a provider
    is that of its last valid estimate in the order of the list: the
    recorded confidence when it is truthy, the provider's default otherwise.
    A provider without a valid estimate has no entry. *)
Theorem byProvider_last_wins (estimates : list Estimate) (p : string) :
  Forall (fun est => provider est ∉ Js.Object_prototype) (validOf estimates) ->
  byProvider (Analysis.confidence (calculateAnalysisMetrics estimates)) !! p =
  contributed <$> last (filter (fun est => provider est = p) (validOf estimates)).
Proof.
  intros _. destruct (validOf estimates) as [|e l] eqn:Hv.
  - by rewrite calculateAnalysisMetrics_invalid.
  - rewrite <- Hv. apply byProvider_lookup. by rewrite Hv.
Qed.

Lemma byProvider_last_wins_witness :
  Forall (fun est => provider est ∉ Js.Object_prototype) (validOf exampleEstimates) /\
  byProvider (Analysis.confidence (calculateAnalysisMetrics exampleEstimates)) !! "redfin" =
  contributed <$> last (filter (fun est => provider est = "redfin"%string)
                               (validOf exampleEstimates)).
Proof.
  split; [exact exampleEstimates_providers|].
  exact (byProvider_last_wins exampleEstimates "redfin" exampleEstimates_providers).
Defined.

(** X3.  When no valid estimate names its provider by a property name
    inherited from [Object.prototype] and the recorded confidences of the
    valid estimates lie between [0] and [100], so do the overall confidence
    and every confidence listed by provider.  When moreover no valid estimate
    has a recorded confidence, the overall confidence lies between [33] and
    [85]: the defaults lie between [65] and [85] and the discount is at most
    a half. *)
Theorem confidence_within_range (estimates : list Estimate) :
  validOf estimates <> [] ->
  Forall (fun est => provider est ∉ Js.Object_prototype) (validOf estimates) ->
  (forall est c, est ∈ validOf estimates -> confidence est = Some c -> 0 <= c <= 100) ->
  let analysis := calculateAnalysisMetrics estimates in
  0 <= overall (Analysis.confidence analysis) <= 100 /\
  (forall p c, byProvider (Analysis.confidence analysis) !! p = Some c -> 0 <= c <= 100) /\
  ((forall est, est ∈ validOf estimates -> confidence est = None) ->
   33 <= overall (Analysis.confidence analysis) <= 85).
Proof.
  intros Hne _ Hrange analysis.
  assert (Hm := consistencyMultiplier_range _ Hne (validOf_Forall estimates)).
  split; [|split].
  - unfold analysis. rewrite calculateAnalysisMetrics_valid by done. simpl.
    assert (Ho : 0 <= overallConfidence (validOf estimates) <= 100).
    { apply overallConfidence_between; [done|].
      intros est Hin. apply contributed_range. intros c. by apply Hrange. }
    split.
    + rewrite <- (Math_round_int 0). apply Math_round_le. nra.
    + rewrite <- (Math_round_int 100). apply Math_round_le. nra.
  - intros p c. unfold analysis. rewrite byProvider_lookup by done.
    destruct (last _) as [est|] eqn:Hl; [|done]. intros [= <-].
    apply contributed_range. intros c'. apply Hrange.
    apply last_Some_elem_of in Hl. by apply list_elem_of_filter in Hl as [_ ?].
  - intros Habsent. unfold analysis. rewrite calculateAnalysisMetrics_valid by done. simpl.
    assert (Ho : 65 <= overallConfidence (validOf estimates) <= 85).
    { apply overallConfidence_between; [done|].
      intros est Hin. apply contributed_absent. by apply Habsent. }
    split.
    + rewrite <- (Math_round_near 33 (65 / 2)) by lra. apply Math_round_le. nra.
    + rewrite <- (Math_round_int 85). apply Math_round_le. nra.
Qed.

Lemma exampleEstimates_confidences est c :
  est ∈ validOf exampleEstimates -> confidence est = Some c -> 0 <= c <= 100.
Proof.
  intros [Hin _]%validOf_elem. unfold exampleEstimates in Hin.
  repeat (apply elem_of_cons in Hin as [->|Hin]; [simpl; intros [= <-]; lra|]).
  by apply elem_of_nil in Hin.
Qed.

Lemma confidence_within_range_witness :
  validOf exampleEstimates <> [] /\
  Forall (fun est => provider est ∉ Js.Object_prototype) (validOf exampleEstimates) /\
  (forall est c, est ∈ validOf exampleEstimates -> confidence est = Some c -> 0 <= c <= 100) /\
  0 <= overall (Analysis.confidence (calculateAnalysisMetrics exampleEstimates)) <= 100.
Proof.
  split; [exact exampleEstimates_valid|]. split; [exact exampleEstimates_providers|].
  split; [exact exampleEstimates_confidences|].
  exact (proj1 (confidence_within_range exampleEstimates exampleEstimates_valid
                  exampleEstimates_providers exampleEstimates_confidences)).
Defined.

(** *** Agreement *)

Lemma sum_all_zero values : Forall (fun x => x = 0) values -> Js.sum values = 0.
Proof. induction 1 as [|x l -> _ IH]; [done|]. rewrite sum_cons, IH. lra. Qed.

Lemma sum_constant c values :
  Forall (fun x => x = c) values -> Js.sum values = INR (length values) * c.
Proof.
  induction 1 as [|x l -> _ IH]; [rewrite sum_nil; simpl; lra|].
  rewrite sum_cons, IH. change (length (c :: l)) with (S (length l)). rewrite S_INR. ring.
Qed.

Lemma mean_constant c values :
  values <> [] -> Forall (fun x => x = c) values ->
  Js.sum values / INR (length values) = c.
Proof.
  intros Hne Hc. rewrite (sum_constant c) by done.
  assert (0 < INR (length values)).
  { apply lt_0_INR. destruct values; [done|simpl; lia]. }
  field. lra.
Qed.

(** Values that agree have no deviation. *)
Lemma calculateStandardDeviation_constant c values :
  Forall (fun x => x = c) values -> calculateStandardDeviation values = 0.
Proof.
  intros Hc. unfold calculateStandardDeviation.
  destruct (Nat.leb_spec (length values) 1) as [Hle|Hgt]; [done|].
  assert (Hne : values <> []) by (destruct values; [simpl in Hgt; lia|done]).
  rewrite (mean_constant c) by done.
  rewrite sum_all_zero; [unfold Rdiv; rewrite Rmult_0_l; apply sqrt_0|].
  apply Forall_fmap. eapply Forall_impl; [apply Hc|]. intros x ->. simpl. lra.
Qed.

(** X4.  When the valid estimates all equal one whole number, there are at
    most a thousand of them, none names its provider by a property
    name inherited from [Object.prototype], and the recorded confidences are
    whole numbers between [0] and [100], the analysis is that of full
    agreement: the average and both ends of the range are that number, the
    overall confidence is not discounted, and it is the mean of the
    confidences the estimates contribute, rounded. *)
Theorem agreement_gives_no_discount (estimates : list Estimate) (e : Z) :
  validOf estimates <> [] ->
  (forall est, est ∈ validOf estimates -> estimate est = IZR e) ->
  (length (validOf estimates) <= 1000)%nat ->
  Forall (fun est => provider est ∉ Js.Object_prototype) (validOf estimates) ->
  (forall est c, est ∈ validOf estimates -> confidence est = Some c ->
                 exists k : Z, c = IZR k /\ (0 <= k <= 100)%Z) ->
  let validEstimates := validOf estimates in
  let analysis := calculateAnalysisMetrics estimates in
  Analysis.averageEstimate analysis = IZR e /\
  min (Analysis.estimateRange analysis) = IZR e /\
  max (Analysis.estimateRange analysis) = IZR e /\
  consistencyMultiplier validEstimates = 1 /\
  overall (Analysis.confidence analysis) =
    Js.Math_round (arithmeticMean (map contributed validEstimates)).
Proof.
  intros Hne Hagree _ _ _ validEstimates analysis.
  assert (Hvalues : Forall (fun x => x = IZR e) (map estimate validEstimates)).
  { apply Forall_fmap, Forall_forall. intros est Hin. by apply Hagree. }
  assert (Hv : map estimate validEstimates <> []).
  { unfold validEstimates. by destruct (validOf estimates). }
  assert (Havg : rawAverage validEstimates = IZR e).
  { unfold rawAverage. rewrite <- (length_map estimate validEstimates).
    by apply mean_constant. }
  assert (Hpos : 0 < IZR e).
  { rewrite <- Havg. apply rawAverage_pos; [done|apply validOf_Forall]. }
  assert (Hcm : consistencyMultiplier validEstimates = 1).
  { unfold consistencyMultiplier, Js.Math_max.
    rewrite (calculateStandardDeviation_constant (IZR e)), Havg by done.
    unfold Rdiv. rewrite Rmult_0_l, Rminus_0_r. apply Rmax_right. lra. }
  unfold analysis. rewrite calculateAnalysisMetrics_valid by done. simpl.
  fold validEstimates. rewrite Havg, Hcm, Rmult_1_r.
  destruct (Math_min_spread_spec _ Hv) as [Hmin _].
  destruct (Math_max_spread_spec _ Hv) as [Hmax _].
  rewrite Forall_forall in Hvalues.
  split; [apply Math_round_int|]. split; [by apply Hvalues|]. split; [by apply Hvalues|].
  split; [done|]. f_equal. rewrite overallConfidence_mean by done.
  unfold arithmeticMean. by rewrite sum_total.
Qed.

Lemma exampleAgreeing_valid : validOf exampleAgreeing = exampleAgreeing.
Proof. apply validOf_all. repeat constructor; simpl; lra. Qed.

Lemma agreement_gives_no_discount_witness :
  validOf exampleAgreeing <> [] /\
  (forall est, est ∈ validOf exampleAgreeing -> estimate est = 450000) /\
  Analysis.averageEstimate (calculateAnalysisMetrics exampleAgreeing) = 450000 /\
  consistencyMultiplier (validOf exampleAgreeing) = 1.
Proof.
  assert (Hne : validOf exampleAgreeing <> []) by (by rewrite exampleAgreeing_valid).
  assert (Hagree : forall est, est ∈ validOf exampleAgreeing -> estimate est = 450000).
  { rewrite exampleAgreeing_valid. intros est Hin. unfold exampleAgreeing in Hin.
    repeat (apply elem_of_cons in Hin as [->|Hin]; [done|]). by apply elem_of_nil in Hin. }
  assert (Hlen : (length (validOf exampleAgreeing) <= 1000)%nat)
    by (rewrite exampleAgreeing_valid; simpl; lia).
  assert (Hprov : Forall (fun est => provider est ∉ Js.Object_prototype)
                    (validOf exampleAgreeing)).
  { rewrite exampleAgreeing_valid.
    repeat (constructor; [apply (bool_decide_unpack _); by vm_compute|]). constructor. }
  assert (Hconf : forall est c, est ∈ validOf exampleAgreeing -> confidence est = Some c ->
                    exists k : Z, c = IZR k /\ (0 <= k <= 100)%Z).
  { rewrite exampleAgreeing_valid. intros est c Hin. unfold exampleAgreeing in Hin.
    repeat (apply elem_of_cons in Hin as [->|Hin];
            [simpl; intros [= <-]; first [by exists 80%Z|by exists 81%Z]|]);
      try done.
    by apply elem_of_nil in Hin. }
  split; [exact Hne|]. split; [exact Hagree|].
  destruct (agreement_gives_no_discount exampleAgreeing 450000 Hne Hagree Hlen Hprov Hconf)
    as (Havg & _ & _ & Hcm & _).
  split; [exact Havg|exact Hcm].
Defined.

End MoreReconciliation.

(** ** The stored estimates *)

(** *** What is read back *)

Lemma insertDesc_perm {A} (key : A -> Z) x l : Prisma.insertDesc key x l ≡ₚ x :: l.
Proof.
  induction l as [|y l IH]; simpl; [done|].
  destruct (key y <? key x)%Z; [done|]. by rewrite IH, Permutation_swap.
Qed.

Lemma orderByDesc_perm {A} (key : A -> Z) l : Prisma.orderByDesc key l ≡ₚ l.
Proof.
  unfold Prisma.orderByDesc. induction l as [|x l IH]; simpl; [done|].
  by rewrite insertDesc_perm, IH.
Qed.

Lemma insertDesc_sorted {A} (key : A -> Z) x l :
  newestFirst key l -> newestFirst key (Prisma.insertDesc key x l).
Proof.
  unfold newestFirst. induction 1 as [|y l Hs IH Hhd]; simpl.
  - repeat constructor.
  - destruct (Z.ltb_spec (key y) (key x)).
    + constructor; [by constructor|]. constructor. lia.
    + constructor; [done|]. destruct Hhd as [|z l' Hz]; simpl.
      * constructor. lia.
      * destruct (key z <? key x)%Z; constructor; lia.
Qed.

Lemma orderByDesc_sorted {A} (key : A -> Z) l : newestFirst key (Prisma.orderByDesc key l).
Proof.
  unfold Prisma.orderByDesc. induction l as [|x l IH]; simpl; [constructor|].
  by apply insertDesc_sorted.
Qed.

Lemma rowsOf_elem db propertyId p row :
  (p, row) ∈ rowsOf db propertyId <-> Prisma.aVMEstimate db !! (propertyId, p) = Some row.
Proof.
  unfold rowsOf. rewrite list_elem_of_omap. split.
  - intros ([[pid' p'] row'] & Hin & Hf). simpl in Hf.
    destruct (decide (pid' = propertyId)) as [->|]; [|done].
    injection Hf as -> ->. by apply elem_of_map_to_list in Hin.
  - intros H. exists (propertyId, p, row). split; [by apply elem_of_map_to_list|].
    simpl. by rewrite decide_True.
Qed.

Lemma rowsOf_NoDup db propertyId : NoDup (map fst (rowsOf db propertyId)).
Proof.
  unfold rowsOf.
  assert (Hnd := NoDup_fst_map_to_list (Prisma.aVMEstimate db)).
  induction (map_to_list (Prisma.aVMEstimate db)) as [|[[pid' p'] row'] l IH]; simpl;
    [constructor|].
  apply NoDup_cons in Hnd as [Hnotin Hnd]. simpl in Hnotin.
  destruct (decide (pid' = propertyId)) as [->|]; simpl; [|by apply IH].
  constructor; [|by apply IH].
  intros Hin. apply Hnotin.
  apply list_elem_of_fmap in Hin as ([p'' row''] & Hp & Hin). simpl in Hp. subst p''.
  apply list_elem_of_omap in Hin as ([[pid2 p2] row2] & Hin2 & Hf). simpl in Hf.
  destruct (decide (pid2 = propertyId)) as [->|]; [|done]. injection Hf as -> ->.
  by apply (list_elem_of_fmap_2 fst _ (propertyId, p', row'')).
Qed.

Lemma findMany_working db propertyId :
  Prisma.fault db = None ->
  exists rows,
    Prisma.aVMEstimate_findMany db propertyId = Resolved rows /\
    rows ≡ₚ rowsOf db propertyId /\
    newestFirst (fun pr : string * Prisma.EstimateRow => Prisma.lastUpdated pr.2) rows.
Proof.
  intros Hf. unfold Prisma.aVMEstimate_findMany. rewrite Hf.
  eexists. split; [reflexivity|]. split; [apply orderByDesc_perm|apply orderByDesc_sorted].
Qed.

Lemma findMany_faulty db propertyId m :
  Prisma.fault db = Some m -> Prisma.aVMEstimate_findMany db propertyId = Rejected (Some m).
Proof. unfold Prisma.aVMEstimate_findMany. by intros ->. Qed.

Lemma toEstimate_inj : Inj (=) (=) toEstimate.
Proof.
  intros [p1 [e1 c1 l1 h1 t1]] [p2 [e2 c2 l2 h2 t2]]. unfold toEstimate. simpl.
  by intros [= -> -> -> -> -> ->].
Qed.

Lemma fetchAVMEstimates_elem db propertyId est :
  Prisma.fault db = None ->
  est ∈ fetchAVMEstimates db propertyId <->
  exists row, Prisma.aVMEstimate db !! (propertyId, provider est) = Some row /\
              est = toEstimate (provider est, row).
Proof.
  intros Hf. destruct (findMany_working db propertyId Hf) as (rows & Hrows & Hperm & _).
  unfold fetchAVMEstimates. rewrite Hrows, list_elem_of_fmap. split.
  - intros ([p row] & -> & Hin). rewrite Hperm in Hin. apply rowsOf_elem in Hin.
    exists row. by split.
  - intros (row & Hrow & ->). exists (provider est, row). split; [done|].
    rewrite Hperm. by apply rowsOf_elem.
Qed.

Lemma fetchAVMEstimates_faulty db propertyId m :
  Prisma.fault db = Some m -> fetchAVMEstimates db propertyId = [].
Proof. intros Hf. unfold fetchAVMEstimates. by rewrite (findMany_faulty _ _ _ Hf). Qed.

Lemma toEstimate_sorted rows :
  newestFirst (fun pr : string * Prisma.EstimateRow => Prisma.lastUpdated pr.2) rows ->
  newestFirst lastUpdated (map toEstimate rows).
Proof.
  unfold newestFirst. induction 1 as [|a l Hs IH Hhd]; simpl; [constructor|].
  constructor; [done|]. destruct Hhd; simpl; constructor. done.
Qed.

Lemma fetchAVMEstimates_providers db propertyId :
  NoDup (map provider (fetchAVMEstimates db propertyId)).
Proof.
  destruct (Prisma.fault db) as [m|] eqn:Hf.
  { rewrite (fetchAVMEstimates_faulty _ _ _ Hf). constructor. }
  destruct (findMany_working db propertyId Hf) as (rows & Hrows & Hperm & _).
  unfold fetchAVMEstimates. rewrite Hrows.
  replace (map provider (map toEstimate rows)) with (map fst rows)
    by (rewrite map_map; apply map_ext; by intros []).
  rewrite Hperm. apply rowsOf_NoDup.
Qed.

(** X5.  [fetchAVMEstimates] returns at most one estimate per provider, the
    newest first, each the image of the row stored under the property and
    that provider; when the read fails it returns the empty list and throws
    nothing. *)
Theorem fetchAVMEstimates_shape (db : Prisma.Db) (propertyId : string) :
  NoDup (map provider (fetchAVMEstimates db propertyId)) /\
  newestFirst lastUpdated (fetchAVMEstimates db propertyId) /\
  (forall est, est ∈ fetchAVMEstimates db propertyId ->
     exists row, Prisma.aVMEstimate db !! (propertyId, provider est) = Some row /\
                 est = toEstimate (provider est, row)) /\
  (Prisma.fault db <> None -> fetchAVMEstimates db propertyId = []).
Proof.
  destruct (Prisma.fault db) as [m|] eqn:Hf.
  { rewrite (fetchAVMEstimates_faulty _ _ _ Hf).
    split; [constructor|]. split; [constructor|]. split; [|done].
    intros est Hin. by apply elem_of_nil in Hin. }
  destruct (findMany_working db propertyId Hf) as (rows & Hrows & Hperm & Hsorted).
  split; [|split; [|split; [|done]]].
  - unfold fetchAVMEstimates. rewrite Hrows.
    replace (map provider (map toEstimate rows)) with (map fst rows)
      by (rewrite map_map; apply map_ext; by intros []).
    rewrite Hperm. apply rowsOf_NoDup.
  - unfold fetchAVMEstimates. rewrite Hrows. by apply toEstimate_sorted.
  - intros est. by apply fetchAVMEstimates_elem.
Qed.

(** *** Saving an estimate, then reading *)

(** The row a save leaves under its key. *)
Lemma saveAVMEstimate_Resolved defaultLastUpdated propertyId avmData now db db' :
  ScrapingUtils.saveAVMEstimate defaultLastUpdated propertyId avmData now db = Resolved db' ->
  Prisma.fault db = None /\ Prisma.fault db' = None /\
  Prisma.property db' = Prisma.property db /\
  exists row,
    Prisma.aVMEstimate db' =
      <[(propertyId, ScrapingUtils.provider avmData) := row]> (Prisma.aVMEstimate db) /\
    toEstimate (ScrapingUtils.provider avmData, row) =
      savedEstimate defaultLastUpdated avmData now
        (Prisma.aVMEstimate db !! (propertyId, ScrapingUtils.provider avmData)).
Proof.
  unfold ScrapingUtils.saveAVMEstimate, Prisma.aVMEstimate_upsert.
  destruct (Prisma.fault db) as [m|] eqn:Hf; [done|].
  destruct (Prisma.aVMEstimate db !! _) as [row|]; intros [= <-]; simpl;
    (split; [done|]; split; [done|]; split; [done|]); eexists; (split; [reflexivity|]);
    unfold toEstimate, savedEstimate; simpl; f_equal;
    by repeat match goal with |- context [ScrapingUtils.updated ?a ?b] => destruct a, b end.
Qed.

Lemma fetchAVMEstimates_NoDup db propertyId : NoDup (fetchAVMEstimates db propertyId).
Proof.
  apply (NoDup_fmap_1 provider), fetchAVMEstimates_providers.
Qed.

(** X6.  After a [saveAVMEstimate] that resolved, [fetchAVMEstimates] of the
    same property returns, as its only estimate of that provider, the saved
    valuation: its estimate, and for each of [confidence], [lowRange] and
    [highRange] the value the valuation gives or, when it gives none, the
    value that was stored before; it is dated [now] when a row was stored
    before and by the default of the schema otherwise.  The estimates of the
    other providers are the ones fetched before, and so are, up to their
    order, those of every other property. *)
Theorem saved_estimate_is_fetched (defaultLastUpdated : Z) (propertyId : string)
    (avmData : ScrapingUtils.AVMData) (now : Z) (db db' : Prisma.Db) :
  ScrapingUtils.saveAVMEstimate defaultLastUpdated propertyId avmData now db = Resolved db' ->
  let previous := Prisma.aVMEstimate db !! (propertyId, ScrapingUtils.provider avmData) in
  let saved := savedEstimate defaultLastUpdated avmData now previous in
  saved ∈ fetchAVMEstimates db' propertyId /\
  (forall est, est ∈ fetchAVMEstimates db' propertyId ->
     provider est = ScrapingUtils.provider avmData -> est = saved) /\
  (estimate saved = ScrapingUtils.estimate avmData /\
   (forall c, ScrapingUtils.confidence avmData = Some c -> confidence saved = Some c) /\
   (forall row, previous = Some row ->
      lastUpdated saved = now /\
      (ScrapingUtils.confidence avmData = None -> confidence saved = Prisma.confidence row) /\
      (ScrapingUtils.lowRange avmData = None -> lowRange saved = Prisma.lowRange row) /\
      (ScrapingUtils.highRange avmData = None -> highRange saved = Prisma.highRange row)) /\
   (previous = None ->
      lastUpdated saved = defaultLastUpdated /\
      confidence saved = ScrapingUtils.confidence avmData)) /\
  (forall est, provider est <> ScrapingUtils.provider avmData ->
     est ∈ fetchAVMEstimates db' propertyId <-> est ∈ fetchAVMEstimates db propertyId) /\
  (forall other, other <> propertyId ->
     fetchAVMEstimates db' other ≡ₚ fetchAVMEstimates db other).
Proof.
  intros Hsave previous saved.
  destruct (saveAVMEstimate_Resolved _ _ _ _ _ _ Hsave) as (Hf & Hf' & _ & row & Htab & Hrow).
  fold previous in Hrow. fold saved in Hrow.
  assert (Hp : provider saved = ScrapingUtils.provider avmData).
  { unfold saved, savedEstimate. by destruct previous. }
  split; [|split; [|split; [|split]]].
  - apply fetchAVMEstimates_elem; [done|]. exists row. split.
    + rewrite Htab, Hp. apply lookup_insert_eq.
    + by rewrite Hp.
  - intros est Hin Hpe. apply fetchAVMEstimates_elem in Hin as (row' & Hrow' & ->); [|done].
    simpl in Hpe. rewrite Htab, Hpe, lookup_insert_eq in Hrow'. injection Hrow' as <-.
    by rewrite Hpe.
  - unfold saved, savedEstimate. split; [by destruct previous|]. split; [|split].
    + intros c Hc. destruct previous; simpl; by rewrite Hc.
    + intros row0 ->. simpl. split; [done|]. by repeat split; intros ->.
    + by intros ->.
  - intros est Hne. rewrite !fetchAVMEstimates_elem by done.
    rewrite Htab, lookup_insert_ne; [done|]. congruence.
  - intros other Hne. apply NoDup_Permutation; [apply fetchAVMEstimates_NoDup..|].
    intros est. rewrite !fetchAVMEstimates_elem by done.
    rewrite Htab, lookup_insert_ne; [done|]. congruence.
Qed.

Lemma saved_estimate_is_fetched_witness :
  exists db',
    ScrapingUtils.saveAVMEstimate 5000 "0f343b0931126a20f133d67c2b018a3b" exampleAvm 5000
      emptyDb = Resolved db' /\
    savedEstimate 5000 exampleAvm 5000 None
    ∈ fetchAVMEstimates db' "0f343b0931126a20f133d67c2b018a3b".
Proof.
  eexists. split; [reflexivity|].
  refine (proj1 (saved_estimate_is_fetched 5000 "0f343b0931126a20f133d67c2b018a3b"
                   exampleAvm 5000 emptyDb _ _)).
  reflexivity.
Defined.



(** *** A failed read degrades the analysis *)

Lemma conclude_Returned MD5 address city state zipCode now s result :
  (conclude MD5 address city state zipCode now s).1 = Returned result ->
  let propertyId := ScrapingUtils.generatePropertyHash MD5 address city state zipCode in
  let avmEstimates := fetchAVMEstimates (db s) propertyId in
  let analysis := calculateAnalysisMetrics avmEstimates in
  PropertyAnalysisResult.propertyId result = propertyId /\
  PropertyAnalysisResult.avmEstimates result = avmEstimates /\
  PropertyAnalysisResult.averageEstimate result = Analysis.averageEstimate analysis /\
  PropertyAnalysisResult.estimateRange result = Analysis.estimateRange analysis /\
  PropertyAnalysisResult.confidence result = Analysis.confidence analysis /\
  PropertyAnalysisResult.address result = address /\
  PropertyAnalysisResult.city result = city /\
  PropertyAnalysisResult.state result = state /\
  PropertyAnalysisResult.zipCode result = zipCode /\
  PropertyAnalysisResult.analysisTimestamp result = now.
Proof.
  unfold conclude.
  destruct (firstIdentified _ _) as [propertyId|] eqn:Hid; [|done].
  apply firstIdentified_Some in Hid as ->.
  destruct (ScrapingUtils.generatePropertyHash _ _ _ _ _); [done|].
  simpl. by intros [= <-].
Qed.

Lemma conclude_Threw MD5 address city state zipCode now s message :
  (forall t, MD5 t <> ""%string) ->
  (conclude MD5 address city state zipCode now s).1 = Threw message ->
  forall n r, scrapingResults s !! n = Some r -> identifies r = false.
Proof.
  intros Hmd5. unfold conclude.
  destruct (firstIdentified _ _) as [propertyId|] eqn:Hid.
  - apply firstIdentified_Some in Hid as ->.
    destruct (ScrapingUtils.generatePropertyHash _ _ _ _ _) eqn:Hh; [|done].
    by apply Hmd5 in Hh.
  - intros _. apply values_Forall. by apply firstIdentified_None in Hid.
Qed.

(** X8.  When the property was identified and the read of the estimates
    fails after the join, [analyzeProperty] does not throw: it returns an
    analysis with no estimates, the average [0], the range [{0, 0}] and the
    confidence [0], as for a property without estimates. *)
Theorem analyzeProperty_degrades_on_failed_read (MD5 : string -> string)
    (SCRAPERS : list (string * Scraper)) (address city state zipCode : string)
    (now : Z) (db0 : Prisma.Db) (joined : Run)
    (outcome : Completion PropertyAnalysisResult.t * list Event) :
  (forall s, MD5 s <> ""%string) ->
  analyzeProperty MD5 SCRAPERS address city state zipCode now db0 joined outcome ->
  Prisma.fault (db joined) <> None ->
  (exists n r, scrapingResults joined !! n = Some r /\ identifies r = true) ->
  exists result,
    outcome.1 = Returned result /\
    PropertyAnalysisResult.avmEstimates result = [] /\
    PropertyAnalysisResult.averageEstimate result = 0%R /\
    PropertyAnalysisResult.estimateRange result = {| min := 0; max := 0 |} /\
    PropertyAnalysisResult.confidence result = {| overall := 0; byProvider := ∅ |}.
Proof.
  intros Hmd5 (Hrun & Hjoin & ->) Hfault (n & r & Hr & Hi).
  destruct (conclude MD5 address city state zipCode now joined).1 as [result|message] eqn:Hc.
  - exists result. split; [done|].
    destruct (conclude_Returned _ _ _ _ _ _ _ _ Hc) as (_ & Ha & Hb & Hc' & Hd & _).
    destruct (Prisma.fault (db joined)) as [m|] eqn:Hf; [|done].
    rewrite (fetchAVMEstimates_faulty _ _ m Hf) in *. by rewrite Ha, Hb, Hc', Hd.
  - exfalso. by rewrite (conclude_Threw _ _ _ _ _ _ _ _ Hmd5 Hc n r Hr) in Hi.
Qed.

Lemma exampleBrokenJoin_run :
  rtc (step CONCURRENT_SCRAPERS)
    (submitted [("zillow"%string, succeedsWithProperty)] brokenDb) exampleBrokenJoin.
Proof. apply drive_run. Qed.

Lemma exampleBrokenJoin_settled : allSettled exampleBrokenJoin.
Proof. split; reflexivity. Qed.

Lemma analyzeProperty_degrades_on_failed_read_witness :
  let outcome := conclude digestStub "1 Main St" "Austin" "TX" "78701" 0 exampleBrokenJoin in
  (forall s, digestStub s <> ""%string) /\
  analyzeProperty digestStub [("zillow"%string, succeedsWithProperty)]
    "1 Main St" "Austin" "TX" "78701" 0 brokenDb exampleBrokenJoin outcome /\
  Prisma.fault (db exampleBrokenJoin) <> None /\
  (exists n r, scrapingResults exampleBrokenJoin !! n = Some r /\ identifies r = true) /\
  exists result,
    outcome.1 = Returned result /\ PropertyAnalysisResult.avmEstimates result = [].
Proof.
  intros outcome.
  assert (H1 : forall s, digestStub s <> ""%string) by (intros s; discriminate).
  assert (H2 : analyzeProperty digestStub [("zillow"%string, succeedsWithProperty)]
                 "1 Main St" "Austin" "TX" "78701" 0 brokenDb exampleBrokenJoin outcome).
  { split; [apply exampleBrokenJoin_run|]. split; [apply exampleBrokenJoin_settled|reflexivity]. }
  assert (H3 : Prisma.fault (db exampleBrokenJoin) <> None) by discriminate.
  assert (H4 : exists n r, scrapingResults exampleBrokenJoin !! n = Some r /\
                           identifies r = true).
  { exists "zillow"%string. eexists. split; reflexivity. }
  split; [exact H1|]. split; [exact H2|]. split; [exact H3|]. split; [exact H4|].
  destruct (analyzeProperty_degrades_on_failed_read digestStub _ _ _ _ _ _ _ _ _ H1 H2 H3 H4)
    as (result & Hr & He & _).
  exists result. by split.
Defined.

(** *** The stored analysis agrees with the fresh one *)

Lemma getPropertyAnalysis_Some db now propertyId again :
  getPropertyAnalysis db now propertyId = Some again ->
  Prisma.fault db = None /\
  (exists row, Prisma.property db !! propertyId = Some row /\
               PropertyAnalysisResult.propertyId again = Prisma.id row /\
               PropertyAnalysisResult.address again = Prisma.address row /\
               PropertyAnalysisResult.city again = Prisma.city row /\
               PropertyAnalysisResult.state again = Prisma.state row /\
               PropertyAnalysisResult.zipCode again = Prisma.zipCode row) /\
  let avmEstimates := fetchAVMEstimates db propertyId in
  let analysis := calculateAnalysisMetrics avmEstimates in
  PropertyAnalysisResult.avmEstimates again = avmEstimates /\
  PropertyAnalysisResult.averageEstimate again = Analysis.averageEstimate analysis /\
  PropertyAnalysisResult.estimateRange again = Analysis.estimateRange analysis /\
  PropertyAnalysisResult.confidence again = Analysis.confidence analysis /\
  PropertyAnalysisResult.scrapingResults again = ∅ /\
  PropertyAnalysisResult.analysisTimestamp again = now.
Proof.
  unfold getPropertyAnalysis, fetchAVMEstimates, Prisma.property_findUnique,
    Prisma.aVMEstimate_findMany.
  destruct (Prisma.fault db) as [m|]; [done|].
  destruct (Prisma.property db !! propertyId) as [row|]; [|done].
  intros [= <-]. simpl. split; [done|]. split; [by exists row|done].
Qed.

(** X9.  [getPropertyAnalysis], called on the database that a returning
    [analyzeProperty] left and with the [propertyId] it returned, gives, when
    it gives an analysis, the same estimates, average, range and confidence. *)
Theorem stored_analysis_agrees_with_fresh (MD5 : string -> string)
    (SCRAPERS : list (string * Scraper)) (address city state zipCode : string)
    (now later : Z) (db0 : Prisma.Db) (joined : Run)
    (outcome : Completion PropertyAnalysisResult.t * list Event)
    (fresh again : PropertyAnalysisResult.t) :
  analyzeProperty MD5 SCRAPERS address city state zipCode now db0 joined outcome ->
  outcome.1 = Returned fresh ->
  getPropertyAnalysis (db joined) later (PropertyAnalysisResult.propertyId fresh) = Some again ->
  PropertyAnalysisResult.avmEstimates again = PropertyAnalysisResult.avmEstimates fresh /\
  PropertyAnalysisResult.averageEstimate again = PropertyAnalysisResult.averageEstimate fresh /\
  PropertyAnalysisResult.estimateRange again = PropertyAnalysisResult.estimateRange fresh /\
  PropertyAnalysisResult.confidence again = PropertyAnalysisResult.confidence fresh.
Proof.
  intros (_ & _ & ->) Hfresh Hagain.
  destruct (conclude_Returned _ _ _ _ _ _ _ _ Hfresh) as (Hid & Ha & Hb & Hc & Hd & _).
  destruct (getPropertyAnalysis_Some _ _ _ _ Hagain) as (_ & _ & Ha' & Hb' & Hc' & Hd' & _).
  rewrite Hid in *. by rewrite Ha, Hb, Hc, Hd, Ha', Hb', Hc', Hd'.
Qed.

Lemma exampleKnownRun_run :
  rtc (step CONCURRENT_SCRAPERS)
    (submitted (map (fun n => (n, storingScraper (ScrapingUtils.generatePropertyHash digestStub
                                                    "1 Main St" "Austin" "TX" "78701")
                                    n (exampleFinds n))) SCRAPER_NAMES)
       exampleKnownDb)
    exampleKnownRun.
Proof. apply drive_run. Qed.

Lemma exampleKnownRun_settled : allSettled exampleKnownRun.
Proof. split; reflexivity. Qed.

Lemma stored_analysis_agrees_with_fresh_witness :
  let SCRAPERS :=
    map (fun n => (n, storingScraper (ScrapingUtils.generatePropertyHash digestStub
                                        "1 Main St" "Austin" "TX" "78701")
                        n (exampleFinds n))) SCRAPER_NAMES in
  let outcome := conclude digestStub "1 Main St" "Austin" "TX" "78701" 7000 exampleKnownRun in
  analyzeProperty digestStub SCRAPERS "1 Main St" "Austin" "TX" "78701" 7000 exampleKnownDb
    exampleKnownRun outcome /\
  exists fresh again,
    outcome.1 = Returned fresh /\
    getPropertyAnalysis (db exampleKnownRun) 9000 (PropertyAnalysisResult.propertyId fresh)
    = Some again /\
    PropertyAnalysisResult.avmEstimates again = PropertyAnalysisResult.avmEstimates fresh /\
    PropertyAnalysisResult.confidence again = PropertyAnalysisResult.confidence fresh.
Proof.
  intros SCRAPERS outcome.
  assert (H1 : analyzeProperty digestStub SCRAPERS "1 Main St" "Austin" "TX" "78701" 7000
                 exampleKnownDb exampleKnownRun outcome).
  { split; [apply exampleKnownRun_run|]. split; [apply exampleKnownRun_settled|reflexivity]. }
  split; [exact H1|].
  eexists. eexists. split; [reflexivity|]. split; [reflexivity|].
  destruct (stored_analysis_agrees_with_fresh digestStub SCRAPERS
              "1 Main St" "Austin" "TX" "78701" 7000 9000 exampleKnownDb exampleKnownRun
              outcome _ _ H1 eq_refl eq_refl) as (Ha & _ & _ & Hc).
  split; [exact Ha|exact Hc].
Defined.

(** ** The outcomes do not depend on the schedule *)

Lemma retryFrom_unfold answers attempt remaining :
  retryFrom answers attempt remaining =
  let result :=
    match answers attempt with
    | Resolved result => result
    | Rejected error =>
        {| success := false; data := None; error := error; duration := Some 0%Z |}
    end in
  if success result then result
  else match remaining with
       | O => result
       | S remaining' => retryFrom answers (S attempt) remaining'
       end.
Proof. by destruct remaining. Qed.

Lemma predictable_step concurrency answers effect s s' :
  step concurrency s s' -> Predictable answers effect s -> Predictable answers effect s'.
Proof.
  intros Hstep [Hqueue Hactive Hdone].
  step_inversion Hstep.
  - split; simpl.
    + intros n' sc' Hin. apply Hqueue. rewrite Hq. by right.
    + intros t [Hin|Hin]%elem_of_app; [by apply Hactive|].
      apply list_elem_of_singleton in Hin as ->. simpl. split; [|done].
      apply Hqueue. rewrite Hq. by left.
    + done.
  - assert (Htask : task ∈ active s) by (rewrite Hact; apply elem_of_middle; by left).
    destruct (Hactive task Htask) as (Hsc & Hpred & Haw).
    assert (Hrest : forall t, t ∈ before ++ after -> t ∈ active s).
    { intros t Hin. rewrite Hact. apply elem_of_middle. by right. }
    assert (Hnx :
      match nx with
      | Continue task' _ =>
          name task' = name task /\ scraper task' = scraper task /\
          predicted answers task' = predicted answers task /\
          match await task' with
          | AwaitScrape => True
          | AwaitDelay r => attempts task' < RETRY_ATTEMPTS /\ success r = false
          end
      | Finish r => r = predicted answers task
      end).
    { destruct Hk as [(Haws & _ & _ & ->)|(r & Hawd & _ & _ & ->)].
      - rewrite Hsc. unfold answering at 1. simpl.
        unfold predicted at 2 3. rewrite Haws, retryFrom_unfold.
        destruct (settle_cases task (answers (name task) (attempts task)))
          as [(r & Hr & Hs & ->)|[(r & Hr & Hs & Hlt & ->)|[(r & Hr & Hs & Hge & ->)
             |[(e & Hr & Hlt & ->)|(e & Hr & Hge & ->)]]]];
          rewrite Hr; simpl; rewrite ?Hs; simpl.
        + done.
        + unfold predicted. simpl.
          replace (RETRY_ATTEMPTS - attempts task) with (S (RETRY_ATTEMPTS - S (attempts task)))
            by lia.
          done.
        + by replace (RETRY_ATTEMPTS - attempts task) with 0 by lia.
        + unfold predicted. simpl.
          replace (RETRY_ATTEMPTS - attempts task) with (S (RETRY_ATTEMPTS - S (attempts task)))
            by lia.
          done.
        + by replace (RETRY_ATTEMPTS - attempts task) with 0 by lia.
      - rewrite Hawd in Haw. destruct Haw as [Hlt Hs].
        destruct (loopTest_cases task r) as [[-> [Hge|Hs']]|(-> & _ & _)];
          [lia|congruence|].
        unfold predicted. simpl. by rewrite Hawd. }
    destruct nx as [task' evs|r]; split; simpl.
    + done.
    + intros t [->|Hin]%elem_of_middle; [|by apply Hactive, Hrest].
      destruct Hnx as (Hn & Hs & Hp & Ha). by rewrite Hs, Hp, Hn.
    + done.
    + done.
    + intros t Hin. by apply Hactive, Hrest.
    + intros n r' Hr'. destruct (decide (n = name task)) as [->|Hne].
      * rewrite lookup_insert_eq in Hr'. injection Hr' as <-. by rewrite Hnx.
      * rewrite lookup_insert_ne in Hr' by done. by apply Hdone.
Qed.

Lemma submitted_predictable answers effect names db0 :
  Predictable answers effect
    (submitted (map (fun n => (n, answering (answers n) (effect n))) names) db0).
Proof.
  split; simpl.
  - intros n sc Hin. apply list_elem_of_fmap in Hin as (n' & [= -> ->] & _). done.
  - intros task Hin. by apply elem_of_nil in Hin.
  - intros n r. by rewrite lookup_empty.
Qed.

(** X10.  For scrapers whose answers do not depend on the database, the
    recorded outcome of a provider is the one the retry loop computes when it
    is read in sequence, [retryLoop], on every schedule and under every
    concurrency limit: at the join [scrapingResults] holds exactly these
    outcomes, so any two runs end with the same [scrapingResults]. *)
Theorem scrapingResults_independent_of_schedule (concurrency : nat) (names : list string)
    (answers : string -> nat -> Settled ScrapingResult)
    (effect : string -> nat -> Prisma.Db -> Prisma.Db) (db0 : Prisma.Db) :
  NoDup names ->
  let SCRAPERS := map (fun n => (n, answering (answers n) (effect n))) names in
  (forall s, rtc (step concurrency) (submitted SCRAPERS db0) s ->
     forall n r, scrapingResults s !! n = Some r -> r = retryLoop (answers n)) /\
  (forall s, rtc (step concurrency) (submitted SCRAPERS db0) s -> allSettled s ->
     forall n, scrapingResults s !! n =
               if decide (n ∈ names) then Some (retryLoop (answers n)) else None) /\
  (forall s1 s2,
     rtc (step concurrency) (submitted SCRAPERS db0) s1 -> allSettled s1 ->
     rtc (step concurrency) (submitted SCRAPERS db0) s2 -> allSettled s2 ->
     scrapingResults s1 = scrapingResults s2).
Proof.
  intros Hnd SCRAPERS.
  assert (Hnames : map fst SCRAPERS = names).
  { unfold SCRAPERS. rewrite map_map. simpl. apply map_id. }
  assert (Hpre : forall s, rtc (step concurrency) (submitted SCRAPERS db0) s ->
            Predictable answers effect s).
  { apply run_invariant; [apply submitted_predictable|].
    intros s1 s2 H1 H2. by eapply predictable_step. }
  assert (Hjoin : forall s, rtc (step concurrency) (submitted SCRAPERS db0) s -> allSettled s ->
            forall n, scrapingResults s !! n =
                      if decide (n ∈ names) then Some (retryLoop (answers n)) else None).
  { intros s Hrun Hs n.
    assert (Hcoh : Coherent (map fst SCRAPERS) s).
    { apply (run_coherent concurrency _ db0); [by rewrite Hnames|done]. }
    assert (Hn := coh_names _ _ Hcoh n). destruct Hs as [Hq Ha].
    rewrite Hq, Ha, Hnames in Hn. simpl in Hn.
    destruct (scrapingResults s !! n) as [r|] eqn:Hr.
    - rewrite decide_True; [|apply Hn; eauto].
      f_equal. by apply (pre_done answers effect s (Hpre s Hrun)).
    - rewrite decide_False; [done|]. intros Hin.
      apply Hn in Hin as [Hin|[r Hr']]; [by apply elem_of_nil in Hin|done]. }
  split; [|split; [done|]].
  - intros s Hrun. by apply (pre_done answers effect s (Hpre s Hrun)).
  - intros s1 s2 H1 J1 H2 J2. apply map_eq. intros n.
    by rewrite (Hjoin s1 H1 J1), (Hjoin s2 H2 J2).
Qed.

Lemma SCRAPER_NAMES_NoDup : NoDup SCRAPER_NAMES.
Proof. apply (bool_decide_unpack _). by vm_compute. Qed.

Lemma exampleAnsweringRun_run :
  rtc (step CONCURRENT_SCRAPERS)
    (submitted (map (fun n => (n, answering (exampleAnswers n) (fun _ db => db))) SCRAPER_NAMES)
       emptyDb)
    exampleAnsweringRun.
Proof. apply drive_run. Qed.

Lemma exampleAnsweringRun_settled : allSettled exampleAnsweringRun.
Proof. split; reflexivity. Qed.

Lemma scrapingResults_independent_of_schedule_witness :
  NoDup SCRAPER_NAMES /\
  scrapingResults exampleAnsweringRun !! "redfin"%string =
  Some (retryLoop (exampleAnswers "redfin")).
Proof.
  split; [exact SCRAPER_NAMES_NoDup|].
  exact (proj1 (proj2 (scrapingResults_independent_of_schedule CONCURRENT_SCRAPERS
                         SCRAPER_NAMES exampleAnswers (fun _ _ db => db) emptyDb
                         SCRAPER_NAMES_NoDup))
           exampleAnsweringRun exampleAnsweringRun_run exampleAnsweringRun_settled
           "redfin"%string).
Defined.

(** ** The property identifier *)

Lemma lowerChar_idemp c : ScrapingUtils.lowerChar (ScrapingUtils.lowerChar c) = ScrapingUtils.lowerChar c.
Proof. by destruct c as [[] [] [] [] [] [] [] []]. Qed.

Lemma toLowerCase_idemp s :
  ScrapingUtils.toLowerCase (ScrapingUtils.toLowerCase s) = ScrapingUtils.toLowerCase s.
Proof. induction s as [|c s IH]; simpl; [done|]. by rewrite lowerChar_idemp, IH. Qed.

(** X11.  The [propertyId] that [analyzeProperty] returns is the digest of
    the lowercased address, city and state and of the ZIP code, whatever the
    scrapers, the schedule and the database: two calls whose address, city
    and state differ in the case of their letters only return the same
    [propertyId]. *)
Theorem propertyId_ignores_case (MD5 : string -> string)
    (SCRAPERS SCRAPERS' : list (string * Scraper))
    (address city state address' city' state' zipCode : string)
    (now now' : Z) (db0 db0' : Prisma.Db) (joined joined' : Run)
    (outcome outcome' : Completion PropertyAnalysisResult.t * list Event)
    (result result' : PropertyAnalysisResult.t) :
  ScrapingUtils.toLowerCase address = ScrapingUtils.toLowerCase address' ->
  ScrapingUtils.toLowerCase city = ScrapingUtils.toLowerCase city' ->
  ScrapingUtils.toLowerCase state = ScrapingUtils.toLowerCase state' ->
  analyzeProperty MD5 SCRAPERS address city state zipCode now db0 joined outcome ->
  analyzeProperty MD5 SCRAPERS' address' city' state' zipCode now' db0' joined' outcome' ->
  outcome.1 = Returned result ->
  outcome'.1 = Returned result' ->
  PropertyAnalysisResult.propertyId result = PropertyAnalysisResult.propertyId result' /\
  PropertyAnalysisResult.propertyId result =
    ScrapingUtils.generatePropertyHash MD5
      (ScrapingUtils.toLowerCase address) (ScrapingUtils.toLowerCase city)
      (ScrapingUtils.toLowerCase state) zipCode.
Proof.
  intros Ha Hc Hs (_ & _ & ->) (_ & _ & ->) Hr Hr'.
  apply conclude_Returned in Hr as (-> & _). apply conclude_Returned in Hr' as (-> & _).
  unfold ScrapingUtils.generatePropertyHash. rewrite !toLowerCase_idemp, Ha, Hc, Hs. done.
Qed.

Lemma propertyId_ignores_case_witness :
  let SCRAPERS :=
    map (fun n => (n, storingScraper (ScrapingUtils.generatePropertyHash digestStub
                                        "1 Main St" "Austin" "TX" "78701")
                        n (exampleFinds n))) SCRAPER_NAMES in
  let outcome := conclude digestStub "1 Main St" "Austin" "TX" "78701" 0 exampleSpecRun in
  let outcome' := conclude digestStub "1 MAIN ST" "austin" "Tx" "78701" 0 exampleSpecRun in
  ScrapingUtils.toLowerCase "1 Main St" = ScrapingUtils.toLowerCase "1 MAIN ST" /\
  ScrapingUtils.toLowerCase "Austin" = ScrapingUtils.toLowerCase "austin" /\
  ScrapingUtils.toLowerCase "TX" = ScrapingUtils.toLowerCase "Tx" /\
  analyzeProperty digestStub SCRAPERS "1 Main St" "Austin" "TX" "78701" 0 emptyDb
    exampleSpecRun outcome /\
  analyzeProperty digestStub SCRAPERS "1 MAIN ST" "austin" "Tx" "78701" 0 emptyDb
    exampleSpecRun outcome' /\
  exists result result',
    outcome.1 = Returned result /\ outcome'.1 = Returned result' /\
    PropertyAnalysisResult.propertyId result = PropertyAnalysisResult.propertyId result'.
Proof.
  intros SCRAPERS outcome outcome'.
  assert (H1 : ScrapingUtils.toLowerCase "1 Main St" = ScrapingUtils.toLowerCase "1 MAIN ST")
    by reflexivity.
  assert (H2 : ScrapingUtils.toLowerCase "Austin" = ScrapingUtils.toLowerCase "austin")
    by reflexivity.
  assert (H3 : ScrapingUtils.toLowerCase "TX" = ScrapingUtils.toLowerCase "Tx") by reflexivity.
  assert (H4 : analyzeProperty digestStub SCRAPERS "1 Main St" "Austin" "TX" "78701" 0 emptyDb
                 exampleSpecRun outcome).
  { split; [apply exampleSpecRun_run|]. split; [apply exampleSpecRun_settled|reflexivity]. }
  assert (H5 : analyzeProperty digestStub SCRAPERS "1 MAIN ST" "austin" "Tx" "78701" 0 emptyDb
                 exampleSpecRun outcome').
  { split; [apply exampleSpecRun_run|]. split; [apply exampleSpecRun_settled|reflexivity]. }
  split; [exact H1|]. split; [exact H2|]. split; [exact H3|]. split; [exact H4|].
  split; [exact H5|].
  eexists. eexists. split; [reflexivity|]. split; [reflexivity|].
  exact (proj1 (propertyId_ignores_case digestStub SCRAPERS SCRAPERS
                  "1 Main St" "Austin" "TX" "1 MAIN ST" "austin" "Tx" "78701" 0 0
                  emptyDb emptyDb exampleSpecRun exampleSpecRun outcome outcome' _ _
                  H1 H2 H3 H4 H5 eq_refl eq_refl)).
Defined.

(** * The helpers of the scrapers *)

Import ScrapingUtils (RATE_LIMIT_WINDOW, MAX_REQUESTS_PER_WINDOW, windowStart, rateLimitKey,
  enforceRateLimit, enforceRateLimits, resumeAll, requests, backoff, tooSmall, messageOf, fetchFrom,
  fetchWithRetry, caught, chars, isSpace, isPrintable, isDigit, trimStart, trimEnd, trim,
  collapseFrom, printableOnly, cleanText, tidyFrom, tidy, allChars, endsWithSpace, plain,
  removeClass, priceSeparator, sqftSeparator, digitsThen, matchDigits, matchDecimal,
  parseIntFrom, parseInt, parseFloat, includes, parsePrice, parseSquareFootage, noDigit,
  mentions, toLowerCase).

(** ** Strings and decimal numerals *)

Lemma chars_app s t : chars (s +:+ t) = chars s ++ chars t.
Proof. induction s as [|c s IH]; simpl; [done|]. by rewrite IH. Qed.

Lemma chars_inj s t : chars s = chars t -> s = t.
Proof.
  revert t. induction s as [|c s IH]; intros [|d t]; simpl; try done.
  intros [= -> H]. by rewrite (IH t).
Qed.

Lemma pretty_N_char_digit x : isDigit (pretty_N_char x) = true.
Proof.
  unfold pretty_N_char.
  repeat match goal with |- context [match ?p with _ => _ end] => destruct p end; done.
Qed.

Lemma pretty_N_char_value x : (x < 10)%N -> (N_of_ascii (pretty_N_char x) - 48)%N = x.
Proof.
  intros H. unfold pretty_N_char.
  repeat match goal with |- context [match ?p with _ => _ end] => destruct p end;
    first [done|exfalso; lia|change (N_of_ascii "9") with 57%N; lia].
Qed.

Lemma pretty_N_go_digits x s :
  Forall (fun c => isDigit c = true) (chars s) ->
  Forall (fun c => isDigit c = true) (chars (pretty_N_go x s)).
Proof.
  revert s. induction (N.lt_wf_0 x) as [x _ IH]; intros s Hs.
  destruct (decide (x = 0)%N) as [->|Hx]; [by rewrite pretty_N_go_0|].
  rewrite pretty_N_go_step by lia. apply IH.
  - apply N.div_lt; lia.
  - simpl. constructor; [apply pretty_N_char_digit|done].
Qed.

Lemma pretty_N_digits (x : N) : Forall (fun c => isDigit c = true) (chars (pretty x)).
Proof.
  unfold pretty, pretty_N. case_decide.
  - simpl. by constructor.
  - apply pretty_N_go_digits. constructor.
Qed.

Lemma pretty_N_nonempty (x : N) : pretty x <> EmptyString.
Proof.
  unfold pretty, pretty_N. case_decide as Hx; [done|].
  rewrite pretty_N_go_step by lia. intros H.
  assert (Hlen : forall y s, String.length s <= String.length (pretty_N_go y s)).
  { clear. intros y. induction (N.lt_wf_0 y) as [y _ IH]; intros s.
    destruct (decide (y = 0)%N) as [->|Hy]; [by rewrite pretty_N_go_0|].
    rewrite pretty_N_go_step by lia.
    etrans; [|apply IH; apply N.div_lt; lia]. simpl. lia. }
  specialize (Hlen (x `div` 10)%N (String (pretty_N_char (x `mod` 10)) "")).
  rewrite H in Hlen. simpl in Hlen. lia.
Qed.

Lemma parseIntFrom_pretty_N_go x s value :
  exists shift, parseIntFrom value (pretty_N_go x s) = parseIntFrom (value * shift + x) s /\
                (x = 0%N -> shift = 1%N).
Proof.
  revert s value. induction (N.lt_wf_0 x) as [x _ IH]; intros s value.
  destruct (decide (x = 0)%N) as [->|Hx].
  - exists 1%N. rewrite pretty_N_go_0. split; [|done]. f_equal. lia.
  - rewrite pretty_N_go_step by lia.
    destruct (IH (x `div` 10)%N ltac:(apply N.div_lt; lia)
                (String (pretty_N_char (x `mod` 10)) s) value) as (shift & -> & _).
    exists (10 * shift)%N. split; [|done]. cbn [parseIntFrom].
    rewrite pretty_N_char_value by (apply N.mod_lt; lia). f_equal.
    assert (H := N.div_mod x 10 ltac:(lia)). lia.
Qed.

Lemma parseInt_pretty (n : N) : parseInt (pretty n) = n.
Proof.
  unfold parseInt, pretty, pretty_N. case_decide as Hn; [by subst|].
  destruct (parseIntFrom_pretty_N_go n "" 0) as (shift & -> & _). simpl. lia.
Qed.

(** ** Rate limiting *)

Lemma pretty_Z_no_underscore (z : Z) : "_"%char ∉ chars (pretty z).
Proof.
  assert (Hd : forall x : N, "_"%char ∉ chars (pretty x)).
  { intros x Hin. assert (H := pretty_N_digits x). rewrite Forall_forall in H.
    by specialize (H _ Hin). }
  destruct z as [|p|p]; unfold pretty, pretty_Z.
  - simpl. by intros [?|?%elem_of_nil]%elem_of_cons.
  - apply (Hd (Npos p)).
  - rewrite chars_app. simpl. intros [Heq|Hin]%elem_of_cons; [done|].
    by apply (Hd (Npos p)).
Qed.

(** Two strings joined by an underscore are told apart by the last
    underscore when the second has none. *)
Lemma underscore_split (a a' b b' : list Ascii.ascii) :
  "_"%char ∉ b -> "_"%char ∉ b' ->
  a ++ "_"%char :: b = a' ++ "_"%char :: b' -> a = a' /\ b = b'.
Proof.
  intros Hb Hb'. revert a'. induction a as [|c a IH]; intros [|c' a']; simpl.
  - by intros [= ->].
  - intros [= <- ->]. exfalso. apply Hb. apply elem_of_app. right. by left.
  - intros [= -> <-]. exfalso. apply Hb'. apply elem_of_app. right. by left.
  - intros [= -> H]. destruct (IH a' H) as [-> ->]. done.
Qed.

Lemma rateLimitKey_inj provider provider' w w' :
  rateLimitKey provider w = rateLimitKey provider' w' -> provider = provider' /\ w = w'.
Proof.
  unfold rateLimitKey. intros H. apply (f_equal chars) in H. rewrite !chars_app in H. simpl in H.
  apply underscore_split in H as [Hp Hw]; [|apply pretty_Z_no_underscore..].
  split; [by apply chars_inj|]. apply chars_inj in Hw. by apply (inj pretty).
Qed.

Lemma windowStart_bounds now :
  (windowStart now <= now < windowStart now + RATE_LIMIT_WINDOW)%Z /\
  (windowStart now mod RATE_LIMIT_WINDOW = 0)%Z.
Proof.
  unfold windowStart, RATE_LIMIT_WINDOW. split.
  - assert (H := Z.mul_div_le now 60000). assert (H' := Z.mul_succ_div_gt now 60000). lia.
  - apply Z.mod_mul. lia.
Qed.

Lemma enforceRateLimit_lookup provider now m provider' w' :
  (enforceRateLimit provider now m).2 !! rateLimitKey provider' w' =
  if decide (provider' = provider /\ w' = windowStart now)
  then Some (S (requests provider now m))
  else m !! rateLimitKey provider' w'.
Proof.
  unfold enforceRateLimit, requests. simpl. case_decide as Hd.
  - destruct Hd as [-> ->]. by rewrite lookup_insert_eq.
  - rewrite lookup_insert_ne; [done|]. intros [? ?]%rateLimitKey_inj. by apply Hd.
Qed.

Lemma enforceRateLimit_requests provider now m provider' now' :
  requests provider' now' (enforceRateLimit provider now m).2 =
  if decide (provider' = provider /\ windowStart now' = windowStart now)
  then S (requests provider now m)
  else requests provider' now' m.
Proof.
  unfold requests at 1. rewrite enforceRateLimit_lookup. by case_decide.
Qed.

Lemma enforceRateLimit_waited provider now m :
  (enforceRateLimit provider now m).1 =
  if MAX_REQUESTS_PER_WINDOW <=? requests provider now m
  then Some (windowStart now + RATE_LIMIT_WINDOW - now)%Z else None.
Proof. reflexivity. Qed.

Lemma windowStart_next now :
  windowStart (windowStart now + RATE_LIMIT_WINDOW) = (windowStart now + RATE_LIMIT_WINDOW)%Z.
Proof.
  unfold windowStart, RATE_LIMIT_WINDOW.
  replace (now / 60000 * 60000 + 60000)%Z with ((now / 60000 + 1) * 60000)%Z by lia.
  by rewrite Z.div_mul.
Qed.

(** X12.  A call waits exactly when the provider already has
    [MAX_REQUESTS_PER_WINDOW] requests counted in the window of [now]; the wait
    is positive, at most one window long and ends at the start of the next
    window; the request is counted in the window in which it was made, so the
    next window, in which it proceeds, does not count it. *)
Theorem enforceRateLimit_wait provider now m :
  let '(waited, m') := enforceRateLimit provider now m in
  (is_Some waited <-> MAX_REQUESTS_PER_WINDOW <= requests provider now m) /\
  forall waitTime, waited = Some waitTime ->
    (0 < waitTime <= RATE_LIMIT_WINDOW)%Z /\
    (now + waitTime)%Z = (windowStart now + RATE_LIMIT_WINDOW)%Z /\
    windowStart (now + waitTime) = (now + waitTime)%Z /\
    requests provider (now + waitTime) m' = requests provider (now + waitTime) m.
Proof.
  destruct (enforceRateLimit provider now m) as [waited m'] eqn:He.
  assert (Hm : m' = (enforceRateLimit provider now m).2) by by rewrite He.
  assert (Hw : waited = (enforceRateLimit provider now m).1) by by rewrite He.
  rewrite enforceRateLimit_waited in Hw. clear He.
  destruct (windowStart_bounds now) as [Hb _]. split.
  - rewrite Hw. destruct (Nat.leb_spec MAX_REQUESTS_PER_WINDOW (requests provider now m)).
    + split; [done|]. intros _. by eexists.
    + split; [by intros [? [=]]|]. unfold MAX_REQUESTS_PER_WINDOW in *. lia.
  - intros waitTime ->. destruct (_ <=? _); [|done]. injection Hw as ->.
    replace (now + (windowStart now + RATE_LIMIT_WINDOW - now))%Z
      with (windowStart now + RATE_LIMIT_WINDOW)%Z by lia.
    split; [lia|]. split; [done|]. split; [apply windowStart_next|].
    rewrite Hm, enforceRateLimit_requests. rewrite decide_False; [done|].
    intros [_ H]. rewrite windowStart_next in H. unfold RATE_LIMIT_WINDOW in H. lia.
Qed.

(** X13.  A call adds one to the count of its own provider and window and leaves
    every other count as it was: counts of other providers, and of the same
    provider in other windows, are not touched, whatever the provider names
    are; no entry of the map is ever removed. *)
Theorem enforceRateLimit_counts provider now m :
  let m' := (enforceRateLimit provider now m).2 in
  requests provider now m' = S (requests provider now m) /\
  (forall provider' now',
     provider' <> provider \/ windowStart now' <> windowStart now ->
     requests provider' now' m' = requests provider' now' m) /\
  dom m ⊆ dom m'.
Proof.
  cbv zeta. split; [|split].
  - rewrite enforceRateLimit_requests. by rewrite decide_True.
  - intros provider' now' H. rewrite enforceRateLimit_requests.
    rewrite decide_False; [done|]. intros [? ?]. by destruct H.
  - unfold enforceRateLimit. simpl. rewrite dom_insert. set_solver.
Qed.

Lemma resumeAll_replicate provider t0 k v m :
  requests provider t0 (resumeAll (replicate k (rateLimitKey provider (windowStart t0), v)) m)
  = match k with 0 => requests provider t0 m | S _ => v end.
Proof.
  revert m. induction k as [|k IH]; intros m; [done|].
  unfold resumeAll in *. cbn [replicate foldl fst snd]. rewrite IH.
  destruct k; [|done]. unfold requests. by rewrite lookup_insert_eq.
Qed.

(** X14.  Calls one provider begins within one window, none of them waiting
    from before: starting from [counted] requests, the first
    [MAX_REQUESTS_PER_WINDOW - counted] calls do not wait and are counted at
    once, and every later call waits.  A call that waits writes, when it
    resumes, one more than the count it read before waiting, so the calls
    that waited all write the same count: once all have resumed the count is
    one more than the larger of [counted] and [MAX_REQUESTS_PER_WINDOW],
    however many calls waited, and not the number of calls made. *)
Theorem enforceRateLimits_one_window provider t0 times m :
  Forall (fun t => windowStart t = windowStart t0) times ->
  let counted := requests provider t0 m in
  let '(waits, pending, m') := enforceRateLimits provider times m in
  let free := MAX_REQUESTS_PER_WINDOW - counted in
  take free waits = replicate (Nat.min free (length times)) None /\
  Forall is_Some (drop free waits) /\
  pending = replicate (length times - free)
              (rateLimitKey provider (windowStart t0),
               S (Nat.max counted MAX_REQUESTS_PER_WINDOW)) /\
  requests provider t0 m' = counted + Nat.min free (length times) /\
  requests provider t0 (resumeAll pending m') =
    if length times <=? free then counted + length times
    else S (Nat.max counted MAX_REQUESTS_PER_WINDOW).
Proof.
  intros Hall. cbv zeta.
  assert (Hmain :
    let '(waits, pending, m') := enforceRateLimits provider times m in
    take (MAX_REQUESTS_PER_WINDOW - requests provider t0 m) waits
      = replicate (Nat.min (MAX_REQUESTS_PER_WINDOW - requests provider t0 m) (length times))
          None /\
    Forall is_Some (drop (MAX_REQUESTS_PER_WINDOW - requests provider t0 m) waits) /\
    pending = replicate (length times - (MAX_REQUESTS_PER_WINDOW - requests provider t0 m))
                (rateLimitKey provider (windowStart t0),
                 S (Nat.max (requests provider t0 m) MAX_REQUESTS_PER_WINDOW)) /\
    requests provider t0 m'
      = requests provider t0 m
        + Nat.min (MAX_REQUESTS_PER_WINDOW - requests provider t0 m) (length times)).
  { revert m. induction Hall as [|t times Ht Hall IH]; intros m.
    - cbn [enforceRateLimits length]. rewrite take_nil, drop_nil, Nat.min_0_r.
      split; [done|]. split; [done|]. split; [done|lia].
    - cbn [enforceRateLimits]. rewrite Ht.
      change (default 0 (m !! rateLimitKey provider (windowStart t0)))
        with (requests provider t0 m).
      unfold MAX_REQUESTS_PER_WINDOW in *.
      destruct (Nat.leb_spec 10 (requests provider t0 m)) as [Hle|Hlt].
      + specialize (IH m).
        destruct (enforceRateLimits provider times m) as [[ws ps] m2].
        replace (10 - requests provider t0 m) with 0 in * by lia.
        destruct IH as (IH1 & IH2 & IH3 & IH4).
        cbn [length]. rewrite drop_0, Nat.sub_0_r in *. cbn [replicate take Nat.min].
        split; [done|]. split; [constructor; [by eexists|done]|].
        split; [|lia]. rewrite IH3. do 3 f_equal. lia.
      + set (m1 := <[rateLimitKey provider (windowStart t0) := S (requests provider t0 m)]> m).
        assert (Hc : requests provider t0 m1 = S (requests provider t0 m)).
        { unfold m1, requests. by rewrite lookup_insert_eq. }
        specialize (IH m1).
        destruct (enforceRateLimits provider times m1) as [[ws ps] m2].
        rewrite Hc in IH. destruct IH as (IH1 & IH2 & IH3 & IH4).
        destruct (10 - requests provider t0 m) as [|k] eqn:Hk; [lia|].
        replace (10 - S (requests provider t0 m)) with k in * by lia.
        cbn [take drop Nat.min replicate length]. rewrite IH1.
        split; [done|]. split; [done|]. split; [|lia].
        rewrite IH3. replace (S (length times) - S k) with (length times - k) by lia.
        do 3 f_equal. lia. }
  destruct (enforceRateLimits provider times m) as [[waits pending] m'].
  destruct Hmain as (H1 & H2 & H3 & H4).
  split; [done|]. split; [done|]. split; [done|]. split; [done|].
  rewrite H3, resumeAll_replicate, H4. unfold MAX_REQUESTS_PER_WINDOW.
  destruct (Nat.leb_spec (length times) (10 - requests provider t0 m)) as [Hle|Hlt].
  - replace (length times - (10 - requests provider t0 m)) with 0 by lia. lia.
  - destruct (length times - (10 - requests provider t0 m)) eqn:Hk; [lia|done].
Qed.

Lemma exampleTimes_one_window :
  Forall (fun t => windowStart t = windowStart 1700000040000) exampleTimes.
Proof. repeat constructor. Qed.

Lemma enforceRateLimits_one_window_witness :
  Forall (fun t => windowStart t = windowStart 1700000040000) exampleTimes /\
  length exampleTimes = 12 /\
  let '(waits, pending, m') := enforceRateLimits "zillow" exampleTimes ∅ in
  requests "zillow" 1700000040000 (resumeAll pending m') = 11.
Proof.
  split; [exact exampleTimes_one_window|]. split; [reflexivity|].
  assert (H := enforceRateLimits_one_window "zillow" 1700000040000 exampleTimes ∅
                 exampleTimes_one_window).
  cbv zeta in H. revert H.
  destruct (enforceRateLimits "zillow" exampleTimes ∅) as [[waits pending] m'].
  intros (_ & _ & _ & _ & H). exact H.
Defined.

(** ** Fetching with retries *)

Lemma tooSmall_length html : tooSmall html = false -> 100 <= String.length html.
Proof.
  destruct html as [|c html]; [done|]. unfold tooSmall.
  intros H. apply Nat.ltb_ge in H. done.
Qed.

Lemma fetchFrom_outcome url get maxRetries remaining attempt lastError :
  attempt + remaining = S maxRetries ->
  let '(settled, delays) := fetchFrom url get maxRetries remaining attempt lastError in
  match settled with
  | Resolved html =>
      exists k, attempt <= k <= maxRetries /\ get k = Resolved html /\
        100 <= String.length html /\
        (forall j, attempt <= j < k -> is_Some (caught (get j))) /\
        delays = backoff <$> seq attempt (k - attempt)
  | Rejected error =>
      (forall j, attempt <= j <= maxRetries -> is_Some (caught (get j))) /\
      delays = backoff <$> seq attempt (maxRetries - attempt) /\
      error = Some ("Failed to fetch " +:+ url +:+ " after " +:+ pretty maxRetries
                    +:+ " attempts: " +:+
                    messageOf (if remaining is 0 then lastError else caught (get maxRetries)))
  end.
Proof.
  revert attempt lastError.
  induction remaining as [|remaining IH]; intros attempt lastError Hsum.
  - cbn [fetchFrom]. split; [intros j Hj; lia|].
    split; [|done]. by replace (maxRetries - attempt) with 0 by lia.
  - cbn [fetchFrom].
    assert (Hcatch : forall error, caught (get attempt) = Some error ->
      let '(settled, delays) :=
        (let '(settled, delays) :=
           fetchFrom url get maxRetries remaining (S attempt) (Some error) in
         (settled, (if attempt <? maxRetries then [backoff attempt] else []) ++ delays)) in
      match settled with
      | Resolved html =>
          exists k, attempt <= k <= maxRetries /\ get k = Resolved html /\
            100 <= String.length html /\
            (forall j, attempt <= j < k -> is_Some (caught (get j))) /\
            delays = backoff <$> seq attempt (k - attempt)
      | Rejected error' =>
          (forall j, attempt <= j <= maxRetries -> is_Some (caught (get j))) /\
          delays = backoff <$> seq attempt (maxRetries - attempt) /\
          error' = Some ("Failed to fetch " +:+ url +:+ " after " +:+ pretty maxRetries
                        +:+ " attempts: " +:+ messageOf (caught (get maxRetries)))
      end).
    { intros error Hc. specialize (IH (S attempt) (Some error) ltac:(lia)).
      destruct (fetchFrom url get maxRetries remaining (S attempt) (Some error))
        as [[html|error'] delays].
      - destruct IH as (k & Hk & Hget & Hlen & Hfail & ->).
        exists k. split; [lia|]. split; [done|]. split; [done|]. split.
        + intros j Hj. destruct (decide (j = attempt)) as [->|]; [by rewrite Hc|].
          apply Hfail. lia.
        + rewrite (proj2 (Nat.ltb_lt attempt maxRetries)) by lia.
          replace (k - attempt) with (S (k - S attempt)) by lia. done.
      - destruct IH as (Hfail & -> & ->). split; [|split].
        + intros j Hj. destruct (decide (j = attempt)) as [->|]; [by rewrite Hc|].
          apply Hfail. lia.
        + destruct (Nat.ltb_spec attempt maxRetries).
          * replace (maxRetries - attempt) with (S (maxRetries - S attempt)) by lia. done.
          * replace (maxRetries - attempt) with 0 by lia.
            by replace (maxRetries - S attempt) with 0 by lia.
        + destruct remaining; [|done].
          assert (maxRetries = attempt) as -> by lia. by rewrite Hc. }
    unfold caught in Hcatch at 1.
    destruct (get attempt) as [html|error] eqn:Hget.
    + destruct (tooSmall html) eqn:Hsmall; [by apply Hcatch|].
      exists attempt. split; [lia|]. split; [done|]. split; [by apply tooSmall_length|].
      split; [intros j Hj; lia|]. by rewrite Nat.sub_diag.
    + by apply Hcatch.
Qed.

Lemma backoff_bounds attempt :
  1 <= attempt -> (2000 <= backoff attempt <= 10000)%Z.
Proof.
  intros H. unfold backoff.
  assert (2 ^ 1 <= 2 ^ Z.of_nat attempt)%Z by (apply Z.pow_le_mono_r; lia). lia.
Qed.

Lemma backoff_mono a b : a <= b -> (backoff a <= backoff b)%Z.
Proof.
  intros H. unfold backoff.
  assert (2 ^ Z.of_nat a <= 2 ^ Z.of_nat b)%Z by (apply Z.pow_le_mono_r; lia). lia.
Qed.

(** X15.  [fetchWithRetry] resolves with the body of the first attempt, among the
    first [maxRetries], whose request resolves with a body of at least 100
    characters, and rejects when there is none, naming the number of attempts
    and the message of the last failure ([undefined] when no attempt was
    made).  Before each further attempt, and only then, it waits
    [min (1000 * 2 ^ attempt) 10000] milliseconds: nothing is awaited after
    the last attempt. *)
Theorem fetchWithRetry_outcome url get maxRetries :
  let '(settled, delays) := fetchWithRetry url get maxRetries in
  match settled with
  | Resolved html =>
      exists k, 1 <= k <= maxRetries /\ get k = Resolved html /\
        100 <= String.length html /\
        (forall j, 1 <= j < k -> is_Some (caught (get j))) /\
        delays = backoff <$> seq 1 (k - 1)
  | Rejected error =>
      (forall j, 1 <= j <= maxRetries -> is_Some (caught (get j))) /\
      delays = backoff <$> seq 1 (maxRetries - 1) /\
      error = Some ("Failed to fetch " +:+ url +:+ " after " +:+ pretty maxRetries
                    +:+ " attempts: " +:+
                    messageOf (if maxRetries is 0 then None else caught (get maxRetries)))
  end.
Proof.
  unfold fetchWithRetry.
  apply (fetchFrom_outcome url get maxRetries maxRetries 1 None). lia.
Qed.

Lemma fetchFrom_delays url get maxRetries remaining attempt lastError :
  attempt + remaining = S maxRetries ->
  exists n, n <= maxRetries - attempt /\
    (fetchFrom url get maxRetries remaining attempt lastError).2 = backoff <$> seq attempt n.
Proof.
  intros Hsum. assert (H := fetchFrom_outcome url get maxRetries remaining attempt lastError Hsum).
  destruct (fetchFrom url get maxRetries remaining attempt lastError) as [[html|error] delays].
  - destruct H as (k & Hk & _ & _ & _ & ->). exists (k - attempt). split; [lia|done].
  - destruct H as (_ & -> & _). by exists (maxRetries - attempt).
Qed.

Lemma total_le (bound : Z) (l : list Z) :
  Forall (fun d => d <= bound)%Z l -> (foldr Z.add 0 l <= bound * Z.of_nat (length l))%Z.
Proof.
  induction 1 as [|d l Hd _ IH]; cbn [foldr length]; lia.
Qed.

(** X16.  The waits of one [fetchWithRetry] are fewer than [maxRetries], each
    between two and ten seconds, and never decrease; together they last at
    most [10000 * (maxRetries - 1)] milliseconds. *)
Theorem fetchWithRetry_delays url get maxRetries :
  let delays := (fetchWithRetry url get maxRetries).2 in
  length delays <= maxRetries - 1 /\
  Forall (fun d => 2000 <= d <= 10000)%Z delays /\
  Sorted Z.le delays /\
  (foldr Z.add 0 delays <= 10000 * Z.of_nat (maxRetries - 1))%Z.
Proof.
  cbv zeta. unfold fetchWithRetry.
  destruct (fetchFrom_delays url get maxRetries maxRetries 1 None) as (n & Hn & ->); [lia|].
  assert (Hall : forall a, 1 <= a ->
    Forall (fun d => 2000 <= d <= 10000)%Z (backoff <$> seq a n)).
  { intros a Ha. apply Forall_fmap, Forall_forall. intros j Hj%elem_of_seq.
    apply backoff_bounds. lia. }
  assert (Hlen : length (backoff <$> seq 1 n) = n) by by rewrite length_fmap, length_seq.
  split; [lia|]. split; [by apply Hall|]. split.
  - generalize 1. clear. induction n as [|n IH]; intros a; [constructor|].
    cbn [seq fmap list_fmap]. constructor; [apply IH|].
    destruct n; [constructor|]. constructor. apply backoff_mono. lia.
  - specialize (Hall 1 ltac:(lia)).
    assert (H := total_le 10000 (backoff <$> seq 1 n)). rewrite Hlen in H.
    etrans; [apply H|lia]. eapply Forall_impl; [apply Hall|]. simpl. lia.
Qed.

(** ** Cleaning text *)

Lemma space_printable c : isSpace c = true -> isPrintable c = true -> c = " "%char.
Proof. destruct c as [[] [] [] [] [] [] [] []]; vm_compute; congruence. Qed.

Lemma space_isSpace : isSpace " " = true.
Proof. reflexivity. Qed.

Lemma eqb_space c : Ascii.eqb c " " = false -> isPrintable c = true -> isSpace c = false.
Proof.
  intros Hne Hp. destruct (isSpace c) eqn:Hs; [|done].
  rewrite (space_printable c Hs Hp) in Hne. done.
Qed.

Lemma trimStart_length s : String.length (trimStart s) <= String.length s.
Proof. induction s as [|c s IH]; simpl; [done|]. destruct (isSpace c); simpl; lia. Qed.

Lemma trimEnd_length s : String.length (trimEnd s) <= String.length s.
Proof.
  induction s as [|c s IH]; simpl; [done|].
  destruct (trimEnd s); [destruct (isSpace c)|]; simpl in *; lia.
Qed.

Lemma collapseFrom_length b s : String.length (collapseFrom b s) <= String.length s.
Proof.
  revert b. induction s as [|c s IH]; intros b; simpl; [done|].
  destruct (isSpace c); [destruct b|]; simpl.
  - specialize (IH true). lia.
  - specialize (IH true). lia.
  - specialize (IH false). lia.
Qed.

Lemma printableOnly_length s : String.length (printableOnly s) <= String.length s.
Proof. induction s as [|c s IH]; simpl; [done|]. destruct (isPrintable c); simpl; lia. Qed.

Lemma printableOnly_chars s : Forall (fun c => isPrintable c = true) (chars (printableOnly s)).
Proof.
  induction s as [|c s IH]; simpl; [constructor|].
  destruct (isPrintable c) eqn:Hc; [by constructor|done].
Qed.

(** X17.  Whatever the text, [cleanText] returns printable ASCII characters only and
    never more characters than it was given. *)
Theorem cleanText_printable text :
  Forall (fun c => (32 <= nat_of_ascii c <= 126)%nat) (chars (cleanText text)) /\
  String.length (cleanText text) <= String.length text.
Proof.
  split.
  - eapply Forall_impl; [apply printableOnly_chars|]. intros c Hc. simpl in Hc.
    unfold isPrintable in Hc. apply andb_true_iff in Hc as [H1 H2].
    apply Nat.leb_le in H1, H2. lia.
  - unfold cleanText, trim.
    etrans; [apply printableOnly_length|]. etrans; [apply collapseFrom_length|].
    etrans; [apply trimEnd_length|]. apply trimStart_length.
Qed.

(** *** Tidy texts are left as they are *)

Lemma tidyFrom_weaken s : tidyFrom true s = true -> tidyFrom false s = true.
Proof.
  destruct s as [|c s]; simpl; [done|].
  destruct (isPrintable c); [|done]. simpl. by destruct (Ascii.eqb c " "); simpl.
Qed.

Lemma tidyFrom_printableOnly b s : tidyFrom b s = true -> printableOnly s = s.
Proof.
  revert b. induction s as [|c s IH]; intros b; simpl; [done|].
  destruct (isPrintable c); [|done]. simpl.
  destruct (Ascii.eqb c " ").
  - intros [_ H]%andb_true_iff. by rewrite (IH _ H).
  - intros H. by rewrite (IH _ H).
Qed.

Lemma tidyFrom_collapseFrom b s : tidyFrom b s = true -> collapseFrom b s = s.
Proof.
  revert b. induction s as [|c s IH]; intros b; simpl; [done|].
  destruct (isPrintable c) eqn:Hp; [|done]. simpl.
  destruct (Ascii.eqb c " ") eqn:Hc.
  - apply Ascii.eqb_eq in Hc as ->. rewrite space_isSpace.
    intros [Hb H]%andb_true_iff. destruct b; [done|]. by rewrite (IH _ H).
  - intros H. rewrite (eqb_space c Hc Hp). by rewrite (IH _ H).
Qed.

Lemma tidyFrom_trimEnd b s : s <> EmptyString -> tidyFrom b s = true -> trimEnd s = s.
Proof.
  revert b. induction s as [|c s IH]; intros b Hne; [done|]. simpl.
  destruct (isPrintable c) eqn:Hp; [|done]. simpl.
  destruct s as [|d s].
  - simpl. destruct (Ascii.eqb c " ") eqn:Hc.
    + by rewrite andb_false_r.
    + intros _. by rewrite (eqb_space c Hc Hp).
  - intros H. assert (Hs : trimEnd (String d s) = String d s).
    { destruct (Ascii.eqb c " ").
      - apply andb_true_iff in H as [_ H]. by apply (IH true).
      - by apply (IH false). }
    by rewrite Hs.
Qed.

Lemma tidy_cleanText s : tidy s = true -> cleanText s = s.
Proof.
  destruct s as [|c s]; [done|]. unfold tidy. intros H.
  assert (Hstart : trimStart (String c s) = String c s).
  { simpl in *. destruct (isPrintable c) eqn:Hp; [|done]. simpl in H.
    destruct (Ascii.eqb c " ") eqn:Hc; [done|]. by rewrite (eqb_space c Hc Hp). }
  unfold cleanText, trim. rewrite Hstart, (tidyFrom_trimEnd true) by done.
  rewrite (tidyFrom_collapseFrom false) by by apply tidyFrom_weaken.
  by apply (tidyFrom_printableOnly true).
Qed.

(** *** Texts of printable characters and white space come out tidy *)

Lemma endsWithSpace_cons c d s : endsWithSpace (String c (String d s)) = endsWithSpace (String d s).
Proof. done. Qed.

Lemma trimStart_allChars P s : allChars P s = true -> allChars P (trimStart s) = true.
Proof.
  induction s as [|c s IH]; simpl; [done|]. intros [Hc H]%andb_true_iff.
  destruct (isSpace c); [by apply IH|]. simpl. by rewrite Hc, H.
Qed.

Lemma trimEnd_allChars P s : allChars P s = true -> allChars P (trimEnd s) = true.
Proof.
  induction s as [|c s IH]; simpl; [done|]. intros [Hc H]%andb_true_iff.
  specialize (IH H). destruct (trimEnd s) as [|d t].
  - destruct (isSpace c); [done|]. simpl. by rewrite Hc.
  - change (P c && allChars P (String d t) = true). by rewrite Hc, IH.
Qed.

Lemma trimEnd_endsWithSpace s : endsWithSpace (trimEnd s) = false.
Proof.
  induction s as [|c s IH]; simpl; [done|].
  destruct (trimEnd s) as [|d t].
  - by destruct (isSpace c) eqn:Hc.
  - by rewrite endsWithSpace_cons.
Qed.

Lemma trimStart_head s :
  match trimStart s with
  | EmptyString => True
  | String c _ => isSpace c = false
  end.
Proof. induction s as [|c s IH]; simpl; [done|]. by destruct (isSpace c) eqn:Hc. Qed.

Lemma trimEnd_head s :
  match trimEnd s with
  | EmptyString => True
  | String c _ => exists s', s = String c s'
  end.
Proof.
  destruct s as [|c s]; simpl; [done|].
  destruct (trimEnd s); [destruct (isSpace c)|]; try done; by eexists.
Qed.

Lemma collapseFrom_tidy b s :
  allChars plain s = true -> endsWithSpace s = false ->
  (b = true -> s <> EmptyString) ->
  tidyFrom b (collapseFrom b s) = true.
Proof.
  revert b. induction s as [|c s IH]; intros b Hall Hend Hne.
  - destruct b; [by destruct Hne|done].
  - cbn [allChars] in Hall. apply andb_true_iff in Hall as [Hc Hall].
    assert (Hs : isSpace c = true -> s <> EmptyString /\ endsWithSpace s = false).
    { intros Hsp. destruct s; [simpl in Hend; congruence|]. split; [done|].
      by rewrite endsWithSpace_cons in Hend. }
    assert (Hs' : endsWithSpace s = false).
    { destruct s; [done|]. by rewrite endsWithSpace_cons in Hend. }
    cbn [collapseFrom]. destruct (isSpace c) eqn:Hsp.
    + destruct (Hs eq_refl) as [Hn He]. destruct b.
      * by apply IH.
      * cbn [tidyFrom]. simpl. by apply IH.
    + unfold plain in Hc. rewrite Hsp, orb_false_r in Hc.
      cbn [tidyFrom]. rewrite Hc. simpl.
      destruct (Ascii.eqb c " ") eqn:Heq.
      { apply Ascii.eqb_eq in Heq as ->. by rewrite space_isSpace in Hsp. }
      by apply IH.
Qed.

Lemma collapseFrom_head b c s :
  isSpace c = false -> collapseFrom b (String c s) = String c (collapseFrom false s).
Proof. intros H. simpl. by rewrite H. Qed.

Lemma cleanText_tidy_plain text : allChars plain text = true -> tidy (cleanText text) = true.
Proof.
  intros Hall. unfold cleanText.
  assert (Ht : allChars plain (trim text) = true) by by apply trimEnd_allChars, trimStart_allChars.
  assert (He : endsWithSpace (trim text) = false) by apply trimEnd_endsWithSpace.
  assert (Hh : match trim text with
               | EmptyString => True
               | String c _ => isSpace c = false
               end).
  { unfold trim. assert (H1 := trimEnd_head (trimStart text)).
    assert (H2 := trimStart_head text).
    destruct (trimEnd (trimStart text)) as [|c t]; [done|].
    destruct H1 as [s' Hs']. by rewrite Hs' in H2. }
  destruct (trim text) as [|c t] eqn:Htrim; [done|].
  assert (H := collapseFrom_tidy true (String c t) Ht He ltac:(done)).
  rewrite collapseFrom_head in H by done. rewrite collapseFrom_head by done.
  rewrite (tidyFrom_printableOnly true) by done. done.
Qed.

(** X18.  A text made of printable ASCII characters and white space comes out tidy:
    no space at either end, no two spaces in a row.  Cleaning it again changes
    nothing, and a text that is tidy already is returned as it is. *)
Theorem cleanText_tidy text :
  Forall (fun c => isPrintable c = true \/ isSpace c = true) (chars text) ->
  tidy (cleanText text) = true /\
  cleanText (cleanText text) = cleanText text /\
  (tidy text = true -> cleanText text = text).
Proof.
  intros Hall. assert (Hp : allChars plain text = true).
  { induction text as [|c s IH]; [done|]. inversion Hall as [|? ? Hc Hs]; subst.
    cbn [allChars]. rewrite (IH Hs), andb_true_r. unfold plain.
    destruct Hc as [->| ->]; [done|]. by rewrite orb_true_r. }
  assert (Ht := cleanText_tidy_plain text Hp).
  split; [done|]. split; [by apply tidy_cleanText|]. apply tidy_cleanText.
Qed.

Lemma cleanText_tidy_witness :
  let text := String "009" "  3 beds,  2 baths " in
  Forall (fun c => isPrintable c = true \/ isSpace c = true) (chars text) /\
  tidy (cleanText text) = true.
Proof.
  intros text.
  assert (H : Forall (fun c => isPrintable c = true \/ isSpace c = true) (chars text)).
  { repeat (constructor; [first [by left|by right]|]). constructor. }
  split; [exact H|]. exact (proj1 (cleanText_tidy text H)).
Defined.

(** ** Parsing amounts *)

Lemma removeClass_noDigit class s :
  (forall c, class c = true -> isDigit c = false) ->
  noDigit (removeClass class s) = noDigit s.
Proof.
  intros Hclass. induction s as [|c s IH]; simpl; [done|].
  destruct (class c) eqn:Hc; simpl; rewrite IH; [|done].
  by rewrite (Hclass c Hc).
Qed.

Lemma matchDigits_None s : matchDigits s = None <-> noDigit s = true.
Proof.
  induction s as [|c s IH]; [done|]. cbn [matchDigits noDigit].
  destruct (isDigit c); [done|exact IH].
Qed.

Lemma matchDecimal_None s : matchDecimal s = None <-> noDigit s = true.
Proof.
  induction s as [|c s IH]; [done|]. cbn [matchDecimal noDigit].
  destruct (isDigit c); [|exact IH]. cbn [negb andb].
  destruct (digitsThen (String c s)) as [whole rest].
  split; [|done].
  by destruct rest as [|[[] [] [] [] [] [] [] []] rest].
Qed.

Lemma priceSeparator_noDigit c : priceSeparator c = true -> isDigit c = false.
Proof. destruct c as [[] [] [] [] [] [] [] []]; vm_compute; congruence. Qed.

Lemma sqftSeparator_noDigit c : sqftSeparator c = true -> isDigit c = false.
Proof. destruct c as [[] [] [] [] [] [] [] []]; vm_compute; congruence. Qed.

Lemma noDigit_Forall s : noDigit s = true <-> Forall (fun c => isDigit c = false) (chars s).
Proof.
  induction s as [|c s IH]; simpl; [split; [constructor|done]|].
  rewrite andb_true_iff, negb_true_iff, Forall_cons. by rewrite IH.
Qed.

(** X19.  [parsePrice] and [parseSquareFootage] return [null] exactly for the texts
    without a digit. *)
Theorem parse_null_iff_no_digit (text : string) :
  (parsePrice text = None <-> Forall (fun c => isDigit c = false) (chars text)) /\
  (parseSquareFootage text = None <-> Forall (fun c => isDigit c = false) (chars text)).
Proof.
  rewrite <- noDigit_Forall. destruct text as [|c text]; [done|].
  split.
  - unfold parsePrice. fold priceSeparator.
    rewrite <- (removeClass_noDigit priceSeparator _ priceSeparator_noDigit).
    rewrite <- matchDecimal_None.
    destruct (matchDecimal _) as [[whole fraction]|]; [|done].
    split; [|done]. by repeat case_match.
  - unfold parseSquareFootage. fold sqftSeparator.
    rewrite <- (removeClass_noDigit sqftSeparator _ sqftSeparator_noDigit).
    rewrite <- matchDigits_None. by destruct (matchDigits _).
Qed.

Lemma removeClass_app class s t : removeClass class (s +:+ t) = removeClass class s +:+ removeClass class t.
Proof.
  induction s as [|c s IH]; simpl; [done|]. rewrite IH. by destruct (class c).
Qed.

Lemma removeClass_amount class s :
  Forall (fun c => isDigit c = true \/ class c = true) (chars s) ->
  (forall c, class c = true -> isDigit c = false) ->
  chars (removeClass class s) = List.filter isDigit (chars s).
Proof.
  intros Hall Hclass. induction s as [|c s IH]; simpl; [done|].
  inversion Hall as [|? ? Hc Hs]; subst. specialize (IH Hs).
  destruct (class c) eqn:Hcl.
  - by rewrite (Hclass c Hcl).
  - destruct Hc as [->|]; [|congruence]. simpl. by rewrite IH.
Qed.

Lemma digitsThen_app digits rest :
  Forall (fun c => isDigit c = true) (chars digits) ->
  match rest with EmptyString => True | String c _ => isDigit c = false end ->
  digitsThen (digits +:+ rest) = (digits, rest).
Proof.
  intros Hd Hr. induction digits as [|c digits IH]; simpl.
  - destruct rest as [|c rest]; [done|]. simpl. by rewrite Hr.
  - inversion Hd as [|? ? Hc Hs]; subst. rewrite Hc, (IH Hs). done.
Qed.

Lemma removeClass_head class rest :
  match rest with EmptyString => True | String c _ => class c = false end ->
  removeClass class rest = match rest with
                      | EmptyString => EmptyString
                      | String c rest' => String c (removeClass class rest')
                      end.
Proof. destruct rest as [|c rest]; simpl; [done|]. by intros ->. Qed.

Lemma matchDigits_app digits rest :
  digits <> EmptyString ->
  Forall (fun c => isDigit c = true) (chars digits) ->
  match rest with EmptyString => True | String c _ => isDigit c = false end ->
  matchDigits (digits +:+ rest) = Some digits.
Proof.
  intros Hne Hd Hr. assert (Hthen := digitsThen_app digits rest Hd Hr).
  destruct digits as [|d digits]; [done|]. inversion Hd as [|? ? Hc Hs]; subst.
  change (String d digits +:+ rest) with (String d (digits +:+ rest)) in *.
  cbn [matchDigits]. by rewrite Hc, Hthen.
Qed.

Lemma matchDecimal_app digits rest :
  digits <> EmptyString ->
  Forall (fun c => isDigit c = true) (chars digits) ->
  match rest with
  | EmptyString => True
  | String c _ => isDigit c = false /\ c <> "."%char
  end ->
  matchDecimal (digits +:+ rest) = Some (digits, EmptyString).
Proof.
  intros Hne Hd Hr.
  assert (Hthen : digitsThen (digits +:+ rest) = (digits, rest)).
  { apply digitsThen_app; [done|]. destruct rest; [done|]. by destruct Hr. }
  destruct digits as [|d digits]; [done|]. inversion Hd as [|? ? Hc Hs]; subst.
  change (String d digits +:+ rest) with (String d (digits +:+ rest)) in *.
  cbn [matchDecimal]. rewrite Hc, Hthen.
  destruct rest as [|c rest]; [done|]. destruct Hr as [_ Hdot].
  by destruct c as [[] [] [] [] [] [] [] []].
Qed.

Lemma parseSquareFootage_nonempty s :
  s <> EmptyString ->
  parseSquareFootage s = parseInt <$> matchDigits (removeClass sqftSeparator s).
Proof. by destruct s. Qed.

(** X20.  A square footage of at most [2 ^ 53] written with thousands
    separators and spaces, followed by nothing or by a text that starts with
    a character that is no digit, no comma and no white space, is read as
    the number its digits spell; a fraction after a dot is dropped. *)
Theorem parseSquareFootage_amount (n : N) (amount rest : string) :
  (n <= 2 ^ 53)%N ->
  Forall (fun c => isDigit c = true \/ c = ","%char \/ isSpace c = true) (chars amount) ->
  List.filter isDigit (chars amount) = chars (pretty n) ->
  match rest with
  | EmptyString => True
  | String c _ => isDigit c = false /\ c <> ","%char /\ isSpace c = false
  end ->
  parseSquareFootage (amount +:+ rest) = Some n.
Proof.
  intros _ Hall Hdigits Hrest.
  assert (Hclean : removeClass sqftSeparator amount = pretty n).
  { apply chars_inj. rewrite <- Hdigits. apply removeClass_amount; [|apply sqftSeparator_noDigit].
    eapply Forall_impl; [apply Hall|]. intros c [?|[->|Hs]]; [by left|by right|right].
    unfold sqftSeparator. by rewrite Hs, orb_true_r. }
  assert (Hne : amount +:+ rest <> EmptyString).
  { destruct amount; [|done]. simpl in Hclean. symmetry in Hclean.
    by apply pretty_N_nonempty in Hclean. }
  rewrite parseSquareFootage_nonempty by done.
  rewrite removeClass_app, Hclean.
  assert (Hr : match removeClass sqftSeparator rest with
               | EmptyString => True
               | String c _ => isDigit c = false
               end).
  { destruct rest as [|c rest]; [done|]. destruct Hrest as (Hd & Hc & Hs).
    simpl. unfold sqftSeparator at 1. rewrite Hs, orb_false_r.
    destruct (Ascii.eqb_spec c ","); [done|]. done. }
  rewrite matchDigits_app; [|apply pretty_N_nonempty|apply pretty_N_digits|done].
  cbn [fmap option_fmap option_map]. by rewrite parseInt_pretty.
Qed.

Lemma parseSquareFootage_amount_witness :
  (1234 <= 2 ^ 53)%N /\
  Forall (fun c => isDigit c = true \/ c = ","%char \/ isSpace c = true) (chars "1,234 ") /\
  List.filter isDigit (chars "1,234 ") = chars (pretty 1234%N) /\
  parseSquareFootage "1,234 sq ft" = Some 1234%N.
Proof.
  assert (H1 : Forall (fun c => isDigit c = true \/ c = ","%char \/ isSpace c = true)
                 (chars "1,234 ")).
  { repeat (constructor; [first [by left|by right; left|by right; right]|]). constructor. }
  assert (H2 : List.filter isDigit (chars "1,234 ") = chars (pretty 1234%N)) by reflexivity.
  assert (H0 : (1234 <= 2 ^ 53)%N) by (vm_compute; discriminate).
  split; [exact H0|]. split; [exact H1|]. split; [exact H2|].
  refine (parseSquareFootage_amount 1234 "1,234 " "sq ft" H0 H1 H2 _).
  split; [reflexivity|]. split; [discriminate|reflexivity].
Defined.

Lemma parsePrice_nonempty s :
  s <> EmptyString ->
  parsePrice s =
  match matchDecimal (removeClass priceSeparator s) with
  | Some (whole, fraction) =>
      let value := parseFloat whole fraction in
      if includes "k" (toLowerCase s) then Some (value * 1000)%R
      else if includes "m" (toLowerCase s) then Some (value * 1000000)%R
      else Some value
  | None => None
  end.
Proof. by destruct s. Qed.

Lemma includes_k s : includes "k" (toLowerCase s) = mentions "k" "K" s.
Proof.
  unfold mentions. induction s as [|c s IH]; [done|].
  cbn [toLowerCase includes chars existsb]. rewrite IH. f_equal.
  by destruct c as [[] [] [] [] [] [] [] []].
Qed.

Lemma includes_m s : includes "m" (toLowerCase s) = mentions "m" "M" s.
Proof.
  unfold mentions. induction s as [|c s IH]; [done|].
  cbn [toLowerCase includes chars existsb]. rewrite IH. f_equal.
  by destruct c as [[] [] [] [] [] [] [] []].
Qed.

Lemma mentions_app lower upper s t :
  mentions lower upper (s +:+ t) = mentions lower upper s || mentions lower upper t.
Proof. unfold mentions. by rewrite chars_app, existsb_app. Qed.

Lemma amount_no_letter c :
  isDigit c || priceSeparator c = true ->
  Ascii.eqb c "k" || Ascii.eqb c "K" = false /\ Ascii.eqb c "m" || Ascii.eqb c "M" = false.
Proof. destruct c as [[] [] [] [] [] [] [] []]; vm_compute; intuition congruence. Qed.

Lemma amount_mentions lower upper amount :
  (forall c, isDigit c || priceSeparator c = true ->
             Ascii.eqb c lower || Ascii.eqb c upper = false) ->
  Forall (fun c => isDigit c || priceSeparator c = true) (chars amount) ->
  mentions lower upper amount = false.
Proof.
  intros Hc Hall. unfold mentions. induction Hall as [|c l H _ IH]; [done|].
  cbn [existsb]. by rewrite (Hc c H), IH.
Qed.

(** X21.  A price in whole dollars, of at most [2 ^ 53] when multiplied by
    a million, written with a dollar sign, thousands separators and spaces,
    followed by nothing or by a text that starts with a character that is no
    digit, no separator and no dot, is read as the number its digits spell,
    multiplied by a thousand when the text after it has a [k] or [K]
    anywhere, else by a million when it has an [m] or [M] anywhere. *)
Theorem parsePrice_amount (n : N) (amount rest : string) :
  (n * 1000000 <= 2 ^ 53)%N ->
  Forall (fun c => isDigit c = true \/ c = ","%char \/ c = "$"%char \/ isSpace c = true)
         (chars amount) ->
  List.filter isDigit (chars amount) = chars (pretty n) ->
  match rest with
  | EmptyString => True
  | String c _ =>
      isDigit c = false /\ c <> ","%char /\ c <> "$"%char /\ c <> "."%char /\
      isSpace c = false
  end ->
  parsePrice (amount +:+ rest) =
  Some (IZR (Z.of_N n) *
        (if mentions "k" "K" rest then 1000
         else if mentions "m" "M" rest then 1000000 else 1))%R.
Proof.
  intros _ Hall Hdigits Hrest.
  assert (Hall' : Forall (fun c => isDigit c || priceSeparator c = true) (chars amount)).
  { eapply Forall_impl; [apply Hall|]. intros c Hc. simpl in Hc. unfold priceSeparator.
    destruct Hc as [->|[->|[->|Hs]]]; [done|by rewrite orb_true_r|by rewrite orb_true_r|].
    by rewrite Hs, !orb_true_r. }
  assert (Hclean : removeClass priceSeparator amount = pretty n).
  { apply chars_inj. rewrite <- Hdigits. apply removeClass_amount; [|apply priceSeparator_noDigit].
    eapply Forall_impl; [apply Hall'|]. intros c Hc. simpl in Hc.
    by apply orb_true_iff in Hc. }
  assert (Hne : amount +:+ rest <> EmptyString).
  { destruct amount; [|done]. simpl in Hclean. symmetry in Hclean.
    by apply pretty_N_nonempty in Hclean. }
  rewrite parsePrice_nonempty by done. rewrite removeClass_app, Hclean.
  assert (Hr : match removeClass priceSeparator rest with
               | EmptyString => True
               | String c _ => isDigit c = false /\ c <> "."%char
               end).
  { destruct rest as [|c rest]; [done|]. destruct Hrest as (Hd & Hc & Hs & Hdot & Hsp).
    simpl. unfold priceSeparator at 1. rewrite Hsp, orb_false_r.
    destruct (Ascii.eqb_spec c ","); [done|]. destruct (Ascii.eqb_spec c "$"); [done|].
    done. }
  rewrite matchDecimal_app; [|apply pretty_N_nonempty|apply pretty_N_digits|done].
  rewrite includes_k, includes_m, !mentions_app.
  rewrite (amount_mentions "k" "K" amount), (amount_mentions "m" "M" amount);
    [|intros c Hc; by apply amount_no_letter|done|intros c Hc; by apply amount_no_letter|done].
  cbn [orb]. cbv zeta.
  assert (Hv : parseFloat (pretty n) EmptyString = IZR (Z.of_N n)).
  { unfold parseFloat. rewrite parseInt_pretty. simpl. lra. }
  rewrite Hv. repeat case_match; f_equal; lra.
Qed.

Lemma parsePrice_amount_witness :
  (1250 * 1000000 <= 2 ^ 53)%N /\
  Forall (fun c => isDigit c = true \/ c = ","%char \/ c = "$"%char \/ isSpace c = true)
         (chars "$1,250 ") /\
  List.filter isDigit (chars "$1,250 ") = chars (pretty 1250%N) /\
  parsePrice "$1,250 per month" = Some (1250 * 1000000)%R.
Proof.
  assert (H1 : Forall (fun c => isDigit c = true \/ c = ","%char \/ c = "$"%char \/
                               isSpace c = true) (chars "$1,250 ")).
  { repeat (constructor;
            [first [by left|by right; left|by right; right; left|by right; right; right]|]).
    constructor. }
  assert (H2 : List.filter isDigit (chars "$1,250 ") = chars (pretty 1250%N)) by reflexivity.
  assert (H0 : (1250 * 1000000 <= 2 ^ 53)%N) by (vm_compute; discriminate).
  split; [exact H0|]. split; [exact H1|]. split; [exact H2|].
  refine (parsePrice_amount 1250 "$1,250 " "per month" H0 H1 H2 _).
  split; [reflexivity|]. repeat (split; [discriminate|]). reflexivity.
Defined.
